(** * ScreenGuide: instruction processor, vision-analysis service and
      step-tracking components

    A shallow embedding of the parts of the application that carry its
    behavioural contract:

    - [InstructionProcessor.processInstructions]
      (components/InstructionProcessor.tsx),
    - [AIVisionService] (services/aiVisionService.ts),
    - the step handlers of [TaskViewer], [TaskInputPanel] and
      [AIGuidePopup].

    JavaScript values are modelled as they are at run time: strings are
    sequences of UTF-16 code units, numbers are the extended rationals
    with NaN and arithmetic on them rounds to the nearest double, values
    parsed from JSON are untyped. *)

From Stdlib Require Import ZArith NArith QArith Qround Qpower Qabs Lia.
From Stdlib Require Import String Ascii.
From Stdlib Require Import DecimalString Lqa.
From stdpp Require Import base option list.
From stdpp Require Import gmap strings.

Open Scope nat_scope.

#[local] Set Warnings "-register-all".

(* ===================================================================== *)
(** * JavaScript strings                                                  *)
(* ===================================================================== *)

Module JsString.

(** A string is a sequence of 16-bit code units. *)
Definition code_unit := N.
Definition t := list code_unit.

Definition of_ascii (s : string) : t :=
  map N_of_ascii (list_ascii_of_string s).

Definition LF : code_unit := 10%N.
Definition DOT : code_unit := 46%N.

(** [\d] without the unicode flag: the ten ASCII digits. *)
Definition is_digit (c : code_unit) : bool :=
  ((48 <=? c) && (c <=? 57))%N.

(** WhiteSpace and LineTerminator code points of ECMAScript (all of them
    lie in the basic plane, so each is one code unit). *)
Definition is_space (c : code_unit) : bool :=
  ((c =? 9) || (c =? 10) || (c =? 11) || (c =? 12) || (c =? 13)
   || (c =? 32) || (c =? 160) || (c =? 5760)
   || ((8192 <=? c) && (c <=? 8202))
   || (c =? 8232) || (c =? 8233) || (c =? 8239) || (c =? 8287)
   || (c =? 12288) || (c =? 65279))%N.

Fixpoint trimStart (s : t) : t :=
  match s with
  | c :: s' => if is_space c then trimStart s' else s
  | [] => []
  end.

Definition trimEnd (s : t) : t := rev (trimStart (rev s)).

(** [String.prototype.trim]. *)
Definition trim (s : t) : t := trimEnd (trimStart s).

(** ** [split(/\n|\.|\d+\./)]

    [digits_dot s] is the length of the match of [\d*\.] anchored at the
    head of [s]; the greedy [\d+] can only be followed by the period after
    the whole run of digits, so backtracking never finds another match. *)
Fixpoint digits_dot (s : t) : option nat :=
  match s with
  | [] => None
  | c :: s' =>
      if (c =? DOT)%N then Some 1
      else if is_digit c then S <$> digits_dot s'
      else None
  end.

(** Length of the match of [\n|\.|\d+\.] anchored at the head of [s];
    the alternatives are tried from left to right. *)
Definition separator_at (s : t) : option nat :=
  match s with
  | [] => None
  | c :: s' =>
      if (c =? LF)%N then Some 1
      else if (c =? DOT)%N then Some 1
      else if is_digit c then S <$> digits_dot s'
      else None
  end.

(** The loop of [RegExp.prototype[@@split]]: [cur] holds, reversed, the
    code units of the fragment being read (from [p] to [q]); [skip] counts
    the code units of the separator just matched that are still to be
    passed over.  A separator is never empty, so the [e = p] case of the
    loop does not arise, and the pattern has no capture groups. *)
Fixpoint split_loop (skip : nat) (cur : t) (s : t) : list t :=
  match s with
  | [] => [rev cur]
  | c :: s' =>
      match skip with
      | S k => split_loop k cur s'
      | O =>
          match separator_at s with
          | Some (S k) => rev cur :: split_loop k [] s'
          | _ => split_loop 0 (c :: cur) s'
          end
      end
  end.

Definition split (s : t) : list t := split_loop 0 [] s.

(** A string that does not begin with white space. *)
Definition starts_clean (s : t) : Prop :=
  match s with
  | c :: _ => is_space c = false
  | [] => True
  end.

End JsString.

Abbreviation js := JsString.of_ascii.

(* ===================================================================== *)
(** * Instruction processor                                               *)
(* ===================================================================== *)

Module InstructionProcessor.
Import JsString.

Record Instruction := {
  id : nat;
  text : JsString.t;
  completed : bool;
  current : bool
}.

Definition keep (step : JsString.t) : bool := 10 <? length (trim step).

Definition mkStep (index : nat) (step : JsString.t) : Instruction :=
  {| id := index + 1;
     text := trim step;
     completed := false;
     current := index =? 0 |}.

(** [rawInstructions.split(..).filter(..).map(..).slice(0, 8)] *)
Definition processInstructions (rawInstructions : JsString.t)
  : list Instruction :=
  take 8 (imap mkStep (List.filter keep (split rawInstructions))).

(** How many entries are marked current. *)
Definition current_count (steps : list Instruction) : nat :=
  length (List.filter current steps).

(** The text of the scenario: three numbered lines separated by line
    feeds. *)
Definition scenario_text : JsString.t :=
  js "1. Open Chrome" ++ [LF] ++ js "2. Go to gmail.com" ++ [LF]
  ++ js "3. Click Sign In".

End InstructionProcessor.

(* ===================================================================== *)
(** * JavaScript numbers and untyped values                               *)
(* ===================================================================== *)

Module Js.

(** Numbers: the finite values are rationals (every double is one), with
    the two infinities and NaN.  The two zeros are not told apart. *)
Inductive number :=
| NaN
| NegInfinity
| Finite (q : Q)
| PosInfinity.

(** ** Double precision

    The largest [k] with [2^k <= q], for a positive [q]. *)
Definition log2_floor (q : Q) : Z :=
  let k := (Z.log2 (Qnum q) - Z.log2 (Zpos (Qden q)))%Z in
  if Qle_bool (2 ^ k) q then k else (k - 1)%Z.

(** The exponent of the spacing of the doubles around [q]: 53 significant
    bits, and a fixed spacing of [2^-1074] below [2^-1022]. *)
Definition ulp_exponent (q : Q) : Z :=
  Z.max (-1074) (log2_floor (Qabs q) - 52).

(** The nearest integer, the even one of two that are equally near. *)
Definition round_ties_even (q : Q) : Z :=
  let f := Qfloor q in
  match Qcompare (q - inject_Z f) (1 # 2) with
  | Lt => f
  | Gt => (f + 1)%Z
  | Eq => if Z.even f then f else (f + 1)%Z
  end.

(** The Number value for a real [q]: the double nearest to it, the one
    with the even significand of two that are equally near, and an
    infinity from [2^1024] on. *)
Definition number_value (q : Q) : number :=
  if Qeq_bool q 0 then Finite 0
  else
    let e := ulp_exponent q in
    let r := (inject_Z (round_ties_even (q / 2 ^ e)) * 2 ^ e)%Q in
    if Qle_bool (2 ^ 1024) (Qabs r)
    then (if Qle_bool 0 q then PosInfinity else NegInfinity)
    else Finite (Qred r).

(** The rational [q], in lowest terms, is a double. *)
Definition is_Number (q : Q) : Prop := number_value q = Finite (Qred q).

Definition negative (q : Q) : bool := negb (Qle_bool 0 q).

(** The infinity of the given sign. *)
Definition infinity (neg : bool) : number :=
  if neg then NegInfinity else PosInfinity.

(** [a * b]: the exact product rounded to the nearest double. *)
Definition Number_multiply (a b : number) : number :=
  match a, b with
  | NaN, _ | _, NaN => NaN
  | Finite p, Finite q => number_value (p * q)
  | Finite p, PosInfinity | PosInfinity, Finite p =>
      if Qeq_bool p 0 then NaN else infinity (negative p)
  | Finite p, NegInfinity | NegInfinity, Finite p =>
      if Qeq_bool p 0 then NaN else infinity (negb (negative p))
  | PosInfinity, PosInfinity | NegInfinity, NegInfinity => PosInfinity
  | PosInfinity, NegInfinity | NegInfinity, PosInfinity => NegInfinity
  end.

(** [a + b]: the exact sum rounded to the nearest double. *)
Definition Number_add (a b : number) : number :=
  match a, b with
  | NaN, _ | _, NaN => NaN
  | Finite p, Finite q => number_value (p + q)
  | PosInfinity, NegInfinity | NegInfinity, PosInfinity => NaN
  | PosInfinity, _ | _, PosInfinity => PosInfinity
  | NegInfinity, _ | _, NegInfinity => NegInfinity
  end.

(** [Math.floor]. *)
Definition Math_floor (n : number) : number :=
  match n with
  | Finite q => Finite (inject_Z (Qfloor q))
  | _ => n
  end.

(** Values as they exist at run time; [JSON.parse] produces the
    constructors other than [Undefined], a missing property reads as
    [Undefined].  [Obj] lists own properties; the first binding of a key
    is its value. *)
Inductive value :=
| Undefined
| Null
| Bool (b : bool)
| Num (n : number)
| Str (s : JsString.t)
| Arr (items : list value)
| Obj (fields : list (JsString.t * value)).

Inductive error :=
| SyntaxError
| TypeError
| ReferenceError
| Error (message : string).

(** Completion of an evaluation that may throw. *)
Inductive completion (A : Type) :=
| Return (a : A)
| Throw (e : error).
Arguments Return {A} a.
Arguments Throw {A} e.

Definition bind {A B} (c : completion A) (k : A -> completion B)
  : completion B :=
  match c with
  | Return a => k a
  | Throw e => Throw e
  end.

Definition try_catch {A} (c : completion A) (handler : error -> completion A)
  : completion A :=
  match c with
  | Return a => Return a
  | Throw e => handler e
  end.

Fixpoint mapM {A B} (f : A -> completion B) (l : list A)
  : completion (list B) :=
  match l with
  | [] => Return []
  | a :: l' =>
      bind (f a) (fun b => bind (mapM f l') (fun bs => Return (b :: bs)))
  end.

Definition is_zero (q : Q) : bool := Qeq_bool q 0.

(** [ToBoolean]. *)
Definition truthy (v : value) : bool :=
  match v with
  | Undefined | Null => false
  | Bool b => b
  | Num NaN => false
  | Num (Finite q) => negb (is_zero q)
  | Num _ => true
  | Str s => match s with [] => false | _ => true end
  | Arr _ | Obj _ => true
  end.

(** [a || b] *)
Definition or_else (a b : value) : value := if truthy a then a else b.

Fixpoint lookup_field (k : JsString.t) (fields : list (JsString.t * value))
  : value :=
  match fields with
  | [] => Undefined
  | (k', v) :: rest => if decide (k = k') then v else lookup_field k rest
  end.

Definition has_field (k : JsString.t) (fields : list (JsString.t * value))
  : bool :=
  existsb (fun kv => bool_decide (k = kv.1)) fields.

(** [v.k] for the property names read by the service ([status],
    [message], [confidence], [suggestions], [visualCues], [type], [x],
    [y], [width], [height], [text], [color]): none of them is defined on
    the prototypes of strings, numbers, booleans or arrays, so only own
    properties of plain objects answer; reading a property of [null] or
    [undefined] throws. *)
Definition get (v : value) (k : JsString.t) : completion value :=
  match v with
  | Undefined | Null => Throw TypeError
  | Obj fields => Return (lookup_field k fields)
  | _ => Return Undefined
  end.

(** [v === s] for a string literal [s]. *)
Definition is_string (v : value) (s : JsString.t) : bool :=
  match v with Str s' => bool_decide (s' = s) | _ => false end.

Definition isArray (v : value) : bool :=
  match v with Arr _ => true | _ => false end.

(** [Math.min] and [Math.max] on two numbers: NaN is contagious. *)
Definition min (a b : number) : number :=
  match a, b with
  | NaN, _ | _, NaN => NaN
  | NegInfinity, _ | _, NegInfinity => NegInfinity
  | PosInfinity, n | n, PosInfinity => n
  | Finite p, Finite q => if Qle_bool p q then Finite p else Finite q
  end.

Definition max (a b : number) : number :=
  match a, b with
  | NaN, _ | _, NaN => NaN
  | PosInfinity, _ | _, PosInfinity => PosInfinity
  | NegInfinity, n | n, NegInfinity => n
  | Finite p, Finite q => if Qle_bool p q then Finite q else Finite p
  end.

(** [lo <= n <= hi] for a finite [n]; false on NaN and the infinities. *)
Definition within (lo hi : Q) (n : number) : Prop :=
  match n with
  | Finite q => (lo <= q)%Q /\ (q <= hi)%Q
  | _ => False
  end.

(** The built-in conversions that the service relies on and that are not
    part of this code base. *)
Class Builtins := {
  (** [StringToNumber]: the value of a numeric literal, NaN for any other
      text. *)
  StringToNumber : JsString.t -> number;
  (** [Array.prototype.toString] on an array of parsed values; [None]
      when converting an element throws a TypeError. *)
  ArrayToString : list value -> option JsString.t;
  (** [JSON.parse]; [None] when it throws a SyntaxError. *)
  JSON_parse : JsString.t -> option value
}.

Section Conversions.
Context `{Builtins}.

(** [ToNumber].  A plain object converts through
    [Object.prototype.toString], whose result is not a numeric literal,
    unless an own (hence non-callable) [toString] property hides it, in
    which case no conversion method remains and a TypeError is thrown. *)
Definition ToNumber (v : value) : completion number :=
  match v with
  | Undefined => Return NaN
  | Null => Return (Finite 0)
  | Bool b => Return (Finite (if b then 1 else 0))
  | Num n => Return n
  | Str s => Return (StringToNumber s)
  | Arr items =>
      match ArrayToString items with
      | Some s => Return (StringToNumber s)
      | None => Throw TypeError
      end
  | Obj fields =>
      if has_field (js "toString") fields then Throw TypeError
      else Return NaN
  end.

(** [Math.max(lo, Math.min(hi, v || dflt))] *)
Definition clamp (lo hi dflt : Q) (v : value) : completion number :=
  bind (ToNumber (or_else v (Num (Finite dflt)))) (fun n =>
  Return (max (Finite lo) (min (Finite hi) n))).

End Conversions.

End Js.

#[global] Instance completion_ret : MRet Js.completion := @Js.Return.
#[global] Instance completion_bind : MBind Js.completion :=
  fun A B k c => Js.bind c k.

(* ===================================================================== *)
(** * Vision analysis service (services/aiVisionService.ts)               *)
(* ===================================================================== *)

Module AIVisionService.
Import Js.

(** The interface [ScreenAnalysis]; types are erased at run time, so the
    fields filled from a parsed reply hold whatever values it contained.
    A property that the object does not have reads [Undefined]. *)
Record ScreenAnalysis := {
  currentStep : Z;
  confidence : value;
  suggestions : value;
  visualCues : value;
  status : value;
  message : value
}.

(** What awaiting [openai.chat.completions.create] yields: a rejection, or
    a response whose [choices] carry [message.content] (a string or
    null). *)
Inductive Reply :=
| Rejected (e : error)
| Response (choices : list (option JsString.t)).

Definition num (q : Q) : value := Num (Finite q).

(** A decimal literal: the double nearest to its value. *)
Definition literal (q : Q) : value := Num (number_value q).

(** [arr[i]] for an integral [i]: [None] (undefined) outside the array. *)
Definition index {A} (arr : list A) (i : Z) : option A :=
  if (i <? 0)%Z then None else arr !! Z.to_nat i.

(** [arr[n]] for a number [n]: an element only when [n] is an integer. *)
Definition at_number {A} (arr : list A) (n : number) : option A :=
  match n with
  | Finite q =>
      if Qeq_bool q (inject_Z (Qfloor q)) then index arr (Qfloor q) else None
  | _ => None
  end.

(** ** [analyzeWithOpenAI]

    The request carries the screenshot and the current instruction; what
    the endpoint makes of them is its own business, so the reply is an
    input of the model. *)
Section Remote.
Context `{Builtins}.

(** [match(/\{[\s\S]*\}/)]: from the first opening brace to the last
    closing brace after it. *)
Fixpoint from_first (c : N) (s : JsString.t) : option JsString.t :=
  match s with
  | [] => None
  | x :: s' => if (x =? c)%N then Some s else from_first c s'
  end.

Definition match_braces (content : JsString.t) : option JsString.t :=
  s ← from_first 123 content;
  s' ← from_first 125 (rev s);
  Some (rev s').

Definition parse (text : JsString.t) : completion value :=
  match JSON_parse text with
  | Some v => Return v
  | None => Throw SyntaxError
  end.

(** The callback of [result.visualCues.map], lines 159-167. *)
Definition mkCue (cue : value) : completion value :=
  type ← get cue (js "type");
  x0 ← get cue (js "x");
  x ← clamp 0 1920 100 x0;
  y0 ← get cue (js "y");
  y ← clamp 0 1080 100 y0;
  width ← get cue (js "width");
  height ← get cue (js "height");
  text ← get cue (js "text");
  color ← get cue (js "color");
  mret (Obj [ (js "type", or_else type (Str (js "arrow")));
              (js "x", Num x);
              (js "y", Num y);
              (js "width", width);
              (js "height", height);
              (js "text", text);
              (js "color", or_else color (Str (js "#10B981"))) ]).

(** The try block, lines 75-170. *)
Definition request (reply : Reply) (screenImageData : JsString.t)
    (instructions : list JsString.t) (currentStepIndex : Z)
  : completion ScreenAnalysis :=
  let currentInstruction := index instructions currentStepIndex in
  choices ← match reply with
            | Rejected e => Throw e
            | Response choices => Return choices
            end;
  content ← match choices with
            | [] => Throw TypeError
            | c :: _ => Return c
            end;
  match content with
  | None | Some [] => Throw (Error "No response content from OpenAI")
  | Some content =>
      result ← parse content;
      status ← get result (js "status");
      message ← get result (js "message");
      if negb (truthy status) || negb (truthy message)
      then Throw (Error "Invalid response structure from OpenAI")
      else
        confidence0 ← get result (js "confidence");
        confidence ← clamp 0 1 (1 # 2) confidence0;
        suggestions ← get result (js "suggestions");
        visualCues0 ← get result (js "visualCues");
        visualCues ← match visualCues0 with
                     | Arr cues => mapM mkCue cues
                     | _ => Return []
                     end;
        mret {| currentStep := currentStepIndex;
                confidence := Num confidence;
                suggestions := if isArray suggestions then suggestions
                               else Arr [];
                visualCues := Arr visualCues;
                status := status;
                message := message |}
  end.

(** The catch block, lines 171-197.  [response] is what the identifier
    [response] resolves to where the handler runs: [None] when it has no
    binding, and then evaluating it throws a ReferenceError. *)
Definition recover (response : option (list (option JsString.t)))
    (error : Js.error) (currentStepIndex : Z)
  : completion ScreenAnalysis :=
  match error with
  | SyntaxError =>
      match response with
      | None => Throw ReferenceError
      | Some (Some (c :: cs) :: _) =>
          let content := c :: cs in
          let extraction :=
            match match_braces content with
            | Some jsonMatch =>
                result ← parse jsonMatch;
                confidence ← get result (js "confidence");
                suggestions ← get result (js "suggestions");
                visualCues ← get result (js "visualCues");
                status ← get result (js "status");
                message ← get result (js "message");
                mret {| currentStep := currentStepIndex;
                        confidence := or_else confidence (num (1 # 2));
                        suggestions := or_else suggestions (Arr []);
                        visualCues := or_else visualCues (Arr []);
                        status := or_else status (Str (js "error"));
                        message :=
                          or_else message
                            (Str (js "Analysis completed with parsing issues"))
                     |}
            | None => Throw error
            end in
          try_catch extraction (fun parseError => Throw error)
      | Some _ => Throw error
      end
  | _ => Throw error
  end.

(** [const response] is declared inside the try block (line 77); the
    catch block of line 171 is outside its scope and no enclosing scope
    binds the name. *)
Definition response_in_handler : option (list (option JsString.t)) := None.

Definition analyzeWithOpenAI (reply : Reply) (screenImageData : JsString.t)
    (instructions : list JsString.t) (currentStepIndex : Z)
  : completion ScreenAnalysis :=
  try_catch (request reply screenImageData instructions currentStepIndex)
            (fun error => recover response_in_handler error currentStepIndex).

End Remote.

(** ** [simulateAIAnalysis]

    [random k] is the value of the [k]-th call of [Math.random] made by
    the invocation.  The array literal is evaluated first (six draws, in
    source order), then the index is drawn.  Products and sums are those
    of doubles: each is rounded. *)

(** [Math.random() * a + b] for a draw [r]. *)
Definition scaled (r a b : Q) : value :=
  Num (Number_add (Number_multiply (Finite r) (Finite a)) (Finite b)).

Record Scenario := {
  s_status : value;
  s_confidence : value;
  s_message : value;
  s_suggestions : value;
  s_visualCues : value
}.

Definition scenarios (random : nat -> Q) : list Scenario :=
  [ {| s_status := Str (js "on_track");
       s_confidence := literal (85 # 100);
       s_message :=
         Str (js "Perfect! You're following the instructions correctly.");
       s_suggestions :=
         Arr [Str (js "Continue with the current step");
              Str (js "You're doing great!")];
       s_visualCues :=
         Arr [Obj [ (js "type", Str (js "arrow"));
                    (js "x", scaled (random 0) 800 100);
                    (js "y", scaled (random 1) 600 100);
                    (js "text", Str (js "Click here next"));
                    (js "color", Str (js "#10B981")) ]] |};
    {| s_status := Str (js "off_track");
       s_confidence := literal (65 # 100);
       s_message :=
         Str (js "It looks like you might be on the wrong page or element.");
       s_suggestions :=
         Arr [Str (js "Try looking for the element mentioned in the instruction");
              Str (js "Make sure you're on the correct page");
              Str (js "Check if any popups or dialogs are blocking the view")];
       s_visualCues :=
         Arr [Obj [ (js "type", Str (js "highlight"));
                    (js "x", scaled (random 2) 600 200);
                    (js "y", scaled (random 3) 400 150);
                    (js "width", num 200);
                    (js "height", num 50);
                    (js "text", Str (js "Look for this area"));
                    (js "color", Str (js "#F59E0B")) ]] |};
    {| s_status := Str (js "completed");
       s_confidence := literal (95 # 100);
       s_message := Str (js "Excellent! This step appears to be completed.");
       s_suggestions := Arr [Str (js "Ready to move to the next step")];
       s_visualCues :=
         Arr [Obj [ (js "type", Str (js "circle"));
                    (js "x", scaled (random 4) 700 150);
                    (js "y", scaled (random 5) 500 100);
                    (js "text", Str (10003%N :: js " Completed"));
                    (js "color", Str (js "#10B981")) ]] |} ].

(** [{ currentStep: currentStepIndex, ...scenario }]; spreading
    [undefined] adds no property. *)
Definition simulateAIAnalysis (random : nat -> Q)
    (screenImageData : JsString.t) (instructions : list JsString.t)
    (currentStepIndex : Z) : ScreenAnalysis :=
  let currentInstruction := index instructions currentStepIndex in
  let all := scenarios random in
  let i := Math_floor (Number_multiply (Finite (random 6))
                         (Finite (inject_Z (Z.of_nat (length all))))) in
  match at_number all i with
  | Some scenario =>
      {| currentStep := currentStepIndex;
         confidence := s_confidence scenario;
         suggestions := s_suggestions scenario;
         visualCues := s_visualCues scenario;
         status := s_status scenario;
         message := s_message scenario |}
  | None =>
      {| currentStep := currentStepIndex;
         confidence := Undefined;
         suggestions := Undefined;
         visualCues := Undefined;
         status := Undefined;
         message := Undefined |}
  end.

(** ** [analyzeScreen]

    What one call meets while it is suspended: the configured key, the
    reply of the remote endpoint and the random draws. *)
Record Env := {
  apiKey : option JsString.t;
  reply : Reply;
  random : nat -> Q
}.

(** [!KEY || KEY === 'demo-key'] *)
Definition no_valid_key (key : option JsString.t) : bool :=
  match key with
  | None => true
  | Some k => negb (truthy (Str k)) || bool_decide (k = js "demo-key")
  end.

Record Service := {
  isAnalyzing : bool;
  analysisInterval : option positive
}.

Definition initial : Service :=
  {| isAnalyzing := false; analysisInterval := None |}.

Definition set_isAnalyzing (b : bool) (s : Service) : Service :=
  {| isAnalyzing := b; analysisInterval := analysisInterval s |}.

Definition set_analysisInterval (t : option positive) (s : Service)
  : Service :=
  {| isAnalyzing := isAnalyzing s; analysisInterval := t |}.

Definition isAnalysisRunning (s : Service) : bool := isAnalyzing s.

(** Lines 37-41, run synchronously when the function is called: the
    guard, then the flag. *)
Definition analyzeScreen_enter (s : Service) : completion Service :=
  if isAnalyzing s then Throw (Error "Analysis already in progress")
  else Return (set_isAnalyzing true s).

Section Body.
Context `{Builtins}.

(** The try and catch blocks, lines 43-63. *)
Definition analyzeScreen_body (env : Env) (screenImageData : JsString.t)
    (instructions : list JsString.t) (currentStepIndex : Z)
  : completion ScreenAnalysis :=
  try_catch
    (if no_valid_key (apiKey env)
     then Return (simulateAIAnalysis (random env)
                    screenImageData instructions currentStepIndex)
     else analyzeWithOpenAI (reply env)
            screenImageData instructions currentStepIndex)
    (fun error =>
       Return (simulateAIAnalysis (random env)
                 screenImageData instructions currentStepIndex)).

(** The rest of a call that passed the guard: its outcome, and the
    finally block (line 65) applied to the state found at that time. *)
Definition analyzeScreen_settle (env : Env) (screenImageData : JsString.t)
    (instructions : list JsString.t) (currentStepIndex : Z) (s : Service)
  : Service * completion ScreenAnalysis :=
  (set_isAnalyzing false s,
   analyzeScreen_body env screenImageData instructions currentStepIndex).

(** A call that nothing interleaves with: lines 32-67 as a whole. *)
Definition analyzeScreen (env : Env) (screenImageData : JsString.t)
    (instructions : list JsString.t) (currentStepIndex : Z) (s : Service)
  : Service * completion ScreenAnalysis :=
  match analyzeScreen_enter s with
  | Throw e => (s, Throw e)
  | Return s' =>
      analyzeScreen_settle env screenImageData instructions currentStepIndex s'
  end.

End Body.

(** A cue whose coordinates are numbers of the screen rectangle, or NaN. *)
Definition cue_clamped_or_NaN (cue : value) : Prop :=
  exists x y,
    get cue (js "x") = Return (Num x) /\ get cue (js "y") = Return (Num y)
    /\ (x = NaN \/ within 0 1920 x) /\ (y = NaN \/ within 0 1080 y).

(** A parsed reply of the requested shape in which the model wrote the
    confidence and the coordinates of its cue as words. *)
Definition reply_in_words : value :=
  Obj [ (js "status", Str (js "on_track"));
        (js "message", Str (js "ok"));
        (js "confidence", Str (js "high"));
        (js "visualCues",
         Arr [Obj [ (js "x", Str (js "left")); (js "y", Str (js "top")) ]]) ].

(** Built-ins restricted to the inputs of one exchange: the reply parses to
    [reply_in_words], and none of the texts met is a numeric literal. *)
Definition words_only : Builtins :=
  {| StringToNumber := fun _ => NaN;
     ArrayToString := fun _ => None;
     JSON_parse := fun _ => Some reply_in_words |}.

End AIVisionService.

(* ===================================================================== *)
(** * The service in the event loop                                       *)
(* ===================================================================== *)

(** Calls of [analyzeScreen] are asynchronous: a call that passes the guard
    stays suspended on its awaits while other events run, and settles
    later.  Polling timers are the handles returned by [setInterval] and not
    yet cleared.  The callback of a timer is asynchronous too: once fired
    it waits for [getScreenData], and goes on when that answers, whatever
    happened to the timer in between. *)
Module EventLoop.
Import Js AIVisionService.

Record Args := {
  screenImageData : JsString.t;
  instructions : list JsString.t;
  currentStepIndex : Z
}.

Section World.
Context `{Builtins} {Callbacks : Type}.

(** Arguments of [startContinuousAnalysis]: the four closures and the
    period. *)
Record Poll := {
  callbacks : Callbacks;
  intervalMs : Z
}.

Record World := {
  service : Service;
  (** calls that passed the guard and have not settled yet *)
  inflight : list Args;
  (** active intervals, with what they were created for *)
  intervals : list (positive * Poll);
  (** the next handle [setInterval] returns; handles are positive
      integers, hence truthy *)
  next_handle : positive;
  (** interval callbacks that have fired and wait for [getScreenData]
      (line 285), each with the handle of the interval that fired it *)
  awaiting : list positive
}.

Definition boot : World :=
  {| service := initial; inflight := []; intervals := [];
     next_handle := 1%positive; awaiting := [] |}.

Definition with_service (s : Service) (w : World) : World :=
  {| service := s; inflight := inflight w; intervals := intervals w;
     next_handle := next_handle w; awaiting := awaiting w |}.

Definition setInterval (p : Poll) (w : World) : positive * World :=
  (next_handle w,
   {| service := service w; inflight := inflight w;
      intervals := intervals w ++ [(next_handle w, p)];
      next_handle := Pos.succ (next_handle w);
      awaiting := awaiting w |}).

Definition clearInterval (h : positive) (w : World) : World :=
  {| service := service w; inflight := inflight w;
     intervals := List.filter (fun t => negb (Pos.eqb t.1 h)) (intervals w);
     next_handle := next_handle w; awaiting := awaiting w |}.

(** Lines 299-304. *)
Definition stopContinuousAnalysis (w : World) : World :=
  match analysisInterval (service w) with
  | Some h =>
      let w' := clearInterval h w in
      with_service (set_analysisInterval None (service w')) w'
  | None => w
  end.

(** Lines 274-297. *)
Definition startContinuousAnalysis (p : Poll) (w : World) : World :=
  let w1 := stopContinuousAnalysis w in
  let '(h, w2) := setInterval p w1 in
  with_service (set_analysisInterval (Some h) (service w2)) w2.

(** [analyzeScreen(...)] is called. *)
Definition call (a : Args) (w : World) : completion World :=
  s ← analyzeScreen_enter (service w);
  mret {| service := s; inflight := inflight w ++ [a];
          intervals := intervals w; next_handle := next_handle w;
          awaiting := awaiting w |}.

(** The [k]-th suspended call resumes in environment [env] and runs to
    its end. *)
Definition settle (k : nat) (env : Env) (w : World)
  : option (World * completion ScreenAnalysis) :=
  a ← inflight w !! k;
  let '(s, r) :=
    analyzeScreen_settle env (screenImageData a) (instructions a)
      (currentStepIndex a) (service w) in
  Some ({| service := s; inflight := delete k (inflight w);
           intervals := intervals w; next_handle := next_handle w;
           awaiting := awaiting w |}, r).

(** The test of line 289 on what the callback holds once [getScreenData]
    has answered and [getInstructions] and [getCurrentStep] were read. *)
Definition should_analyze (a : Args) : bool :=
  truthy (Str (screenImageData a)) && (0 <? length (instructions a)).

(** An interval is active. *)
Definition registered (h : positive) (w : World) : bool :=
  existsb (fun t => Pos.eqb t.1 h) (intervals w).

(** The interval [h] fires: its callback starts and waits for
    [getScreenData] (line 285).  A cleared interval does not fire. *)
Definition fire (h : positive) (w : World) : World :=
  if registered h w
  then {| service := service w; inflight := inflight w;
          intervals := intervals w; next_handle := next_handle w;
          awaiting := awaiting w ++ [h] |}
  else w.

(** The [k]-th waiting callback leaves the list. *)
Definition resume (k : nat) (w : World) : World :=
  {| service := service w; inflight := inflight w;
     intervals := intervals w; next_handle := next_handle w;
     awaiting := delete k (awaiting w) |}.

(** - [Fire h]: the interval [h] fires.
    - [ScreenData k a]: [getScreenData] answers the [k]-th waiting
      callback, which goes on with lines 286-292 on the arguments [a];
      nothing there looks at the timer again.
    - [ScreenDataRejected k e]: [getScreenData] rejects, the catch of line
      293 logs the error.
    - [Tick h a]: the interval fires and [getScreenData] answers before
      any other event, as the closure that the panel passes does; it is
      [Fire h] followed at once by [ScreenData] for that callback. *)
Inductive event :=
| Call (a : Args)
| Settle (k : nat) (env : Env)
| Start (p : Poll)
| Stop
| Tick (h : positive) (a : Args)
| Fire (h : positive)
| ScreenData (k : nat) (a : Args)
| ScreenDataRejected (k : nat) (e : error).

Inductive outcome :=
| Rejects (e : error)
| Pending
| Settles (r : completion ScreenAnalysis)
| Logged (e : error)
| Nothing.

Definition step (w : World) (ev : event) : World * outcome :=
  match ev with
  | Call a =>
      match call a w with
      | Return w' => (w', Pending)
      | Throw e => (w, Rejects e)
      end
  | Settle k env =>
      match settle k env w with
      | Some (w', r) => (w', Settles r)
      | None => (w, Nothing)
      end
  | Start p => (startContinuousAnalysis p w, Nothing)
  | Stop => (stopContinuousAnalysis w, Nothing)
  | Tick h a =>
      if existsb (fun t => Pos.eqb t.1 h) (intervals w) && should_analyze a
      then match call a w with
           | Return w' => (w', Pending)
           | Throw e => (w, Logged e)
           end
      else (w, Nothing)
  | Fire h => (fire h w, Nothing)
  | ScreenData k a =>
      match awaiting w !! k with
      | Some _ =>
          if should_analyze a
          then match call a (resume k w) with
               | Return w' => (w', Pending)
               | Throw e => (resume k w, Logged e)
               end
          else (resume k w, Nothing)
      | None => (w, Nothing)
      end
  | ScreenDataRejected k e =>
      match awaiting w !! k with
      | Some _ => (resume k w, Logged e)
      | None => (w, Nothing)
      end
  end.

Definition run (w : World) (evs : list event) : World :=
  foldl (fun w ev => (step w ev).1) w evs.

Definition reachable (w : World) : Prop := exists evs, w = run boot evs.

(** The flag is set exactly while one call is suspended. *)
Definition guard_inv (w : World) : Prop :=
  (isAnalyzing (service w) = true /\ exists a, inflight w = [a])
  \/ (isAnalyzing (service w) = false /\ inflight w = []).

(** The only active interval is the one recorded in [analysisInterval]. *)
Definition timer_inv (w : World) : Prop :=
  match analysisInterval (service w) with
  | Some h => exists p, intervals w = [(h, p)]
  | None => intervals w = []
  end.

End World.

Arguments Poll : clear implicits.
Arguments World : clear implicits.
Arguments event : clear implicits.

(** A world in which one call is suspended and polling was started, with
    closures that need no description. *)
Definition sample_args : Args :=
  {| screenImageData := js "data:image/png;base64,AAAA";
     instructions := [js "Open Chrome"; js "Go to gmail"];
     currentStepIndex := 0 |}.

Definition sample_poll : Poll unit := {| callbacks := tt; intervalMs := 8000 |}.

Definition busy_world : World unit :=
  run (H := words_only) boot [Start sample_poll; Call sample_args].

(** A world in which the polling interval has fired and its callback
    waits for the screen data. *)
Definition fired_world : World unit :=
  run (H := words_only) boot [Start sample_poll; Fire 1%positive].

End EventLoop.

(* ===================================================================== *)
(** * Floating guide popup (components/AIGuidePopup.tsx)                  *)
(* ===================================================================== *)

Module AIGuidePopup.
Import Js.

Record GuideStep := {
  id : Z;
  title : string;
  description : string;
  completed : bool
}.

Inductive Status := active | paused | completed_ | dismissed.

#[global] Instance Status_eq_dec : EqDecision Status.
Proof. solve_decision. Defined.

Record Position := { x : Q; y : Q }.

Record GuideState := {
  isVisible : bool;
  currentStep : nat;
  isMinimized : bool;
  isPlaying : bool;
  position : Position;
  completedSteps : list Z;
  status : Status
}.

Record Props := {
  steps : list GuideStep;
  autoStart : bool;
  initialPosition : Position
}.

Definition defaultSteps : list GuideStep :=
  [ {| id := 1; title := "Welcome to AI Guide";
       description := "This popup will guide you through tasks step by step. You can drag it around and it will persist across page reloads.";
       completed := false |};
    {| id := 2; title := "Navigation Controls";
       description := "Use the Previous/Next buttons to navigate between steps, or click the step numbers at the bottom.";
       completed := false |};
    {| id := 3; title := "Auto-Play Feature";
       description := "Click the Play button to automatically advance through steps every 10 seconds.";
       completed := false |};
    {| id := 4; title := "Minimize & Maximize";
       description := "Click the minimize button to collapse the popup while keeping it accessible.";
       completed := false |};
    {| id := 5; title := "Persistent State";
       description := "Your progress is automatically saved. Refresh the page and this popup will remember where you left off.";
       completed := false |};
    {| id := 6; title := "Complete Steps";
       description := "Mark steps as complete using the Complete button. Completed steps are saved automatically.";
       completed := false |};
    {| id := 7; title := "Drag to Reposition";
       description := "Grab the header area to drag this popup to any position on your screen.";
       completed := false |};
    {| id := 8; title := "Finish Guide";
       description := "When you're done, click the Done button to permanently dismiss this guide.";
       completed := false |} ].

Definition defaultProps : Props :=
  {| steps := defaultSteps; autoStart := true;
     initialPosition := {| x := 20; y := 100 |} |}.

(** What local storage holds under [STORAGE_KEY]: the component only
    writes [JSON.stringify(guideState)] there, which parses back to the
    same state; [Unparsable] stands for a text on which [JSON.parse]
    throws. *)
Inductive saved :=
| Stringified (g : GuideState)
| Unparsable (text : JsString.t).

Record Storage := {
  aiGuideState : option saved;          (* STORAGE_KEY *)
  aiGuideStatus : option JsString.t     (* STATUS_KEY *)
}.

Definition emptyStorage : Storage :=
  {| aiGuideState := None; aiGuideStatus := None |}.

(** The [useState] initializer, lines 109-148. *)
Definition initialState (props : Props) (storage : Storage) : GuideState :=
  if bool_decide (aiGuideStatus storage = Some (js "done")) then
    {| isVisible := false; currentStep := 0; isMinimized := false;
       isPlaying := false; position := initialPosition props;
       completedSteps := []; status := dismissed |}
  else
    match aiGuideState storage with
    | Some (Stringified parsed) =>
        {| isVisible := true;
           currentStep := currentStep parsed;
           isMinimized := isMinimized parsed;
           isPlaying := false;
           position := position parsed;
           completedSteps := completedSteps parsed;
           status := status parsed |}
    | _ =>
        {| isVisible := autoStart props; currentStep := 0;
           isMinimized := false; isPlaying := false;
           position := initialPosition props;
           completedSteps := []; status := active |}
    end.

(** The render guard, lines 299-301: [true] when the popup is drawn. *)
Definition renders (g : GuideState) (portalContainer : bool) : bool :=
  negb (negb (isVisible g) || bool_decide (status g = dismissed)
        || negb portalContainer).

Definition set_nav (i : nat) (g : GuideState) : GuideState :=
  {| isVisible := isVisible g; currentStep := i;
     isMinimized := isMinimized g; isPlaying := false;
     position := position g; completedSteps := completedSteps g;
     status := status g |}.

Definition set_isPlaying (b : bool) (g : GuideState) : GuideState :=
  {| isVisible := isVisible g; currentStep := currentStep g;
     isMinimized := isMinimized g; isPlaying := b;
     position := position g; completedSteps := completedSteps g;
     status := status g |}.

(** [i < steps.length - 1] *)
Definition before_last (i : nat) (steps : list GuideStep) : bool :=
  (Z.of_nat i <? Z.of_nat (length steps) - 1)%Z.

Definition handlePrevious (g : GuideState) : GuideState :=
  if 0 <? currentStep g then set_nav (currentStep g - 1) g else g.

Definition handleNext (props : Props) (g : GuideState) : GuideState :=
  if before_last (currentStep g) (steps props)
  then set_nav (currentStep g + 1) g else g.

Definition handleStepClick (stepIndex : nat) (g : GuideState) : GuideState :=
  set_nav stepIndex g.

(** [prev.completedSteps.includes(stepId)] *)
Definition includes (l : list Z) (stepId : Z) : bool :=
  existsb (Z.eqb stepId) l.

(** Lines 244-252; [currentStep.id] throws when the index designates no
    step. *)
Definition handleComplete (props : Props) (g : GuideState)
  : completion GuideState :=
  match steps props !! currentStep g with
  | None => Throw TypeError
  | Some currentStep_ =>
      let stepId := id currentStep_ in
      Return
        {| isVisible := isVisible g; currentStep := currentStep g;
           isMinimized := isMinimized g; isPlaying := isPlaying g;
           position := position g;
           completedSteps :=
             if includes (completedSteps g) stepId then completedSteps g
             else completedSteps g ++ [stepId];
           status := status g |}
  end.

Definition handlePlayPause (g : GuideState) : GuideState :=
  set_isPlaying (negb (isPlaying g)) g.

Definition handleMinimize (g : GuideState) : GuideState :=
  {| isVisible := isVisible g; currentStep := currentStep g;
     isMinimized := negb (isMinimized g); isPlaying := false;
     position := position g; completedSteps := completedSteps g;
     status := status g |}.

Definition handleRestart (g : GuideState) : GuideState :=
  {| isVisible := isVisible g; currentStep := 0;
     isMinimized := isMinimized g; isPlaying := false;
     position := position g; completedSteps := [];
     status := active |}.

Definition handleDragStop (data : Position) (g : GuideState) : GuideState :=
  {| isVisible := isVisible g; currentStep := currentStep g;
     isMinimized := isMinimized g; isPlaying := isPlaying g;
     position := data; completedSteps := completedSteps g;
     status := status g |}.

(** The state part of [handleDone]. *)
Definition dismiss (g : GuideState) : GuideState :=
  {| isVisible := false; currentStep := currentStep g;
     isMinimized := isMinimized g; isPlaying := isPlaying g;
     position := position g; completedSteps := completedSteps g;
     status := dismissed |}.

(** The interval callback of the auto-play effect, lines 186-192. *)
Definition autoAdvance (props : Props) (g : GuideState) : GuideState :=
  if before_last (currentStep g) (steps props)
  then {| isVisible := isVisible g; currentStep := currentStep g + 1;
          isMinimized := isMinimized g; isPlaying := isPlaying g;
          position := position g; completedSteps := completedSteps g;
          status := status g |}
  else set_isPlaying false g.

(** The auto-play interval exists under this condition (line 184). *)
Definition autoPlaying (g : GuideState) : bool :=
  isPlaying g && isVisible g && negb (isMinimized g).

(** ** The mounted component together with local storage *)
Record Page := {
  storage : Storage;
  props : Props;
  guideState : GuideState
}.

(** The persistence effect, lines 176-180. *)
Definition persist (storage : Storage) (g : GuideState) : Storage :=
  if bool_decide (status g = dismissed) then storage
  else {| aiGuideState := Some (Stringified g);
          aiGuideStatus := aiGuideStatus storage |}.

(** The mount: the initializer and the persistence effect of the first
    commit.  The drawing that follows is [GuideRuns.draw]. *)
Definition mount (props : Props) (storage : Storage) : Page :=
  let g := initialState props storage in
  {| storage := persist storage g; props := props; guideState := g |}.

(** The popup's own events and the reload of its page.  The removal of
    the keys by the demo page is [GuideRuns.removeGuideKeys]. *)
Inductive event :=
| Reload (props : Props)
| Previous
| Next
| StepClick (stepIndex : nat)
| Complete
| PlayPause
| Minimize
| Restart
| Done
| DragStop (data : Position)
| AutoPlayTick.

Definition update (g : GuideState) (p : Page) : Page :=
  {| storage := persist (storage p) g; props := props p; guideState := g |}.

(** Buttons exist only while the popup is drawn; the auto-play tick only
    while its interval does. *)
Definition step (p : Page) (ev : event) : Page :=
  let g := guideState p in
  match ev with
  | Reload props' => mount props' (storage p)
  | AutoPlayTick =>
      if autoPlaying g then update (autoAdvance (props p) g) p else p
  | _ =>
      if renders g true then
        match ev with
        | Previous => update (handlePrevious g) p
        | Next => update (handleNext (props p) g) p
        | StepClick i => update (handleStepClick i g) p
        | Complete =>
            match handleComplete (props p) g with
            | Return g' => update g' p
            | Throw _ => p
            end
        | PlayPause => update (handlePlayPause g) p
        | Minimize => update (handleMinimize g) p
        | Restart => update (handleRestart g) p
        | Done =>
            {| storage := {| aiGuideState := None;
                             aiGuideStatus := Some (js "done") |};
               props := props p;
               guideState := dismiss g |}
        | DragStop data => update (handleDragStop data g) p
        | _ => p
        end
      else p
  end.

Definition run (p : Page) (evs : list event) : Page := foldl step p evs.

(** First visit: nothing stored yet. *)
Definition reachable (p : Page) : Prop :=
  exists props evs, p = run (mount props emptyStorage) evs.

(** What stays true of every page: the completed list has no repetition,
    in the state and in its stored copy; and unless the guide was dismissed,
    storage holds the current state and no dismissal mark. *)
Definition stored_ok (st : Storage) : Prop :=
  match aiGuideState st with
  | Some (Stringified g) => NoDup (completedSteps g) /\ status g <> dismissed
  | _ => True
  end.

Definition page_inv (p : Page) : Prop :=
  let g := guideState p in
  NoDup (completedSteps g)
  /\ stored_ok (storage p)
  /\ ((status g = dismissed /\ isVisible g = false)
      \/ (status g <> dismissed
          /\ aiGuideState (storage p) = Some (Stringified g)
          /\ aiGuideStatus (storage p) <> Some (js "done"))).

(** The events that are neither a restart nor a reload of the page. *)
Definition keeps_progress (ev : event) : Prop :=
  match ev with
  | Restart | Reload _ => False
  | _ => True
  end.

End AIGuidePopup.

(** Unfolds a handler of the popup and decides its guards. *)
Ltac handler :=
  unfold AIGuidePopup.handlePrevious, AIGuidePopup.handleNext,
    AIGuidePopup.handleStepClick, AIGuidePopup.handlePlayPause,
    AIGuidePopup.handleMinimize, AIGuidePopup.handleRestart,
    AIGuidePopup.handleDragStop, AIGuidePopup.autoAdvance,
    AIGuidePopup.dismiss, AIGuidePopup.set_nav, AIGuidePopup.set_isPlaying;
  repeat match goal with
         | |- context [if ?b then _ else _] => destruct b
         end;
  simpl; try done.

(* ===================================================================== *)
(** * Task viewer (components/TaskViewer.tsx)                             *)
(* ===================================================================== *)

Module TaskViewer.
Import Js.

Inductive StepType := action | info | warning.

(** [Step] of contexts/TaskContext.tsx. *)
Record Step := {
  id : Z;
  title : JsString.t;
  description : JsString.t;
  completed : bool;
  type : StepType
}.

(** [steps] are the step objects of [currentTask]: the array copy made by
    [handleStepComplete] is shallow, so its assignment lands in them.
    [timeouts] are the pending auto-advance timers, each with the index
    its closure will set. *)
Record State := {
  steps : list Step;
  currentStep : nat;
  timeouts : list nat
}.

Definition before_last (i : nat) (steps : list Step) : bool :=
  (Z.of_nat i <? Z.of_nat (length steps) - 1)%Z.

Definition set_currentStep (i : nat) (st : State) : State :=
  {| steps := steps st; currentStep := i; timeouts := timeouts st |}.

Definition handleNextStep (st : State) : State :=
  if before_last (currentStep st) (steps st)
  then set_currentStep (currentStep st + 1) st else st.

Definition handlePreviousStep (st : State) : State :=
  if 0 <? currentStep st then set_currentStep (currentStep st - 1) st else st.

Definition mark_completed (s : Step) : Step :=
  {| id := id s; title := title s; description := description s;
     completed := true; type := type s |}.

(** Lines 43-53; the assignment throws when the index designates no
    step. *)
Definition handleStepComplete (st : State) : completion State :=
  match steps st !! currentStep st with
  | None => Throw TypeError
  | Some s =>
      Return
        {| steps := <[currentStep st := mark_completed s]> (steps st);
           currentStep := currentStep st;
           timeouts :=
             if before_last (currentStep st) (steps st)
             then timeouts st ++ [currentStep st + 1]
             else timeouts st |}
  end.

Inductive event :=
| NextStep
| PreviousStep
| StepComplete
| Timeout (k : nat).

Definition step (st : State) (ev : event) : State :=
  match ev with
  | NextStep => handleNextStep st
  | PreviousStep => handlePreviousStep st
  | StepComplete =>
      match handleStepComplete st with
      | Return st' => st'
      | Throw _ => st
      end
  | Timeout k =>
      match timeouts st !! k with
      | Some target =>
          {| steps := steps st; currentStep := target;
             timeouts := delete k (timeouts st) |}
      | None => st
      end
  end.

Definition run (st : State) (evs : list event) : State := foldl step st evs.

(** Step [stepId] carries the completed mark. *)
Definition is_completed (stepId : Z) (st : State) : Prop :=
  exists s, s ∈ steps st /\ id s = stepId /\ completed s = true.

End TaskViewer.

(* ===================================================================== *)
(** * Guidance orchestrator (components/TaskInputPanel.tsx)               *)
(* ===================================================================== *)

Module TaskInputPanel.
Import Js.
Export InstructionProcessor.

(** A pending [setTimeout] callback with the values its closure captured
    from the render that scheduled it: the step index and the number of
    instructions, and for the automatic completion the id read from
    [processedInstructions[currentStep]] ([None] when there is no such
    entry and reading [.id] throws). *)
Inductive timeout :=
| AdvanceFrom (captured_step captured_length : nat)
| CompleteStep (stepId : option nat) (captured_step captured_length : nat).

Record State := {
  processedInstructions : list Instruction;
  currentStep : nat;
  timeouts : list timeout
}.

Definition before_last (i n : nat) : bool :=
  (Z.of_nat i <? Z.of_nat n - 1)%Z.

Definition set_current (b : bool) (inst : Instruction) : Instruction :=
  {| id := id inst; text := text inst; completed := completed inst;
     current := b |}.

Definition complete (inst : Instruction) : Instruction :=
  {| id := id inst; text := text inst; completed := true; current := false |}.

(** Lines 140-155, in the closure of a render with step [c] and [n]
    instructions. *)
Definition handleStepComplete (c n : nat) (stepId : nat) (st : State)
  : State :=
  {| processedInstructions :=
       map (fun inst => if id inst =? stepId then complete inst else inst)
           (processedInstructions st);
     currentStep := currentStep st;
     timeouts :=
       if before_last c n then timeouts st ++ [AdvanceFrom c n]
       else timeouts st |}.

(** Lines 157-168. *)
Definition handleNextStep (c n : nat) (st : State) : State :=
  if before_last c n then
    let nextStep := c + 1 in
    {| processedInstructions :=
         imap (fun index inst => set_current (index =? nextStep) inst)
              (processedInstructions st);
       currentStep := nextStep;
       timeouts := timeouts st |}
  else st.

(** Lines 170-181. *)
Definition handlePreviousStep (c : nat) (st : State) : State :=
  if 0 <? c then
    let prevStep := c - 1 in
    {| processedInstructions :=
         imap (fun index inst => set_current (index =? prevStep) inst)
              (processedInstructions st);
       currentStep := prevStep;
       timeouts := timeouts st |}
  else st.

(** Lines 208-213 of [handleScreenCapture]: the vision service reported
    [status]. *)
Definition onAnalysis (status : value) (st : State) : State :=
  let entry := processedInstructions st !! currentStep st in
  let already := match entry with Some inst => completed inst | None => false end in
  if is_string status (js "completed") && negb already then
    {| processedInstructions := processedInstructions st;
       currentStep := currentStep st;
       timeouts :=
         timeouts st ++
           [CompleteStep (id <$> entry) (currentStep st)
              (length (processedInstructions st))] |}
  else st.

Definition fire (t : timeout) (st : State) : State :=
  match t with
  | AdvanceFrom c n => handleNextStep c n st
  | CompleteStep (Some stepId) c n => handleStepComplete c n stepId st
  | CompleteStep None _ _ => st
  end.

(** The events of one guidance session; submissions, reports of the
    processor and returns to the input are [Orchestrator.action]. *)
Inductive event :=
| StepComplete (stepId : nat)
| NextStep
| PreviousStep
| Analysis (status : value)
| Timeout (k : nat).

Definition step (st : State) (ev : event) : State :=
  let c := currentStep st in
  let n := length (processedInstructions st) in
  match ev with
  | StepComplete stepId => handleStepComplete c n stepId st
  | NextStep => handleNextStep c n st
  | PreviousStep => handlePreviousStep c st
  | Analysis status => onAnalysis status st
  | Timeout k =>
      match timeouts st !! k with
      | Some t =>
          fire t {| processedInstructions := processedInstructions st;
                    currentStep := currentStep st;
                    timeouts := delete k (timeouts st) |}
      | None => st
      end
  end.

Definition run (st : State) (evs : list event) : State := foldl step st evs.

Definition is_completed (stepId : nat) (st : State) : Prop :=
  exists inst, inst ∈ processedInstructions st /\ id inst = stepId
               /\ completed inst = true.

End TaskInputPanel.


(* ===================================================================== *)
(** * Fragments of a split text                                           *)
(* ===================================================================== *)

Module Fragments.
Import JsString InstructionProcessor.

(** A code unit that no separator can contain or start with. *)
Definition plain (c : code_unit) : Prop :=
  c <> LF /\ c <> DOT /\ is_digit c = false.

(** The first fragment with [pre] put before it. *)
Definition extend_first (pre : JsString.t) (frags : list JsString.t)
  : list JsString.t :=
  match frags with
  | f :: fs => (pre ++ f) :: fs
  | [] => []
  end.

(** The last fragment with [c] put after it. *)
Fixpoint extend_last (c : code_unit) (frags : list JsString.t)
  : list JsString.t :=
  match frags with
  | [] => []
  | [f] => [f ++ [c]]
  | f :: fs => f :: extend_last c fs
  end.

(** The trimmed fragments that the filter of [processInstructions] lets
    through, in order. *)
Definition kept (frags : list JsString.t) : list JsString.t :=
  List.filter (fun t => 10 <? length t) (map trim frags).

(** The step made of an already trimmed fragment. *)
Definition step_of (index : nat) (t : JsString.t) : Instruction :=
  {| id := index + 1; text := t; completed := false; current := index =? 0 |}.

End Fragments.

(* ===================================================================== *)
(** * Text input (components/input/TextInput.tsx)                         *)
(* ===================================================================== *)

Module TextInput.
Import JsString.

Record State := {
  text : JsString.t;
  isProcessing : bool
}.

(** [handleSubmit], lines 13-24: what reaches [onSubmit]; [None] when the
    handler returns at its guard. *)
Definition handleSubmit (st : State) : option JsString.t :=
  if negb (Js.truthy (Js.Str (trim (text st)))) || isProcessing st then None
  else Some (trim (text st)).

(** The effect of the instruction processor, lines 47-51 of
    InstructionProcessor.tsx: it processes a non-empty text as long as no
    step list was produced yet. *)
Definition processOnce (rawInstructions : JsString.t)
    (processedInstructions : list InstructionProcessor.Instruction)
  : option (list InstructionProcessor.Instruction) :=
  if Js.truthy (Js.Str rawInstructions)
     && negb (0 <? length processedInstructions)
  then Some (InstructionProcessor.processInstructions rawInstructions)
  else None.

End TextInput.

(* ===================================================================== *)
(** * Task store (contexts/TaskContext.tsx)                               *)
(* ===================================================================== *)

Module TaskContext.

Inductive Mode := text_mode | image_mode | voice_mode | screen_mode.

Record Task := {
  id : JsString.t;
  title : JsString.t;
  description : JsString.t;
  steps : list TaskViewer.Step;
  mode : Mode;
  originalImage : option JsString.t;
  originalTranscript : option JsString.t;
  originalCapture : option JsString.t;
  createdAt : JsString.t
}.

Record State := {
  currentTask : option Task;
  taskHistory : list Task
}.

Definition initial : State := {| currentTask := None; taskHistory := [] |}.

(** Line 50: [[task, ...prev.slice(0, 9)]]. *)
Definition addToHistory (task : Task) (st : State) : State :=
  {| currentTask := currentTask st;
     taskHistory := task :: take 9 (taskHistory st) |}.

Definition clearHistory (st : State) : State :=
  {| currentTask := currentTask st; taskHistory := [] |}.

(** Lines 57-60, the [setCurrentTask] that consumers receive. *)
Definition handleSetCurrentTask (task : Task) (st : State) : State :=
  addToHistory task
    {| currentTask := Some task; taskHistory := taskHistory st |}.

Inductive op :=
| SetCurrentTask (task : Task)
| AddToHistory (task : Task)
| ClearHistory.

Definition apply (st : State) (o : op) : State :=
  match o with
  | SetCurrentTask task => handleSetCurrentTask task st
  | AddToHistory task => addToHistory task st
  | ClearHistory => clearHistory st
  end.

Definition run (st : State) (ops : list op) : State := foldl apply st ops.

(** The tasks handed to the store since the history was last cleared, the
    latest first. *)
Definition recorded (ops : list op) : list Task :=
  foldl (fun log o =>
           match o with
           | SetCurrentTask task | AddToHistory task => task :: log
           | ClearHistory => []
           end) [] ops.

(** The task of the latest [setCurrentTask]. *)
Definition selected (ops : list op) : option Task :=
  foldl (fun cur o =>
           match o with
           | SetCurrentTask task => Some task
           | _ => cur
           end) None ops.

End TaskContext.

(* ===================================================================== *)
(** * Task viewer: the step list                                          *)
(* ===================================================================== *)

(** The task viewer with the buttons of its step list (TaskViewer.tsx,
    line 220), which select a step by its index in the list. *)
Module TaskViewerList.
Import TaskViewer.

Inductive operation :=
| Handler (ev : TaskViewer.event)
| Select (index : nat).

(** The buttons are made by [steps.map], so an index that designates no
    step has no button. *)
Definition act (st : State) (a : operation) : State :=
  match a with
  | Handler ev => step st ev
  | Select index =>
      if index <? length (steps st)
      then {| steps := steps st; currentStep := index;
              timeouts := timeouts st |}
      else st
  end.

Definition run (st : State) (acts : list operation) : State :=
  foldl act st acts.

(** The viewer as it opens on a task. *)
Definition open (task_steps : list Step) : State :=
  {| steps := task_steps; currentStep := 0; timeouts := [] |}.

(** Line 56, as a render evaluates it on the step objects of that
    time. *)
Definition completedSteps (st : State) : nat :=
  length (List.filter completed (steps st)).

(** What the viewer shows is what its last render computed.  A render
    follows a change of the viewer's state ([setCurrentStep] with another
    index) or comes from elsewhere ([setIsPlaying], [setMode], a render of
    the parent); the assignment of [handleStepComplete] to a step object
    changes no state and triggers none. *)
Record Page := {
  state : State;
  (** [{completedSteps} completed], line 115 *)
  shown : nat
}.

Definition render (st : State) : Page :=
  {| state := st; shown := completedSteps st |}.

Inductive cause :=
| Act (a : operation)
| Rerender.

Definition page_step (p : Page) (c : cause) : Page :=
  match c with
  | Act a =>
      let st' := act (state p) a in
      if currentStep st' =? currentStep (state p)
      then {| state := st'; shown := shown p |}
      else render st'
  | Rerender => render (state p)
  end.

Definition page_run (p : Page) (cs : list cause) : Page :=
  foldl page_step p cs.

(** Every index held by the state designates a step. *)
Definition in_range (st : State) : Prop :=
  currentStep st < length (steps st)
  /\ Forall (fun target => target < length (steps st)) (timeouts st).

End TaskViewerList.

(* ===================================================================== *)
(** * Orchestrator: from instructions to a task                           *)
(* ===================================================================== *)

Module Orchestrator.
Import TaskInputPanel.

(** [`${n}`] for a natural number below 10^21. *)
Definition decimal (n : nat) : JsString.t :=
  js (NilZero.string_of_uint (Nat.to_uint n)).

(** Lines 126-132. *)
Definition toStep (inst : Instruction) : TaskViewer.Step :=
  {| TaskViewer.id := Z.of_nat (id inst);
     TaskViewer.title := js "Step " ++ decimal (id inst);
     TaskViewer.description := text inst;
     TaskViewer.completed := completed inst;
     TaskViewer.type := TaskViewer.action |}.

(** Lines 122-135; [now] and [iso] are [Date.now().toString()] and
    [new Date().toISOString()] at the time of the call. *)
Definition mkTask (now iso : JsString.t) (activeMode : TaskContext.Mode)
    (instructions : list Instruction) : TaskContext.Task :=
  {| TaskContext.id := now;
     TaskContext.title := js "AI Guided Task";
     TaskContext.description := js "Task with live AI guidance";
     TaskContext.steps := map toStep instructions;
     TaskContext.mode := activeMode;
     TaskContext.originalImage := None;
     TaskContext.originalTranscript := None;
     TaskContext.originalCapture := None;
     TaskContext.createdAt := iso |}.

Inductive AppPhase := input | processing | guidance.

Record Panel := {
  activeMode : TaskContext.Mode;
  currentPhase : AppPhase;
  rawInstructions : JsString.t;
  guide : TaskInputPanel.State
}.

Definition initial : Panel :=
  {| activeMode := TaskContext.text_mode; currentPhase := input;
     rawInstructions := [];
     guide := {| processedInstructions := []; currentStep := 0;
                 timeouts := [] |} |}.

(** Lines 106-109. *)
Definition handleInstructionSubmit (instructions : JsString.t) (p : Panel)
  : Panel :=
  {| activeMode := activeMode p; currentPhase := processing;
     rawInstructions := instructions; guide := guide p |}.

(** [parts.join('\n')]. *)
Fixpoint join_lines (parts : list JsString.t) : JsString.t :=
  match parts with
  | [] => []
  | [s] => s
  | s :: rest => s ++ JsString.LF :: join_lines rest
  end.

(** Lines 111-115, for a task whose steps carry string descriptions, as
    the image, voice and screen inputs build them. *)
Definition handleTaskSubmit (task : TaskContext.Task) (p : Panel) : Panel :=
  handleInstructionSubmit
    (join_lines (map TaskViewer.description (TaskContext.steps task))) p.

(** Lines 117-138: the panel, and the task store after [setCurrentTask]. *)
Definition handleInstructionsProcessed (now iso : JsString.t)
    (instructions : list Instruction) (p : Panel) (store : TaskContext.State)
  : Panel * TaskContext.State :=
  ({| activeMode := activeMode p; currentPhase := guidance;
      rawInstructions := rawInstructions p;
      guide := {| processedInstructions := instructions;
                  currentStep := currentStep (guide p);
                  timeouts := timeouts (guide p) |} |},
   TaskContext.handleSetCurrentTask
     (mkTask now iso (activeMode p) instructions) store).

(** From a submitted text to the guidance phase: the submission, then the
    processor working on the stored text and reporting its steps. *)
Definition submit_and_process (now iso : JsString.t) (typed : JsString.t)
    (p : Panel) (store : TaskContext.State) : Panel * TaskContext.State :=
  let p1 := handleInstructionSubmit typed p in
  handleInstructionsProcessed now iso
    (processInstructions (rawInstructions p1)) p1 store.

(** The guide state that every index of which designates an instruction,
    with timers scheduled for the list as it is. *)
Definition well_formed (st : TaskInputPanel.State) : Prop :=
  let n := length (processedInstructions st) in
  (n = 0 \/ currentStep st < n)
  /\ (forall k inst, processedInstructions st !! k = Some inst ->
        id inst = k + 1
        /\ (current inst = true -> k = currentStep st))
  /\ Forall (fun t =>
               match t with
               | AdvanceFrom c m => m = n
               | CompleteStep _ c m => m = n
               end) (timeouts st).

(** ** The panel over its whole life

    Submissions, runs of the processor, guidance and returns to the
    input.  A run of the processor is asynchronous (two seconds, line 28
    of InstructionProcessor.tsx) and goes on when the processor is
    unmounted; [handleBackToInput] clears no timer.  Both reach into the
    next session. *)
Record Session := {
  panel : Panel;
  (** runs of the processor under way, each with the text it was started
      on *)
  runs : list JsString.t
}.

Definition start : Session := {| panel := initial; runs := [] |}.

Definition with_guide (g : TaskInputPanel.State) (p : Panel) : Panel :=
  {| activeMode := activeMode p; currentPhase := currentPhase p;
     rawInstructions := rawInstructions p; guide := g |}.

Definition in_phase (phase : AppPhase) (p : Panel) : bool :=
  match currentPhase p, phase with
  | input, input | processing, processing | guidance, guidance => true
  | _, _ => false
  end.

(** Lines 229-237; the screen sharing flag, the last analysis and the
    polling of the vision service are not part of [Panel].  The pending
    timers stay. *)
Definition handleBackToInput (p : Panel) : Panel :=
  {| activeMode := activeMode p; currentPhase := input;
     rawInstructions := [];
     guide := {| processedInstructions := []; currentStep := 0;
                 timeouts := timeouts (guide p) |} |}.

(** Lines 118-119: what [handleInstructionsProcessed] does to the panel;
    the task that lines 121-137 publish does not feed back into it.
    [currentStep] and the timers are left as they are. *)
Definition reported (instructions : list Instruction) (p : Panel) : Panel :=
  {| activeMode := activeMode p; currentPhase := guidance;
     rawInstructions := rawInstructions p;
     guide := {| processedInstructions := instructions;
                 currentStep := currentStep (guide p);
                 timeouts := timeouts (guide p) |} |}.

(** The effect of the processor (lines 47-51 of InstructionProcessor.tsx)
    runs when the processor is mounted, that is when the panel enters its
    processing phase, and when [rawInstructions] changes while it is
    mounted.  The list of a mounted processor is empty (its first report
    unmounts it), so a run starts on any non-empty text. *)
Definition starts_run (before after : Panel) : bool :=
  in_phase processing after
  && (negb (in_phase processing before)
      || negb (bool_decide (rawInstructions before = rawInstructions after)))
  && Js.truthy (Js.Str (rawInstructions after)).

(** - [Guide ev]: a button of the floating guide (drawn in the guidance
      phase only), a report of the vision service, or a timer;
    - [InstructionSubmit]: [handleInstructionSubmit], from the text input
      or, through [handleTaskSubmit], from the other inputs;
    - [InstructionsProcessed k]: the [k]-th run of the processor reports;
    - [BackToInput]: the button of the processing and guidance phases. *)
Inductive action :=
| Guide (ev : TaskInputPanel.event)
| InstructionSubmit (instructions : JsString.t)
| InstructionsProcessed (k : nat)
| BackToInput.

Definition from_button (ev : TaskInputPanel.event) : bool :=
  match ev with
  | StepComplete _ | NextStep | PreviousStep => true
  | Analysis _ | Timeout _ => false
  end.

Definition perform (s : Session) (a : action) : Session :=
  match a with
  | Guide ev =>
      if from_button ev && negb (in_phase guidance (panel s)) then s
      else {| panel := with_guide (TaskInputPanel.step (guide (panel s)) ev)
                         (panel s);
              runs := runs s |}
  | InstructionSubmit instructions =>
      let p' := handleInstructionSubmit instructions (panel s) in
      {| panel := p';
         runs := if starts_run (panel s) p' then runs s ++ [instructions]
                 else runs s |}
  | InstructionsProcessed k =>
      match runs s !! k with
      | Some raw =>
          {| panel := reported (processInstructions raw) (panel s);
             runs := delete k (runs s) |}
      | None => s
      end
  | BackToInput =>
      if in_phase input (panel s) then s
      else {| panel := handleBackToInput (panel s); runs := runs s |}
  end.

Definition session (acts : list action) : Session :=
  foldl perform start acts.

(** The texts handed to [handleInstructionSubmit] so far. *)
Definition submitted (acts : list action) : list JsString.t :=
  omap (fun a => match a with
                 | InstructionSubmit instructions => Some instructions
                 | _ => None
                 end) acts.

(** The list of the panel, its index, and what the guide shows by them. *)
Definition list_of (s : Session) : list Instruction :=
  processedInstructions (guide (panel s)).

Definition index_of (s : Session) : nat := currentStep (guide (panel s)).

(** What every session keeps: the list is, up to its marks, what the
    processor made of a submitted text, and so is what the runs under way
    will report. *)
Definition session_inv (acts : list action) (s : Session) : Prop :=
  (exists raw, (raw = [] \/ raw ∈ submitted acts)
     /\ map text (list_of s) = map text (processInstructions raw)
     /\ map id (list_of s) = map id (processInstructions raw))
  /\ (forall raw, raw ∈ runs s -> raw ∈ submitted acts).

(** A run in which a timer left by the first session fires after the
    return to the input. *)
Definition stale_timer_run : list action :=
  [ InstructionSubmit
      (js "Open the Chrome browser" ++ [JsString.LF] ++ js "Go to the mail page");
    InstructionsProcessed 0;
    Guide (StepComplete 1);
    BackToInput;
    Guide (Timeout 0);
    InstructionSubmit (js "Open the Chrome browser");
    InstructionsProcessed 0 ].

End Orchestrator.

(* ===================================================================== *)
(** * Floating guide: what the drawn popup offers                         *)
(* ===================================================================== *)

Module GuideRuns.
Import AIGuidePopup.

(** An event that the drawn popup can produce without the page being
    reloaded: the step buttons are made by [steps.map] (line 466), so a
    click carries the index of an existing step. *)
Definition offered (props : Props) (ev : event) : Prop :=
  match ev with
  | Reload _ => False
  | StepClick stepIndex => stepIndex < length (steps props)
  | _ => True
  end.

(** The state as it comes back from storage: shown, not playing, the rest
    as saved. *)
Definition restored (g : GuideState) : GuideState :=
  {| isVisible := true; currentStep := currentStep g;
     isMinimized := isMinimized g; isPlaying := false;
     position := position g; completedSteps := completedSteps g;
     status := status g |}.

(** The guide is dismissed and the mark of it is in storage. *)
Definition gone (p : Page) : Prop :=
  status (guideState p) = dismissed
  /\ isVisible (guideState p) = false
  /\ aiGuideStatus (storage p) = Some (js "done").

(** The other writer of the two keys: DemoPage (components/DemoPage.tsx)
    removes both in [handleStartCustomGuide] (lines 46-47) and in
    [handleResetGuides] (lines 52-53), under whatever popup is mounted. *)
Definition removeGuideKeys (p : Page) : Page :=
  {| storage := emptyStorage; props := props p;
     guideState := guideState p |}.

(** The render past its guard: the expanded popup reads [currentStep.id]
    (line 392) of [steps[guideState.currentStep]] (line 212), which throws
    when the index designates no step; the minimized popup does not read
    the step (line 380).  [Return true] when the popup is drawn, [Return
    false] when the guard returns null. *)
Definition draw (props : Props) (g : GuideState) (portalContainer : bool)
  : Js.completion bool :=
  if renders g portalContainer then
    if isMinimized g then Js.Return true
    else match steps props !! currentStep g with
         | Some _ => Js.Return true
         | None => Js.Throw Js.TypeError
         end
  else Js.Return false.

(** A page load with its first drawing (the portal container exists from
    the first effect on): an error thrown by the render takes the page
    down. *)
Definition load (props : Props) (storage : Storage) : Js.completion Page :=
  let p := mount props storage in
  match draw props (guideState p) true with
  | Js.Return _ => Js.Return p
  | Js.Throw e => Js.Throw e
  end.

End GuideRuns.

(* ===================================================================== *)
(** * Vision service: kinds of replies                                    *)
(* ===================================================================== *)

Module VisionReplies.
Import Js AIVisionService.

(** A value that is a JSON number, or that [||] replaces by the default:
    missing, null or false. *)
Definition numeric (v : value) : Prop :=
  match v with
  | Undefined | Null | Bool false => True
  | Num n => n <> NaN
  | _ => False
  end.

(** A cue object whose coordinates are numeric in that sense. *)
Definition numeric_cue (cue : value) : Prop :=
  match cue with
  | Obj fields =>
      numeric (lookup_field (js "x") fields)
      /\ numeric (lookup_field (js "y") fields)
  | _ => False
  end.

(** A cue of a returned analysis with both coordinates on the screen. *)
Definition cue_on_screen (cue : value) : Prop :=
  exists x y,
    get cue (js "x") = Return (Num x) /\ get cue (js "y") = Return (Num y)
    /\ within 0 1920 x /\ within 0 1080 y.

Section Unusable.
Context `{Builtins}.

(** A reply from which the try block of [analyzeWithOpenAI] gets no
    analysis: the request was rejected, the response has no choice or no
    content, the content is not JSON, or the parsed value lacks a truthy
    [status] or [message]. *)
Definition unusable (reply : Reply) : Prop :=
  match reply with
  | Rejected _ => True
  | Response [] => True
  | Response (None :: _) => True
  | Response (Some [] :: _) => True
  | Response (Some content :: _) =>
      match JSON_parse content with
      | None => True
      | Some (Obj fields) =>
          truthy (lookup_field (js "status") fields) = false
          \/ truthy (lookup_field (js "message") fields) = false
      | Some _ => True
      end
  end.

End Unusable.

(** A parsed reply with numbers out of range, and built-ins under which
    the reply of one exchange parses to it. *)
Definition reply_out_of_range : value :=
  Obj [ (js "status", Str (js "completed"));
        (js "message", Str (js "done"));
        (js "confidence", Num (Finite (17 # 10)));
        (js "visualCues",
         Arr [Obj [ (js "x", Num (Finite (-5))); (js "y", Num PosInfinity) ]]) ].

Definition parses_out_of_range : Builtins :=
  {| StringToNumber := fun _ => NaN;
     ArrayToString := fun _ => None;
     JSON_parse := fun _ => Some reply_out_of_range |}.

Definition parses_nothing : Builtins :=
  {| StringToNumber := fun _ => NaN;
     ArrayToString := fun _ => None;
     JSON_parse := fun _ => None |}.

End VisionReplies.


(* ===================================================================== *)
(** * Properties of the instruction processor                             *)
(* ===================================================================== *)

Section InstructionProcessorFacts.
Import JsString InstructionProcessor.

Lemma trimStart_clean s : starts_clean (trimStart s).
Proof.
  induction s as [|c s IH]; simpl; [done|].
  destruct (is_space c) eqn:E; [exact IH | exact E].
Qed.

Lemma trimStart_fix s : starts_clean s -> trimStart s = s.
Proof. destruct s as [|c s]; simpl; [done|]. by intros ->. Qed.

Lemma trimStart_suffix s : exists p, s = p ++ trimStart s.
Proof.
  induction s as [|c s [p IH]]; simpl.
  - by exists [].
  - destruct (is_space c).
    + exists (c :: p). simpl. by rewrite <- IH.
    + by exists [].
Qed.

Lemma trimEnd_prefix s : exists q, s = trimEnd s ++ q.
Proof.
  destruct (trimStart_suffix (rev s)) as [p Hp].
  exists (rev p). unfold trimEnd.
  rewrite <- rev_app_distr, <- Hp. by rewrite rev_involutive.
Qed.

Lemma trimEnd_keeps_start s : starts_clean s -> starts_clean (trimEnd s).
Proof.
  destruct (trimEnd_prefix s) as [q Hq].
  destruct (trimEnd s) as [|c t]; [done|].
  rewrite Hq. simpl. done.
Qed.

Lemma trim_idempotent s : trim (trim s) = trim s.
Proof.
  unfold trim.
  assert (Hs : starts_clean (trimEnd (trimStart s)))
    by apply trimEnd_keeps_start, trimStart_clean.
  rewrite (trimStart_fix _ Hs).
  unfold trimEnd at 1.
  assert (He : starts_clean (rev (trimEnd (trimStart s)))).
  { unfold trimEnd. rewrite rev_involutive. apply trimStart_clean. }
  rewrite (trimStart_fix _ He). apply rev_involutive.
Qed.

(** The splitter on small texts, with what [String.prototype.split]
    answers: an empty fragment before a leading separator and after a
    trailing one, a number taken as separator only when a period follows
    it. *)
Example split_empty : split [] = [[]].
Proof. reflexivity. Qed.

Example split_numbers :
  split (js "a.12.b1c.") = [js "a"; []; js "b1c"; []].
Proof. reflexivity. Qed.

Example split_version :
  split (js "v2.0 is out") = [js "v"; js "0 is out"].
Proof. reflexivity. Qed.

Example split_scenario :
  split scenario_text =
    [ []; js " Open Chrome"; []; js " Go to gmail"; js "com"; [];
      js " Click Sign In" ].
Proof. reflexivity. Qed.

Example trim_both_ends :
  trim ([9; 32] ++ js "Open  Chrome" ++ [160; 10])%N = js "Open  Chrome".
Proof. reflexivity. Qed.

(** A text without line feed, period or digit is a single fragment. *)
Lemma split_loop_plain cur s :
  Forall (fun c => c <> LF /\ c <> DOT /\ is_digit c = false) s ->
  split_loop 0 cur s = [rev cur ++ s].
Proof.
  revert cur. induction s as [|c s IH]; intros cur Hs; simpl.
  - by rewrite app_nil_r.
  - apply Forall_cons in Hs as [(Hlf & Hdot & Hd) Hs].
    apply N.eqb_neq in Hlf, Hdot. rewrite Hlf, Hdot, Hd.
    rewrite IH by done. simpl. by rewrite <- app_assoc.
Qed.

(** Every entry is built by [mkStep] at its own index from a fragment that
    passed the filter. *)
Lemma processInstructions_lookup raw k i :
  processInstructions raw !! k = Some i ->
  k < 8 /\ exists step, keep step = true /\ i = mkStep k step.
Proof.
  unfold processInstructions. intros Hk.
  apply lookup_take_Some in Hk as [Hk Hlt]. split; [done|].
  rewrite list_lookup_imap in Hk.
  destruct (List.filter keep (split raw) !! k) as [step|] eqn:E; [|done].
  simpl in Hk. injection Hk as <-.
  exists step. split; [|done].
  apply list_elem_of_lookup_2, list_elem_of_In, filter_In in E. tauto.
Qed.

Lemma filter_current_shift f (l : list JsString.t) n :
  (forall k s, current (f k s) = false) ->
  List.filter current (take n (imap f l)) = [].
Proof.
  intros Hf. revert f Hf n.
  induction l as [|a l IH]; intros f Hf n; destruct n; simpl; try done.
  rewrite Hf. apply IH. intros k s. apply Hf.
Qed.

Lemma current_count_steps (l : list JsString.t) :
  current_count (take 8 (imap mkStep l)) = match l with [] => 0 | _ => 1 end.
Proof.
  unfold current_count. destruct l as [|a l]; simpl; [done|].
  rewrite filter_current_shift; [done|].
  intros k s. by simpl.
Qed.

(** C1 (as amended): for every raw text the step list has at most 8
    entries; the text of every entry is already trimmed and longer than 10
    code units (hence its trimmed length is at least 10); the entry at index
    [k] is marked current exactly when [k = 0].  So a non-empty list has
    exactly one current entry, the first, and when no fragment passes the
    filter the list is empty and no entry is current. *)
Theorem processInstructions_steps (raw : JsString.t) :
  let steps := processInstructions raw in
  length steps <= 8
  /\ (forall k i, steps !! k = Some i ->
        id i = k + 1 /\ completed i = false
        /\ trim (text i) = text i /\ 10 < length (text i)
        /\ 10 <= length (trim (text i))
        /\ current i = bool_decide (k = 0))
  /\ current_count steps = match steps with [] => 0 | _ => 1 end
  /\ (steps = [] <-> List.filter keep (split raw) = []).
Proof.
  cbv zeta. split; [|split; [|split]].
  - unfold processInstructions. rewrite length_take. lia.
  - intros k i Hk.
    apply processInstructions_lookup in Hk as (_ & step & Hkeep & ->).
    unfold keep in Hkeep. apply Nat.ltb_lt in Hkeep. simpl.
    rewrite trim_idempotent.
    repeat split; try done; try lia.
    destruct k; simpl; by rewrite ?bool_decide_eq_true_2, ?bool_decide_eq_false_2.
  - unfold processInstructions. rewrite current_count_steps.
    by destruct (List.filter keep (split raw)).
  - unfold processInstructions.
    by destruct (List.filter keep (split raw)).
Qed.

(** C1 (as stated) fails: ["Click OK."] is split into fragments of at most
    8 code units, none passes the filter, and the empty result has no
    current entry. *)
Lemma processInstructions_no_current :
  processInstructions (js "Click OK.") = []
  /\ current_count (processInstructions (js "Click OK.")) <> 1.
Proof. split; [reflexivity | vm_compute; lia]. Qed.

(** C7: the scenario text yields exactly three steps, numbered 1 to 3 in
    the order of the three instructions, the first one current.  Their
    texts are the instructions without the numbering; the second one ends
    at the period of [gmail.com], the fragment [com] being too short to be
    kept. *)
Theorem processInstructions_scenario :
  processInstructions scenario_text =
    [ {| id := 1; text := js "Open Chrome";
         completed := false; current := true |};
      {| id := 2; text := js "Go to gmail";
         completed := false; current := false |};
      {| id := 3; text := js "Click Sign In";
         completed := false; current := false |} ].
Proof. vm_compute. reflexivity. Qed.

End InstructionProcessorFacts.

(* ===================================================================== *)
(** * Properties of the vision analysis service                           *)
(* ===================================================================== *)

Section Doubles.
Import Js.
Open Scope Q_scope.

Lemma pow2_pos (e : Z) : 0 < 2 ^ e.
Proof. apply Qpower_0_lt. reflexivity. Qed.

Lemma pow2_nonzero (e : Z) : ~ 2 ^ e == 0.
Proof. pose proof (pow2_pos e). lra. Qed.

Lemma pow2_inject (n : Z) : (0 <= n)%Z -> 2 ^ n == inject_Z (2 ^ n).
Proof. intros Hn. symmetry. apply (Zpower_Qpower 2 n Hn). Qed.

Lemma pow2_split (a b : Z) : 2 ^ (a - b) == 2 ^ a / 2 ^ b.
Proof. apply Qpower_minus. discriminate. Qed.

Lemma inject_Z_pos (z : Z) : (0 < z)%Z -> 0 < inject_Z z.
Proof. intros Hz. change 0 with (inject_Z 0). by rewrite <- Zlt_Qlt. Qed.

Lemma log2_floor_spec (q : Q) :
  0 < q -> 2 ^ log2_floor q <= q /\ q < 2 ^ (log2_floor q + 1).
Proof.
  intros Hq. destruct q as [n d].
  assert (Hn : (0 < n)%Z).
  { unfold Qlt in Hq. simpl in Hq. lia. }
  unfold log2_floor. cbn [Qnum Qden].
  set (a := Z.log2 n). set (b := Z.log2 (Z.pos d)).
  destruct (Z.log2_spec n Hn) as [Ha1 Ha2]. fold a in Ha1, Ha2.
  destruct (Z.log2_spec (Z.pos d) ltac:(lia)) as [Hb1 Hb2].
  fold b in Hb1, Hb2.
  assert (Ha0 : (0 <= a)%Z) by apply Z.log2_nonneg.
  assert (Hb0 : (0 <= b)%Z) by apply Z.log2_nonneg.
  assert (Hq' : n # d == inject_Z n / inject_Z (Z.pos d))
    by apply Qmake_Qdiv.
  assert (HD : 0 < inject_Z (Z.pos d)) by (apply inject_Z_pos; lia).
  assert (Hlo : 2 ^ (a - b - 1) < n # d).
  { replace (a - b - 1)%Z with (a - (b + 1))%Z by lia.
    rewrite pow2_split, Hq', !pow2_inject by lia.
    assert (0 < inject_Z (2 ^ (b + 1))) by (apply inject_Z_pos; lia).
    apply Qlt_shift_div_l; [done|].
    unfold Qdiv. rewrite <- Qmult_assoc, (Qmult_comm (/ _)), Qmult_assoc.
    apply Qlt_shift_div_r; [done|].
    rewrite <- !inject_Z_mult, <- Zlt_Qlt. nia. }
  assert (Hhi : n # d < 2 ^ (a - b + 1)).
  { replace (a - b + 1)%Z with (a + 1 - b)%Z by lia.
    rewrite pow2_split, Hq', !pow2_inject by lia.
    assert (0 < inject_Z (2 ^ b)) by (apply inject_Z_pos; lia).
    apply Qlt_shift_div_r; [done|].
    unfold Qdiv. rewrite <- Qmult_assoc, (Qmult_comm (/ _)), Qmult_assoc.
    apply Qlt_shift_div_l; [done|].
    rewrite <- !inject_Z_mult, <- Zlt_Qlt. nia. }
  destruct (Qle_bool (2 ^ (a - b)) (n # d)) eqn:E.
  - apply Qle_bool_iff in E. done.
  - assert (~ 2 ^ (a - b) <= n # d).
    { intros Hc. apply Qle_bool_iff in Hc. congruence. }
    replace (a - b - 1 + 1)%Z with (a - b)%Z by lia.
    split; [apply Qlt_le_weak, Hlo | by apply Qnot_le_lt].
Qed.

Lemma log2_floor_lt (q : Q) (k : Z) :
  0 < q -> q < 2 ^ k -> (log2_floor q < k)%Z.
Proof.
  intros Hq Hk. destruct (log2_floor_spec q Hq) as [Hlo _].
  apply (Qpower_lt_compat_l_inv 2); [|reflexivity].
  eapply Qle_lt_trans; eassumption.
Qed.

Lemma log2_floor_ge (q : Q) (k : Z) :
  0 < q -> 2 ^ k <= q -> (k <= log2_floor q)%Z.
Proof.
  intros Hq Hk. destruct (log2_floor_spec q Hq) as [_ Hhi].
  assert (k < log2_floor q + 1)%Z; [|lia].
  apply (Qpower_lt_compat_l_inv 2); [|reflexivity].
  eapply Qle_lt_trans; eassumption.
Qed.

Lemma round_ties_even_cases (x : Q) :
  (round_ties_even x = Qfloor x /\ x - inject_Z (Qfloor x) <= 1 # 2)
  \/ (round_ties_even x = (Qfloor x + 1)%Z
      /\ 1 # 2 <= x - inject_Z (Qfloor x)).
Proof.
  unfold round_ties_even.
  destruct (Qcompare_spec (x - inject_Z (Qfloor x)) (1 # 2)) as [E|E|E].
  - destruct (Z.even (Qfloor x)); [left|right]; split; try done;
      rewrite E; apply Qle_refl.
  - left. split; [done|]. by apply Qlt_le_weak.
  - right. split; [done|]. by apply Qlt_le_weak.
Qed.

Lemma round_ties_even_le (x : Q) (m : Z) :
  x <= inject_Z m -> (round_ties_even x <= m)%Z.
Proof.
  intros Hx. pose proof (Qfloor_le x) as Hf.
  assert (Hfm : (Qfloor x <= m)%Z).
  { rewrite Zle_Qle. lra. }
  destruct (round_ties_even_cases x) as [[-> _]|[-> Hh]]; [done|].
  assert (Qfloor x < m)%Z; [|lia]. rewrite Zlt_Qlt. lra.
Qed.

Lemma round_ties_even_ge (x : Q) (m : Z) :
  inject_Z m <= x -> (m <= round_ties_even x)%Z.
Proof.
  intros Hx.
  assert (Hfm : (m <= Qfloor x)%Z).
  { rewrite <- (Qfloor_Z m). by apply Qfloor_resp_le. }
  destruct (round_ties_even_cases x) as [[-> _]|[-> _]]; lia.
Qed.

Lemma round_ties_even_below (x : Q) (m : Z) :
  x < inject_Z m - (1 # 2) -> (round_ties_even x < m)%Z.
Proof.
  intros Hx. pose proof (Qfloor_le x) as Hf.
  destruct (round_ties_even_cases x) as [[-> _]|[-> Hh]].
  - rewrite Zlt_Qlt. lra.
  - assert (Qfloor x + 1 < m)%Z; [|lia].
    rewrite Zlt_Qlt, inject_Z_plus. change (inject_Z 1) with 1. lra.
Qed.

Lemma Qabs_nonneg_eq (q : Q) : 0 <= q -> Qabs q = q.
Proof.
  destruct q as [n d]. unfold Qle. simpl. intros Hn.
  unfold Qabs. f_equal. apply Z.abs_eq. lia.
Qed.

Lemma ulp_scale (e : Z) :
  (e <= 0)%Z -> 2 ^ e == / inject_Z (2 ^ (- e)).
Proof.
  intros He. replace e with (- - e)%Z at 1 by lia.
  rewrite Qpower_opp, pow2_inject by lia. reflexivity.
Qed.

Lemma number_value_finite (q : Q) (m : Z) (e : Z) :
  ~ q == 0 -> ulp_exponent q = e -> round_ties_even (q / 2 ^ e) = m ->
  Qabs (inject_Z m * 2 ^ e) < 2 ^ 1024 ->
  number_value q = Finite (Qred (inject_Z m * 2 ^ e)).
Proof.
  intros Hq He Hm Hfin. unfold number_value.
  destruct (Qeq_bool q 0) eqn:E; [by apply Qeq_bool_iff in E|].
  cbv zeta. rewrite He, Hm.
  destruct (Qle_bool _ _) eqn:E'; [|done].
  apply Qle_bool_iff in E'. lra.
Qed.

Lemma number_value_bounds (q : Q) (lo hi : Z) :
  (0 <= lo)%Z -> (hi < 2 ^ 53)%Z ->
  inject_Z lo <= q -> q <= inject_Z hi ->
  exists r, number_value q = Finite r /\ inject_Z lo <= r /\ r <= inject_Z hi.
Proof.
  intros Hlo Hhi Hq1 Hq2.
  assert (Hlo' : 0 <= inject_Z lo).
  { change 0 with (inject_Z 0). by rewrite <- Zle_Qle. }
  destruct (Qeq_bool q 0) eqn:E.
  - exists 0. unfold number_value. rewrite E.
    apply Qeq_bool_iff in E. split; [done|]. lra.
  - assert (Hne : ~ q == 0).
    { intros Hc. apply Qeq_bool_iff in Hc. congruence. }
    assert (Hpos : 0 < q) by lra.
    set (e := ulp_exponent q).
    assert (He : (e <= 0)%Z).
    { unfold e, ulp_exponent. rewrite Qabs_nonneg_eq by lra.
      assert (log2_floor q < 53)%Z; [|lia].
      apply log2_floor_lt; [done|].
      eapply Qle_lt_trans; [exact Hq2|].
      rewrite pow2_inject by lia. by rewrite <- Zlt_Qlt. }
    set (s := (2 ^ (- e))%Z).
    assert (Hs : (0 < s)%Z) by (apply Z.pow_pos_nonneg; lia).
    assert (Hs' : 0 < inject_Z s) by by apply inject_Z_pos.
    assert (Hx : q / 2 ^ e == q * inject_Z s).
    { rewrite (ulp_scale e He). fold s. field. lra. }
    set (m := round_ties_even (q / 2 ^ e)).
    assert (Hm1 : (lo * s <= m)%Z).
    { apply round_ties_even_ge. rewrite Hx, inject_Z_mult.
      apply Qmult_le_compat_r; lra. }
    assert (Hm2 : (m <= hi * s)%Z).
    { apply round_ties_even_le. rewrite Hx, inject_Z_mult.
      apply Qmult_le_compat_r; lra. }
    assert (Hr : inject_Z m * 2 ^ e == inject_Z m / inject_Z s).
    { rewrite (ulp_scale e He). reflexivity. }
    assert (Hr1 : inject_Z lo <= inject_Z m * 2 ^ e).
    { rewrite Hr. apply Qle_shift_div_l; [done|].
      rewrite <- inject_Z_mult. by rewrite <- Zle_Qle. }
    assert (Hr2 : inject_Z m * 2 ^ e <= inject_Z hi).
    { rewrite Hr. apply Qle_shift_div_r; [done|].
      rewrite <- inject_Z_mult. by rewrite <- Zle_Qle. }
    exists (Qred (inject_Z m * 2 ^ e)).
    split; [|rewrite Qred_correct; done].
    apply number_value_finite; try done.
    rewrite Qabs_pos by lra.
    eapply Qle_lt_trans; [exact Hr2|].
    apply Qlt_trans with (2 ^ 53).
    + rewrite pow2_inject by lia. by rewrite <- Zlt_Qlt.
    + apply Qpower_lt_compat_l; [lia|reflexivity].
Qed.

(** A double of [1/2, 1) is a multiple of [2^-53]. *)
Lemma is_Number_half (r : Q) :
  is_Number r -> 1 # 2 <= r -> r < 1 ->
  exists m : Z, r == inject_Z m * 2 ^ (-53) /\ (m < 2 ^ 53)%Z.
Proof.
  intros Hn Hlo Hhi. unfold is_Number, number_value in Hn.
  destruct (Qeq_bool r 0) eqn:E.
  { apply Qeq_bool_iff in E. lra. }
  assert (He : ulp_exponent r = (-53)%Z).
  { unfold ulp_exponent. rewrite Qabs_nonneg_eq by lra.
    assert (log2_floor r < 0)%Z by (apply log2_floor_lt; lra).
    assert (-1 <= log2_floor r)%Z by (apply log2_floor_ge; lra).
    lia. }
  cbv zeta in Hn. rewrite He in Hn.
  destruct (Qle_bool _ _); [by destruct (Qle_bool 0 r)|].
  injection Hn as Hn.
  set (m := round_ties_even (r / 2 ^ (-53))) in *.
  assert (Hr : r == inject_Z m * 2 ^ (-53)).
  { rewrite <- (Qred_correct r), <- Hn, Qred_correct. reflexivity. }
  exists m. split; [done|].
  rewrite Zlt_Qlt. rewrite Hr in Hhi.
  change (2 ^ (-53)) with (/ inject_Z (2 ^ 53)) in Hhi.
  assert (Hs : 0 < inject_Z (2 ^ 53)) by (apply inject_Z_pos; lia).
  destruct (Qlt_le_dec (inject_Z m) (inject_Z (2 ^ 53))) as [|Hc]; [done|].
  assert (1 <= inject_Z m / inject_Z (2 ^ 53))
    by (apply Qle_shift_div_l; lra).
  unfold Qdiv in *. lra.
Qed.

Lemma number_value_below_3 (r : Q) :
  is_Number r -> 0 <= r -> r < 1 ->
  exists x, number_value (r * 3) = Finite x /\ 0 <= x /\ x < 3.
Proof.
  intros Hn H0 H1.
  destruct (Qlt_le_dec (r * 3) 2) as [Hlt|Hge].
  - assert (A : inject_Z 0 <= r * 3) by (change (inject_Z 0) with 0; lra).
    assert (B : r * 3 <= inject_Z 2) by (change (inject_Z 2) with 2; lra).
    destruct (number_value_bounds (r * 3) 0 2 ltac:(lia) ltac:(lia) A B)
      as (x & Hx & Hx0 & Hx2).
    exists x. split; [done|]. change (inject_Z 0) with 0 in Hx0.
    change (inject_Z 2) with 2 in Hx2. lra.
  - destruct (is_Number_half r Hn) as (m & Hr & Hm); [lra|done|].
    assert (He : ulp_exponent (r * 3) = (-51)%Z).
    { unfold ulp_exponent. rewrite Qabs_nonneg_eq by lra.
      assert (log2_floor (r * 3) < 2)%Z
        by (apply log2_floor_lt; [lra|]; change (2 ^ 2) with 4; lra).
      assert (1 <= log2_floor (r * 3))%Z
        by (apply log2_floor_ge; [lra|]; change (2 ^ 1) with 2; lra).
      lia. }
    set (k := round_ties_even (r * 3 / 2 ^ (-51))).
    assert (Hx : r * 3 / 2 ^ (-51) == inject_Z (3 * m) / 4).
    { rewrite Hr, inject_Z_mult.
      change (2 ^ (-53)) with (/ inject_Z (2 ^ 53)).
      change (2 ^ (-51)) with (/ inject_Z (2 ^ 51)).
      change (inject_Z (2 ^ 53)) with (4 * inject_Z (2 ^ 51)).
      change (inject_Z 3) with 3. field. discriminate. }
    assert (Hk1 : (2 ^ 52 <= k)%Z).
    { apply round_ties_even_ge.
      change (inject_Z (2 ^ 52)) with (2 / 2 ^ (-51)).
      apply Qmult_le_compat_r; [done|]. apply Qlt_le_weak.
      apply Qinv_lt_0_compat, pow2_pos. }
    assert (Hk2 : (k < 3 * 2 ^ 51)%Z).
    { apply round_ties_even_below. rewrite Hx.
      apply Qlt_shift_div_r; [reflexivity|].
      assert (Hm' : (3 * m <= 3 * 2 ^ 53 - 3)%Z) by lia.
      rewrite Zle_Qle in Hm'.
      eapply Qle_lt_trans; [exact Hm'|]. by compute. }
    assert (Hr1 : 0 <= inject_Z k * 2 ^ (-51)).
    { apply Qmult_le_0_compat; [|apply Qlt_le_weak, pow2_pos].
      change 0 with (inject_Z 0). rewrite <- Zle_Qle. lia. }
    assert (Hr2 : inject_Z k * 2 ^ (-51) < 3).
    { change (2 ^ (-51)) with (/ inject_Z (2 ^ 51)).
      apply Qlt_shift_div_r; [reflexivity|].
      change 3 with (inject_Z 3). rewrite <- inject_Z_mult, <- Zlt_Qlt. lia. }
    exists (Qred (inject_Z k * 2 ^ (-51))).
    split; [|rewrite Qred_correct; split; [done|done]].
    apply number_value_finite; try done.
    + lra.
    + rewrite Qabs_nonneg_eq by done.
      eapply Qlt_trans; [exact Hr2|]. reflexivity.
Qed.

(** [Math.random() * a + b] stays between [b] and [a + b], rounding
    included. *)
Lemma scaled_bounds (r : Q) (a b : Z) :
  0 <= r -> r < 1 -> (0 <= a)%Z -> (0 <= b)%Z -> (a + b < 2 ^ 53)%Z ->
  exists x,
    Number_add (Number_multiply (Finite r) (Finite (inject_Z a)))
      (Finite (inject_Z b)) = Finite x
    /\ inject_Z b <= x /\ x <= inject_Z (a + b).
Proof.
  intros H0 H1 Ha Hb Hab.
  assert (Ha' : 0 <= inject_Z a).
  { change 0 with (inject_Z 0). by rewrite <- Zle_Qle. }
  assert (A : inject_Z 0 <= r * inject_Z a).
  { change (inject_Z 0) with 0. by apply Qmult_le_0_compat. }
  assert (B : r * inject_Z a <= inject_Z a).
  { rewrite <- (Qmult_1_l (inject_Z a)) at 2.
    apply Qmult_le_compat_r; [lra|done]. }
  destruct (number_value_bounds _ 0 a ltac:(lia) ltac:(lia) A B)
    as (y & Hy & Hy0 & Hya).
  cbn [Number_multiply]. rewrite Hy. cbn [Number_add].
  change (inject_Z 0) with 0 in Hy0.
  assert (C : inject_Z b <= y + inject_Z b) by lra.
  assert (D : y + inject_Z b <= inject_Z (a + b))
    by (rewrite inject_Z_plus; lra).
  destruct (number_value_bounds _ b (a + b) Hb Hab C D) as (x & Hx & Hxb).
  by exists x.
Qed.

(** [Math.floor(Math.random() * 3)] is 0, 1 or 2, rounding included. *)
Lemma scenario_index (r : Q) :
  is_Number r -> 0 <= r -> r < 1 ->
  exists i : Z,
    Math_floor (Number_multiply (Finite r) (Finite (inject_Z 3)))
    = Finite (inject_Z i)
    /\ (i = 0 \/ i = 1 \/ i = 2)%Z.
Proof.
  intros Hn H0 H1.
  destruct (number_value_below_3 r Hn H0 H1) as (x & Hx & Hx0 & Hx3).
  exists (Qfloor x). cbn [Number_multiply Math_floor].
  change (inject_Z 3) with 3. rewrite Hx. split; [done|].
  assert (0 <= Qfloor x)%Z.
  { change 0%Z with (Qfloor (inject_Z 0)). by apply Qfloor_resp_le. }
  assert (Qfloor x < 3)%Z.
  { rewrite Zlt_Qlt. eapply Qle_lt_trans; [apply Qfloor_le|done]. }
  lia.
Qed.

End Doubles.

Section SimulatedPath.
Import Js AIVisionService.

(** C6: whatever the screenshot, the instruction list and the step index
    (the first two are not even read by the result), as long as
    [Math.random] returns doubles of [0, 1), the simulated analysis has
    status [on_track], [off_track] or [completed], never [error], and its
    [visualCues] is an array with at least one cue.  The index is computed
    as the code does, on doubles: the product with the number of scenarios
    is rounded before it is floored. *)
Theorem simulateAIAnalysis_status (random : nat -> Q)
    (screenImageData : JsString.t) (instructions : list JsString.t)
    (currentStepIndex : Z) :
  (forall k, is_Number (random k)
             /\ (0 <= random k)%Q /\ (random k < 1)%Q) ->
  let analysis :=
    simulateAIAnalysis random screenImageData instructions currentStepIndex in
  (status analysis = Str (js "on_track")
   \/ status analysis = Str (js "off_track")
   \/ status analysis = Str (js "completed"))
  /\ is_string (status analysis) (js "error") = false
  /\ (exists cue rest, visualCues analysis = Arr (cue :: rest))
  /\ currentStep analysis = currentStepIndex.
Proof.
  intros Hr. cbv zeta. unfold simulateAIAnalysis.
  destruct (Hr 6) as (Hn & H0 & H1).
  change (inject_Z (Z.of_nat (length (scenarios random)))) with (inject_Z 3).
  destruct (scenario_index _ Hn H0 H1) as (i & -> & [-> | [-> | ->]]);
    cbn [at_number]; simpl.
  - split; [by left|]. split; [done|]. split; [by eexists _, _|done].
  - split; [by right; left|]. split; [done|]. split; [by eexists _, _|done].
  - split; [by right; right|]. split; [done|]. split; [by eexists _, _|done].
Qed.

(** The draw 0.3333333333333333: its product with 3 rounds to 1, so the
    second scenario is taken. *)
Lemma simulateAIAnalysis_rounded_draw :
  status (simulateAIAnalysis (fun _ => 6004799503160661 # 18014398509481984)
            [] [] 0)
  = Str (js "off_track").
Proof. by vm_compute. Qed.

Lemma simulateAIAnalysis_status_witness :
  let analysis :=
    simulateAIAnalysis (fun _ => 6004799503160661 # 18014398509481984)
      (js "data:image/png;base64,AAAA") [js "Open Chrome"] 0 in
  (status analysis = Str (js "on_track")
   \/ status analysis = Str (js "off_track")
   \/ status analysis = Str (js "completed"))
  /\ is_string (status analysis) (js "error") = false
  /\ (exists cue rest, visualCues analysis = Arr (cue :: rest))
  /\ currentStep analysis = 0%Z.
Proof.
  apply (simulateAIAnalysis_status
           (fun _ => 6004799503160661 # 18014398509481984)
           (js "data:image/png;base64,AAAA") [js "Open Chrome"] 0).
  intros _. split; [by vm_compute|]. split; by compute.
Defined.

End SimulatedPath.

Section RemotePath.
Import Js AIVisionService.
Context `{Builtins}.

Lemma bind_Return {A B} (c : completion A) (k : A -> completion B) b :
  c ≫= k = Return b -> exists a, c = Return a /\ k a = Return b.
Proof. destruct c as [a|e]; simpl; [by exists a | done]. Qed.

Lemma max_min_within (lo hi : Q) (n : number) :
  (lo <= hi)%Q -> n <> NaN ->
  within lo hi (max (Finite lo) (min (Finite hi) n)).
Proof.
  intros Hle Hn.
  assert (Hb : Qle_bool lo hi = true) by by apply Qle_bool_iff.
  destruct n as [| |q|]; simpl; [done| | |].
  - split; [apply Qle_refl | done].
  - destruct (Qle_bool hi q) eqn:E1; simpl.
    + rewrite Hb. simpl. split; [done | apply Qle_refl].
    + destruct (Qle_bool lo q) eqn:E2; simpl.
      * apply Qle_bool_iff in E2. split; [done|].
        apply Qlt_le_weak, Qnot_le_lt. intros Hc.
        apply Qle_bool_iff in Hc. congruence.
      * split; [apply Qle_refl | done].
  - rewrite Hb. simpl. split; [done | apply Qle_refl].
Qed.

(** The clamp leaves a number of the interval, or NaN when the value does
    not convert to a number. *)
Lemma clamp_cases (lo hi dflt : Q) (v : value) (n : number) :
  (lo <= hi)%Q -> clamp lo hi dflt v = Return n -> n = NaN \/ within lo hi n.
Proof.
  intros Hle. unfold clamp. intros Hc.
  apply bind_Return in Hc as (m & _ & Hm). injection Hm as <-.
  assert (Hcase : m = NaN \/ m <> NaN) by (destruct m; [by left | by right..]).
  destruct Hcase as [->|Hm]; [by left | right; by apply max_min_within].
Qed.

(** On a number, as [JSON.parse] produces them, the clamp does its work;
    so it does on a missing or falsy value, replaced by the default. *)
Lemma clamp_number (lo hi dflt : Q) (v : value) :
  (lo <= hi)%Q ->
  match v with Undefined | Null | Bool false | Num _ => True | _ => False end ->
  v <> Num NaN ->
  exists n, clamp lo hi dflt v = Return n /\ within lo hi n.
Proof.
  intros Hle Hv Hnan.
  assert (exists m, ToNumber (or_else v (Num (Finite dflt))) = Return m
                    /\ m <> NaN) as (m & Hm & Hne).
  { unfold or_else.
    destruct v as [| |[]|n| | |]; simpl in Hv; try done; simpl;
      try (by eexists).
    destruct n as [| |q|]; simpl; try done; try (by eexists).
    destruct (negb (is_zero q)); simpl; by eexists. }
  exists (max (Finite lo) (min (Finite hi) m)).
  unfold clamp. rewrite Hm. split; [done | by apply max_min_within].
Qed.

(** With no binding for [response] the handler throws on every error: the
    extraction branch never produces an analysis. *)
Lemma recover_out_of_scope (error : Js.error) (currentStepIndex : Z) :
  recover response_in_handler error currentStepIndex =
    Throw (match error with SyntaxError => ReferenceError | _ => error end).
Proof. by destruct error. Qed.

Lemma analyzeWithOpenAI_Return reply img ins currentStepIndex analysis :
  analyzeWithOpenAI reply img ins currentStepIndex = Return analysis <->
  request reply img ins currentStepIndex = Return analysis.
Proof.
  unfold analyzeWithOpenAI.
  destruct (request reply img ins currentStepIndex) as [a|e]; simpl; [done|].
  rewrite recover_out_of_scope. split; intros; done.
Qed.

(** A reply whose content is notJSON ends in a ReferenceError, which
    [analyzeScreen] turns into the simulated analysis. *)
Lemma analyzeWithOpenAI_parse_failure c content rest img ins currentStepIndex :
  JSON_parse (c :: content) = None ->
  analyzeWithOpenAI (Response (Some (c :: content) :: rest))
    img ins currentStepIndex
  = Throw ReferenceError.
Proof.
  intros Hp. unfold analyzeWithOpenAI, request. simpl.
  unfold parse. by rewrite Hp.
Qed.

(** Were [response] in scope, the extraction branch would hand over the
    parsed fields as they are, with no clamp. *)
Lemma recover_in_scope_unclamped c content jsonMatch fields rest idx :
  match_braces (c :: content) = Some jsonMatch ->
  JSON_parse jsonMatch = Some (Obj fields) ->
  exists analysis,
    recover (Some (Some (c :: content) :: rest)) SyntaxError idx
      = Return analysis
    /\ confidence analysis
       = or_else (lookup_field (js "confidence") fields) (num (1 # 2))
    /\ visualCues analysis
       = or_else (lookup_field (js "visualCues") fields) (Arr []).
Proof.
  intros Hm Hp. unfold recover. rewrite Hm. unfold parse. rewrite Hp.
  simpl. by eexists.
Qed.

Lemma mkCue_cases cue cue' :
  mkCue cue = Return cue' -> cue_clamped_or_NaN cue'.
Proof.
  unfold mkCue. intros Hc.
  apply bind_Return in Hc as (ty & _ & Hc).
  apply bind_Return in Hc as (x0 & _ & Hc).
  apply bind_Return in Hc as (x & Hx & Hc).
  apply bind_Return in Hc as (y0 & _ & Hc).
  apply bind_Return in Hc as (y & Hy & Hc).
  apply bind_Return in Hc as (width & _ & Hc).
  apply bind_Return in Hc as (height & _ & Hc).
  apply bind_Return in Hc as (text & _ & Hc).
  apply bind_Return in Hc as (color & _ & Hc).
  injection Hc as <-.
  exists x, y. split; [reflexivity|]. split; [reflexivity|]. split.
  - eapply clamp_cases; [|exact Hx]. by compute.
  - eapply clamp_cases; [|exact Hy]. by compute.
Qed.

Lemma mapM_mkCue cues cues' :
  mapM mkCue cues = Return cues' -> Forall cue_clamped_or_NaN cues'.
Proof.
  revert cues'. induction cues as [|cue cues IH]; intros cues' Hm; simpl in Hm.
  - injection Hm as <-. constructor.
  - apply bind_Return in Hm as (c' & Hc & Hm).
    apply bind_Return in Hm as (cs' & Hcs & Hm).
    injection Hm as <-. constructor; [by eapply mkCue_cases | by apply IH].
Qed.

(** What the parser guarantees about an analysis it returns: each of the
    three numbers lies in its interval unless it is NaN. *)
Lemma analyzeWithOpenAI_clamped_or_NaN reply img ins currentStepIndex analysis :
  analyzeWithOpenAI reply img ins currentStepIndex = Return analysis ->
  (exists n, confidence analysis = Num n /\ (n = NaN \/ within 0 1 n))
  /\ (exists cues, visualCues analysis = Arr cues
                   /\ Forall cue_clamped_or_NaN cues).
Proof.
  rewrite analyzeWithOpenAI_Return. unfold request. intros Hr.
  apply bind_Return in Hr as (choices & _ & Hr).
  apply bind_Return in Hr as (content & _ & Hr).
  destruct content as [[|c content]|]; try done.
  apply bind_Return in Hr as (result & _ & Hr).
  apply bind_Return in Hr as (st & _ & Hr).
  apply bind_Return in Hr as (msg & _ & Hr).
  destruct (negb (truthy st) || negb (truthy msg)); [done|].
  apply bind_Return in Hr as (c0 & _ & Hr).
  apply bind_Return in Hr as (conf & Hconf & Hr).
  apply bind_Return in Hr as (sugg & _ & Hr).
  apply bind_Return in Hr as (v0 & _ & Hr).
  apply bind_Return in Hr as (cues & Hcues & Hr).
  injection Hr as <-. simpl. split.
  - exists conf. split; [done|].
    eapply clamp_cases; [|exact Hconf]. by compute.
  - exists cues. split; [done|].
    destruct v0; try (injection Hcues as <-; constructor).
    by eapply mapM_mkCue.
Qed.

End RemotePath.

Section RemoteFailure.
Import Js AIVisionService.

(** C3, evaluated where the code departs from it: a reply that is valid
    JSON with the required [status] and [message] but gives [confidence]
    and the cue coordinates as words.  Each word is truthy, so it is kept
    by [||]; it converts to NaN, and both [Math.min] and [Math.max] return
    NaN.  The parser returns this analysis: its confidence is not in
    [0, 1] and the coordinates of its cue are not in the screen
    rectangle. *)
Theorem analyzeWithOpenAI_NaN `{Builtins}
    (c : N) (content : JsString.t) (screenImageData : JsString.t)
    (instructions : list JsString.t) (currentStepIndex : Z) :
  JSON_parse (c :: content) = Some reply_in_words ->
  StringToNumber (js "high") = NaN ->
  StringToNumber (js "left") = NaN ->
  StringToNumber (js "top") = NaN ->
  exists analysis cue,
    analyzeWithOpenAI (Response [Some (c :: content)])
      screenImageData instructions currentStepIndex
      = Return analysis
    /\ confidence analysis = Num NaN
    /\ visualCues analysis = Arr [cue]
    /\ get cue (js "x") = Return (Num NaN)
    /\ get cue (js "y") = Return (Num NaN)
    /\ ~ within 0 1 NaN /\ ~ within 0 1920 NaN /\ ~ within 0 1080 NaN.
Proof.
  intros Hparse Hhigh Hleft Htop.
  unfold analyzeWithOpenAI, request. simpl.
  unfold parse. rewrite Hparse. simpl.
  unfold clamp. simpl. rewrite Hhigh, Hleft, Htop. simpl.
  eexists _, _. repeat split; try reflexivity; by intros [].
Qed.

Lemma analyzeWithOpenAI_NaN_witness :
  exists analysis cue,
    @analyzeWithOpenAI words_only (Response [Some (js "reply")])
      (js "data:image/png;base64,AAAA") [js "Open Chrome"] 0
      = Return analysis
    /\ confidence analysis = Num NaN
    /\ visualCues analysis = Arr [cue]
    /\ get cue (js "x") = Return (Num NaN)
    /\ get cue (js "y") = Return (Num NaN)
    /\ ~ within 0 1 NaN /\ ~ within 0 1920 NaN /\ ~ within 0 1080 NaN.
Proof.
  apply (@analyzeWithOpenAI_NaN words_only 114%N (js "eply")
           (js "data:image/png;base64,AAAA") [js "Open Chrome"] 0);
    reflexivity.
Defined.

End RemoteFailure.

(* ===================================================================== *)
(** * The guard and the polling timer in every reachable state            *)
(* ===================================================================== *)

Section EventLoopFacts.
Import Js AIVisionService EventLoop.
Context `{Builtins} {Callbacks : Type}.
Implicit Types (w : World Callbacks) (ev : event Callbacks) (a : Args).

Lemma run_snoc w evs ev : run w (evs ++ [ev]) = (step (run w evs) ev).1.
Proof. unfold run. by rewrite foldl_app. Qed.

Lemma call_cases a w :
  (isAnalyzing (service w) = true
   /\ call a w = Throw (Error "Analysis already in progress"))
  \/ (isAnalyzing (service w) = false
      /\ call a w =
           Return {| service := set_isAnalyzing true (service w);
                     inflight := inflight w ++ [a];
                     intervals := intervals w;
                     next_handle := next_handle w;
                     awaiting := awaiting w |}).
Proof.
  unfold call, analyzeScreen_enter.
  destruct (isAnalyzing (service w)); [left | right]; done.
Qed.

Lemma stop_guard_inv w : guard_inv w -> guard_inv (stopContinuousAnalysis w).
Proof.
  unfold stopContinuousAnalysis, guard_inv.
  by destruct (analysisInterval (service w)).
Qed.

Lemma step_guard_inv w ev : guard_inv w -> guard_inv (step w ev).1.
Proof.
  intros Hw. destruct ev as [a|k env|p| |h a|h|k a|k e]; simpl.
  - destruct (call_cases a w) as [[Hb ->]|[Hb ->]]; simpl; [done|].
    destruct Hw as [[Ht _]|[_ Hl]]; [congruence|].
    left. rewrite Hl. by eauto.
  - unfold settle. destruct (inflight w !! k) as [b|] eqn:E; simpl; [|done].
    right. split; [done|].
    destruct Hw as [[_ [b' Hl]]|[_ Hl]]; rewrite Hl in E |- *.
    + by destruct k.
    + done.
  - unfold startContinuousAnalysis.
    apply stop_guard_inv in Hw. revert Hw.
    generalize (stopContinuousAnalysis w). intros w1 Hw. by simpl.
  - by apply stop_guard_inv.
  - destruct (existsb _ _ && should_analyze a); simpl; [|done].
    destruct (call_cases a w) as [[Hb ->]|[Hb ->]]; simpl; [done|].
    destruct Hw as [[Ht _]|[_ Hl]]; [congruence|].
    left. rewrite Hl. by eauto.
  - unfold fire. by destruct (registered h w).
  - destruct (awaiting w !! k); simpl; [|done].
    destruct (should_analyze a); simpl; [|done].
    destruct (call_cases a (resume k w)) as [[Hb ->]|[Hb ->]]; simpl; [done|].
    destruct Hw as [[Ht _]|[_ Hl]]; [simpl in Hb; congruence|].
    left. rewrite Hl. by eauto.
  - by destruct (awaiting w !! k).
Qed.

Lemma stop_clears w :
  timer_inv w ->
  intervals (stopContinuousAnalysis w) = []
  /\ analysisInterval (service (stopContinuousAnalysis w)) = None.
Proof.
  unfold timer_inv, stopContinuousAnalysis.
  destruct (analysisInterval (service w)) as [h|] eqn:E; [|by rewrite E].
  intros [p Hp]. simpl. rewrite Hp. simpl.
  by rewrite Pos.eqb_refl.
Qed.

Lemma start_single p w :
  timer_inv w ->
  let w' := startContinuousAnalysis p w in
  intervals w' = [(next_handle w, p)]
  /\ analysisInterval (service w') = Some (next_handle w)
  /\ next_handle w' = Pos.succ (next_handle w).
Proof.
  intros Hw. cbv zeta. unfold startContinuousAnalysis.
  destruct (stop_clears w Hw) as [Hi _].
  assert (Hn : next_handle (stopContinuousAnalysis w) = next_handle w).
  { unfold stopContinuousAnalysis. by destruct (analysisInterval (service w)). }
  simpl. by rewrite Hi, Hn.
Qed.

Lemma step_timer_inv w ev : timer_inv w -> timer_inv (step w ev).1.
Proof.
  intros Hw. destruct ev as [a|k env|p| |h a|h|k a|k e]; simpl.
  - by destruct (call_cases a w) as [[Hb ->]|[Hb ->]].
  - unfold settle. by destruct (inflight w !! k).
  - destruct (start_single p w Hw) as (Hi & Hs & _).
    unfold timer_inv. rewrite Hs, Hi. by eexists.
  - destruct (stop_clears w Hw) as [Hi Hs].
    unfold timer_inv. by rewrite Hs.
  - destruct (existsb _ _ && should_analyze a); simpl; [|done].
    by destruct (call_cases a w) as [[Hb ->]|[Hb ->]].
  - unfold fire. by destruct (registered h w).
  - destruct (awaiting w !! k); simpl; [|done].
    destruct (should_analyze a); simpl; [|done].
    by destruct (call_cases a (resume k w)) as [[Hb ->]|[Hb ->]].
  - by destruct (awaiting w !! k).
Qed.

Lemma reachable_inv w : reachable w -> guard_inv w /\ timer_inv w.
Proof.
  intros [evs ->]. induction evs as [|ev evs IH] using rev_ind.
  - split; [by right | done].
  - rewrite run_snoc. destruct IH as [Hg Ht].
    split; [by apply step_guard_inv | by apply step_timer_inv].
Qed.

(** The try and catch blocks of [analyzeScreen] never throw: either the
    remote parser answered, or the simulated analysis is returned. *)
Lemma analyzeScreen_body_cases (env : Env) img ins (idx : Z) :
  (no_valid_key (apiKey env) = false
   /\ exists analysis,
        analyzeWithOpenAI (reply env) img ins idx = Return analysis
        /\ analyzeScreen_body env img ins idx = Return analysis)
  \/ ((no_valid_key (apiKey env) = true
       \/ exists e, analyzeWithOpenAI (reply env) img ins idx = Throw e)
      /\ analyzeScreen_body env img ins idx
         = Return (simulateAIAnalysis (random env) img ins idx)).
Proof.
  unfold analyzeScreen_body.
  destruct (no_valid_key (apiKey env)); simpl.
  - right. split; [by left | done].
  - destruct (analyzeWithOpenAI (reply env) img ins idx) as [a|e]; simpl.
    + left. split; [done|]. by exists a.
    + right. split; [right; by exists e | done].
Qed.

(** A call made while no other is suspended, and left alone until it
    settles, is one run of [analyzeScreen]. *)
Lemma analyzeScreen_sequential w a env w1 :
  call a w = Return w1 ->
  exists w2 r,
    settle (length (inflight w)) env w1 = Some (w2, r)
    /\ (service w2, r)
       = analyzeScreen env (screenImageData a) (instructions a)
           (currentStepIndex a) (service w).
Proof.
  destruct (call_cases a w) as [[_ ->]|[Hb ->]]; [done|].
  intros [= <-]. unfold settle. simpl.
  rewrite lookup_app_r by done. rewrite Nat.sub_diag. simpl.
  eexists _, _. split; [done|].
  unfold analyzeScreen, analyzeScreen_enter. by rewrite Hb.
Qed.

End EventLoopFacts.

Section Guard.
Import Js AIVisionService EventLoop.
Context `{Builtins} {Callbacks : Type}.
Implicit Types (w : World Callbacks) (a : Args).

(** C2: in every reachable state a call of [analyzeScreen] throws exactly
    when another call is suspended; it then throws at once with the
    message of the guard and leaves the state as it is (nothing is queued).
    A call that passed the guard never throws: it settles with an analysis,
    which is the simulated one whenever no valid key is configured or the
    remote path threw, whatever the error. *)
Theorem analyzeScreen_throws_iff_in_flight w a :
  reachable w ->
  ((exists e, call a w = Throw e) <-> inflight w <> [])
  /\ (forall e, call a w = Throw e ->
        e = Error "Analysis already in progress"
        /\ step w (Call a) = (w, Rejects e))
  /\ (forall k b env, inflight w !! k = Some b ->
        exists w' analysis,
          settle k env w = Some (w', Return analysis)
          /\ ((no_valid_key (apiKey env) = true
               \/ exists e,
                    analyzeWithOpenAI (reply env) (screenImageData b)
                      (instructions b) (currentStepIndex b) = Throw e)
              -> analysis
                 = simulateAIAnalysis (random env) (screenImageData b)
                     (instructions b) (currentStepIndex b))).
Proof.
  intros Hr. apply reachable_inv in Hr as [Hg _].
  split; [|split].
  - destruct (call_cases a w) as [[Hb Hc]|[Hb Hc]]; rewrite Hc.
    + split; [|by eauto]. intros _.
      destruct Hg as [[_ [b ->]]|[Hf _]]; [done | congruence].
    + split; [by intros [e ?]|]. intros Hne.
      destruct Hg as [[Ht _]|[_ Hl]]; [congruence | done].
  - intros e He. simpl. rewrite He.
    destruct (call_cases a w) as [[_ Hc]|[_ Hc]]; rewrite Hc in He; [|done].
    injection He as <-. done.
  - intros k b env Hk. unfold settle. rewrite Hk. simpl.
    destruct (analyzeScreen_body_cases env (screenImageData b)
                (instructions b) (currentStepIndex b))
      as [(Hkey & analysis & Ha & ->)|[Hsim ->]].
    + eexists _, analysis. split; [done|].
      intros [Hc|[e He]]; congruence.
    + by eexists _, _.
Qed.

(** C10: in every reachable state, when a suspended call settles, with a
    result or with an error, [isAnalysisRunning] answers false afterwards
    and no call is left suspended; settling is always possible.  A call
    refused by the guard changes nothing: the flag stays set and the
    suspended call stays suspended. *)
Theorem guard_always_released w :
  reachable w ->
  (forall k b env, inflight w !! k = Some b ->
     exists w' r,
       settle k env w = Some (w', r)
       /\ isAnalysisRunning (service w') = false
       /\ inflight w' = [])
  /\ (forall a e, call a w = Throw e ->
        (step w (Call a)).1 = w
        /\ isAnalysisRunning (service w) = true
        /\ exists b, inflight w = [b]).
Proof.
  intros Hr. apply reachable_inv in Hr as [Hg _]. split.
  - intros k b env Hk. unfold settle. rewrite Hk. simpl.
    eexists _, _. split; [done|]. split; [done|]. simpl.
    destruct Hg as [[_ [b' Hl]]|[_ Hl]]; rewrite Hl in Hk |- *.
    + by destruct k.
    + done.
  - intros a e He. simpl. rewrite He. split; [done|].
    destruct (call_cases a w) as [[Hb Hc]|[_ Hc]]; rewrite Hc in He; [|done].
    split; [done|].
    destruct Hg as [[_ Hl]|[Hf _]]; [done | congruence].
Qed.

(** C5: in every reachable state, two consecutive calls of
    [startContinuousAnalysis], with any arguments, leave exactly one active
    interval, the one created by the second call; the interval created by
    the first call has been cleared.  [stopContinuousAnalysis] leaves no
    active interval. *)
Theorem one_polling_timer w (p1 p2 : Poll Callbacks) :
  reachable w ->
  let w1 := startContinuousAnalysis p1 w in
  let w2 := startContinuousAnalysis p2 w1 in
  (exists h1 h2,
     intervals w1 = [(h1, p1)]
     /\ intervals w2 = [(h2, p2)]
     /\ h1 <> h2
     /\ analysisInterval (service w2) = Some h2)
  /\ length (intervals w2) = 1
  /\ intervals (stopContinuousAnalysis w2) = []
  /\ intervals (stopContinuousAnalysis w) = [].
Proof.
  intros Hr. cbv zeta. apply reachable_inv in Hr as [_ Ht].
  destruct (start_single p1 w Ht) as (Hi1 & Hs1 & Hn1).
  assert (Ht1 : timer_inv (startContinuousAnalysis p1 w))
    by apply (step_timer_inv w (Start p1) Ht).
  destruct (start_single p2 _ Ht1) as (Hi2 & Hs2 & Hn2).
  assert (Ht2 : timer_inv (startContinuousAnalysis p2 (startContinuousAnalysis p1 w)))
    by apply (step_timer_inv _ (Start p2) Ht1).
  split; [|split; [|split]].
  - eexists _, _. split; [exact Hi1|]. split; [exact Hi2|].
    split; [|exact Hs2]. rewrite Hn1. apply Pos.succ_discr.
  - by rewrite Hi2.
  - apply stop_clears, Ht2.
  - apply stop_clears, Ht.
Qed.

End Guard.

Section GuardWitnesses.
Import Js AIVisionService EventLoop.

Lemma busy_world_reachable : reachable (H := words_only) busy_world.
Proof. by exists [Start sample_poll; Call sample_args]. Defined.

Lemma analyzeScreen_throws_iff_in_flight_witness :
  reachable (H := words_only) busy_world
  /\ ((exists e, call sample_args busy_world = Throw e)
      <-> inflight busy_world <> []).
Proof.
  split; [exact busy_world_reachable|].
  exact (proj1 (analyzeScreen_throws_iff_in_flight (H := words_only)
                  busy_world sample_args busy_world_reachable)).
Defined.

Lemma guard_always_released_witness :
  reachable (H := words_only) busy_world
  /\ (forall a e, call a busy_world = Throw e ->
        (step (H := words_only) busy_world (Call a)).1 = busy_world
        /\ isAnalysisRunning (service busy_world) = true
        /\ exists b, inflight busy_world = [b]).
Proof.
  split; [exact busy_world_reachable|].
  exact (proj2 (guard_always_released (H := words_only)
                  busy_world busy_world_reachable)).
Defined.

Lemma one_polling_timer_witness :
  reachable (H := words_only) busy_world
  /\ length (intervals (startContinuousAnalysis sample_poll
                          (startContinuousAnalysis sample_poll busy_world))) = 1.
Proof.
  split; [exact busy_world_reachable|].
  exact (proj1 (proj2 (one_polling_timer (H := words_only) busy_world
                         sample_poll sample_poll busy_world_reachable))).
Defined.

End GuardWitnesses.

(* ===================================================================== *)
(** * Properties of the floating guide                                    *)
(* ===================================================================== *)

Section GuideFacts.
Import Js AIGuidePopup.

(** C8: when the dismissal key holds [done], the initial state is hidden
    and dismissed and the render guard draws nothing, whatever is stored
    under the state key (nothing, a saved state, or text that does not
    parse) and whatever the props; the stored state is not even read. *)
Theorem dismissed_guide_renders_nothing
    (props : Props) (saved_state : option saved) (portalContainer : bool) :
  let storage := {| aiGuideState := saved_state;
                    aiGuideStatus := Some (js "done") |} in
  let g := initialState props storage in
  isVisible g = false
  /\ status g = dismissed
  /\ renders g portalContainer = false
  /\ g = initialState props {| aiGuideState := None;
                               aiGuideStatus := Some (js "done") |}
  /\ storage = AIGuidePopup.storage (mount props storage).
Proof. cbv zeta. repeat split. Qed.

Lemma includes_true l stepId : includes l stepId = true <-> stepId ∈ l.
Proof.
  unfold includes. rewrite existsb_exists. split.
  - intros (x & Hx & He). apply Z.eqb_eq in He as ->. by apply list_elem_of_In.
  - intros Hx. exists stepId. split; [by apply list_elem_of_In | apply Z.eqb_refl].
Qed.

Lemma includes_false l stepId : includes l stepId = false <-> stepId ∉ l.
Proof.
  rewrite <- includes_true. by destruct (includes l stepId).
Qed.

Lemma handleComplete_NoDup props g g' :
  NoDup (completedSteps g) -> handleComplete props g = Return g' ->
  NoDup (completedSteps g').
Proof.
  unfold handleComplete. intros Hnd.
  destruct (steps props !! currentStep g) as [s|]; [|done].
  intros [= <-]. simpl.
  destruct (includes (completedSteps g) (id s)) eqn:E; [done|].
  apply NoDup_app. split; [done|]. split; [|apply NoDup_singleton].
  intros x Hx ->%list_elem_of_singleton. by apply includes_false in E.
Qed.

(** Completing an already completed step changes nothing. *)
Lemma handleComplete_already props g s :
  steps props !! currentStep g = Some s ->
  includes (completedSteps g) (id s) = true ->
  handleComplete props g = Return g.
Proof.
  unfold handleComplete. intros -> ->. by destruct g.
Qed.

(** Completing twice is completing once. *)
Lemma handleComplete_idempotent props g g' :
  handleComplete props g = Return g' -> handleComplete props g' = Return g'.
Proof.
  unfold handleComplete.
  destruct (steps props !! currentStep g) as [s|] eqn:E; [|done].
  intros [= <-]. simpl. rewrite E. simpl.
  destruct (includes (completedSteps g) (id s)) eqn:Ei.
  - by rewrite Ei.
  - assert (Hin : includes (completedSteps g ++ [id s]) (id s) = true).
    { apply includes_true, elem_of_app. right. by apply list_elem_of_singleton. }
    by rewrite Hin.
Qed.

Lemma persist_persist st g : persist (persist st g) g = persist st g.
Proof. unfold persist. by destruct (bool_decide (status g = dismissed)). Qed.

Lemma update_inv g p :
  NoDup (completedSteps g) -> stored_ok (storage p) ->
  (status g = dismissed /\ isVisible g = false)
  \/ (status g <> dismissed /\ aiGuideStatus (storage p) <> Some (js "done")) ->
  page_inv (update g p).
Proof.
  intros Hnd Hst Hkey. unfold page_inv, update, persist, stored_ok. simpl.
  split; [done|].
  destruct (bool_decide_reflect (status g = dismissed)) as [Hd|Hd]; simpl.
  - split; [done|]. left. by destruct Hkey as [?|[? _]].
  - split; [done|]. right. by destruct Hkey as [[? _]|[_ ?]].
Qed.

Lemma mount_inv props st : stored_ok st -> page_inv (mount props st).
Proof.
  intros Hst. unfold mount.
  set (g := initialState props st).
  assert (Hg : NoDup (completedSteps g)
               /\ ((status g = dismissed /\ isVisible g = false)
                   \/ (status g <> dismissed
                       /\ aiGuideStatus st <> Some (js "done")))).
  { unfold g, initialState.
    destruct (bool_decide_reflect (aiGuideStatus st = Some (js "done")))
      as [Hd|Hd]; simpl.
    - split; [constructor | by left].
    - unfold stored_ok in Hst.
      destruct (aiGuideState st) as [[parsed|text]|]; simpl;
        (split; [first [tauto | constructor] | right; split; [tauto || done | done]]). }
  destruct Hg as [Hnd Hkey].
  by apply (update_inv g {| storage := st; props := props; guideState := g |}).
Qed.

Lemma dismissed_inert g :
  status g = dismissed -> isVisible g = false ->
  renders g true = false /\ autoPlaying g = false.
Proof.
  intros Hd Hv. unfold renders, autoPlaying. rewrite Hv.
  split; [done | by destruct (isPlaying g)].
Qed.

Lemma renders_live g : renders g true = true -> status g <> dismissed.
Proof.
  unfold renders. intros Hr Hd.
  rewrite (bool_decide_eq_true_2 _ Hd) in Hr.
  by destruct (isVisible g).
Qed.

Lemma step_inv p ev : page_inv p -> page_inv (step p ev).
Proof.
  intros Hp. pose proof Hp as (Hnd & Hst & Hsync). cbv zeta in Hsync.
  destruct ev as [props'| | |i| | | | | |data|];
    try (by apply mount_inv); unfold step.
  10: { destruct (autoPlaying (guideState p)) eqn:Ea; [|done].
        destruct Hsync as [[Hd Hv]|(Hl & _ & Hk)].
        - destruct (dismissed_inert _ Hd Hv) as [_ Hf]. congruence.
        - apply update_inv; [|done|right; split; [|done]]; handler. }
  all: destruct (renders (guideState p) true) eqn:Er; [|done].
  all: destruct Hsync as [[Hd Hv]|(Hl & _ & Hk)];
         [destruct (dismissed_inert _ Hd Hv) as [Hf _]; congruence|].
  - apply update_inv; [|done|right; split; [|done]]; handler.
  - apply update_inv; [|done|right; split; [|done]]; handler.
  - apply update_inv; [|done|right; split; [|done]]; handler.
  - destruct (handleComplete (props p) (guideState p)) as [g'|e] eqn:Ec;
      [|exact Hp].
    apply update_inv; [by eapply handleComplete_NoDup|done|].
    right. split; [|done]. unfold handleComplete in Ec.
    destruct (steps (props p) !! currentStep (guideState p)); [|done].
    by injection Ec as <-.
  - apply update_inv; [|done|right; split; [|done]]; handler.
  - apply update_inv; [|done|right; split; [|done]]; handler.
  - apply update_inv; [|done|right; split; [|done]]; handler.
    constructor.
  - unfold page_inv. simpl. split; [done|]. split; [done|]. by left.
  - apply update_inv; [|done|right; split; [|done]]; handler.
Qed.

Lemma run_snoc_page p evs ev : run p (evs ++ [ev]) = step (run p evs) ev.
Proof. unfold run. by rewrite foldl_app. Qed.

Lemma reachable_page_inv p : reachable p -> page_inv p.
Proof.
  intros (props & evs & ->). induction evs as [|ev evs IH] using rev_ind.
  - by apply mount_inv.
  - rewrite run_snoc_page. by apply step_inv.
Qed.

(** C9: completing is idempotent, on the state and on the whole page; in
    every reachable page the completed list, and its copy in storage, have
    pairwise distinct entries; and completing a step whose id is already in
    the list leaves the page exactly as it is. *)
Theorem completedSteps_distinct (p : Page) :
  reachable p ->
  NoDup (completedSteps (guideState p))
  /\ (forall g, aiGuideState (storage p) = Some (Stringified g) ->
        NoDup (completedSteps g))
  /\ (forall g', handleComplete (props p) (guideState p) = Return g' ->
        handleComplete (props p) g' = Return g')
  /\ step (step p Complete) Complete = step p Complete
  /\ (forall s, steps (props p) !! currentStep (guideState p) = Some s ->
        id s ∈ completedSteps (guideState p) ->
        handleComplete (props p) (guideState p) = Return (guideState p)
        /\ step p Complete = p).
Proof.
  intros Hr. apply reachable_page_inv in Hr as (Hnd & Hst & Hsync).
  cbv zeta in Hsync. split; [done|]. split; [|split; [|split]].
  - intros g Hg. unfold stored_ok in Hst. rewrite Hg in Hst. tauto.
  - apply handleComplete_idempotent.
  - unfold step at 2. destruct (renders (guideState p) true) eqn:Er; simpl.
    + destruct (handleComplete (props p) (guideState p)) as [g'|e] eqn:Ec.
      * unfold step. simpl.
        assert (Hr' : renders g' true = true).
        { unfold handleComplete in Ec.
          destruct (steps (props p) !! currentStep (guideState p)); [|done].
          by injection Ec as <-. }
        rewrite Hr', (handleComplete_idempotent _ _ _ Ec).
        unfold update. simpl. by rewrite Er, persist_persist.
      * unfold step. by rewrite Er, Ec.
    + unfold step. by rewrite Er.
  - intros s Hs Hin. apply includes_true in Hin.
    pose proof (handleComplete_already _ _ _ Hs Hin) as Hc.
    split; [done|]. unfold step. rewrite Hc.
    destruct (renders (guideState p) true) eqn:Er; [|done].
    destruct Hsync as [[Hd Hv]|(Hl & Hsave & Hk)].
    + destruct (dismissed_inert _ Hd Hv) as [Hf _]. congruence.
    + unfold update, persist.
      rewrite bool_decide_eq_false_2 by done.
      destruct p as [[saved_state key] pr g]. simpl in *. by rewrite Hsave.
Qed.

Lemma completedSteps_distinct_witness :
  let p := run (mount defaultProps emptyStorage) [Complete; Next; Complete] in
  reachable p
  /\ NoDup (completedSteps (guideState p))
  /\ step (step p Complete) Complete = step p Complete.
Proof.
  cbv zeta.
  assert (Hr : reachable
                 (run (mount defaultProps emptyStorage) [Complete; Next; Complete]))
    by (by exists defaultProps, [Complete; Next; Complete]).
  split; [exact Hr|].
  pose proof (completedSteps_distinct _ Hr) as (Hnd & _ & _ & Hid & _).
  split; [exact Hnd | exact Hid].
Defined.

End GuideFacts.

(* ===================================================================== *)
(** * Completed marks                                                     *)
(* ===================================================================== *)

Section TaskViewerFacts.
Import Js TaskViewer.

Lemma viewer_step_keeps stepId st ev :
  is_completed stepId st -> is_completed stepId (step st ev).
Proof.
  intros (s & Hin & Hid & Hc). destruct ev as [| | |k]; simpl.
  - unfold handleNextStep. destruct (before_last _ _); by exists s.
  - unfold handlePreviousStep. destruct (0 <? _); by exists s.
  - unfold handleStepComplete.
    destruct (steps st !! currentStep st) as [s0|] eqn:E; [|by exists s].
    apply list_elem_of_lookup in Hin as [j Hj].
    destruct (decide (currentStep st = j)) as [Heq|Hne].
    + exists (mark_completed s0). split; [|split; [|done]].
      * simpl. apply list_elem_of_lookup. exists (currentStep st).
        apply list_lookup_insert_eq. by eapply lookup_lt_Some.
      * rewrite Heq, Hj in E. by injection E as <-.
    + exists s. split; [|done]. simpl.
      apply list_elem_of_lookup. exists j. by rewrite list_lookup_insert_ne.
  - destruct (timeouts st !! k); by exists s.
Qed.

Lemma viewer_run_keeps stepId st evs :
  is_completed stepId st -> is_completed stepId (run st evs).
Proof.
  revert st. induction evs as [|ev evs IH]; intros st Hc; [done|].
  simpl. by apply IH, viewer_step_keeps.
Qed.

End TaskViewerFacts.

Section TaskInputPanelFacts.
Import Js TaskInputPanel.

Lemma imap_keeps stepId (f : nat -> bool) l :
  (exists inst, inst ∈ l /\ id inst = stepId /\ completed inst = true) ->
  exists inst,
    inst ∈ imap (fun index inst => set_current (f index) inst) l
    /\ id inst = stepId /\ completed inst = true.
Proof.
  intros (inst & Hin & Hid & Hc).
  apply list_elem_of_lookup in Hin as [j Hj].
  exists (set_current (f j) inst). split; [|done].
  apply list_elem_of_lookup. exists j.
  by rewrite list_lookup_imap, Hj.
Qed.

Lemma handleNextStep_keeps stepId c n st :
  is_completed stepId st -> is_completed stepId (handleNextStep c n st).
Proof.
  intros Hc. unfold handleNextStep. destruct (before_last c n); [|done].
  by apply imap_keeps.
Qed.

Lemma handleStepComplete_keeps stepId c n target st :
  is_completed stepId st ->
  is_completed stepId (handleStepComplete c n target st).
Proof.
  intros (inst & Hin & Hid & Hc). unfold is_completed. simpl.
  exists (if id inst =? target then complete inst else inst).
  split; [|by destruct (id inst =? target)].
  apply list_elem_of_fmap. by exists inst.
Qed.

Lemma panel_step_keeps stepId st ev :
  is_completed stepId st -> is_completed stepId (step st ev).
Proof.
  intros Hc. destruct ev as [target| | |status|k]; simpl.
  - by apply handleStepComplete_keeps.
  - by apply handleNextStep_keeps.
  - unfold handlePreviousStep. destruct (0 <? _); [|done].
    by apply imap_keeps.
  - unfold onAnalysis. by destruct (_ && _).
  - destruct (timeouts st !! k) as [[c n|[target|] c n]|]; simpl; try done.
    + by apply handleNextStep_keeps.
    + by apply handleStepComplete_keeps.
Qed.

Lemma panel_run_keeps stepId st evs :
  is_completed stepId st -> is_completed stepId (run st evs).
Proof.
  revert st. induction evs as [|ev evs IH]; intros st Hc; [done|].
  simpl. by apply IH, panel_step_keeps.
Qed.

End TaskInputPanelFacts.

Section CompletedMarks.
Import Js AIGuidePopup.

Lemma guide_step_keeps stepId p ev :
  keeps_progress ev ->
  stepId ∈ completedSteps (guideState p) ->
  stepId ∈ completedSteps (guideState (step p ev)).
Proof.
  intros Hev Hin. destruct ev as [props'| | |i| | | | | |data|];
    try done; unfold step.
  9: { destruct (autoPlaying (guideState p)); [|done]. simpl. handler. }
  all: destruct (renders (guideState p) true); [|done]; simpl; handler.
  unfold handleComplete.
  destruct (steps (props p) !! currentStep (guideState p)) as [s|]; [|done].
  simpl. destruct (includes _ _); [done|].
  apply elem_of_app. by left.
Qed.

Lemma guide_run_keeps stepId p evs :
  Forall keeps_progress evs ->
  stepId ∈ completedSteps (guideState p) ->
  stepId ∈ completedSteps (guideState (AIGuidePopup.run p evs)).
Proof.
  revert p. induction evs as [|ev evs IH]; intros p Hevs Hin; [done|].
  apply Forall_cons in Hevs as [Hev Hevs].
  simpl. by apply IH, guide_step_keeps.
Qed.

(** C4 (as amended): in the task viewer and in the orchestrator no
    sequence of operations (complete, navigate, the timers that advance,
    the completion triggered by the vision service) removes the completed
    mark of a step id.  In the floating guide every sequence of operations
    without a restart or a reload keeps each id of [completedSteps]; a
    reload keeps the list as well unless the guide was dismissed; restart,
    by design, empties the list. *)
Theorem completed_marks_kept :
  (forall stepId st evs,
     TaskViewer.is_completed stepId st ->
     TaskViewer.is_completed stepId (TaskViewer.run st evs))
  /\ (forall stepId st evs,
        TaskInputPanel.is_completed stepId st ->
        TaskInputPanel.is_completed stepId (TaskInputPanel.run st evs))
  /\ (forall stepId p evs,
        Forall keeps_progress evs ->
        stepId ∈ completedSteps (guideState p) ->
        stepId ∈ completedSteps (guideState (AIGuidePopup.run p evs)))
  /\ (forall p props',
        reachable p -> status (guideState p) <> dismissed ->
        completedSteps (guideState (step p (Reload props')))
        = completedSteps (guideState p))
  /\ (forall p,
        renders (guideState p) true = true ->
        completedSteps (guideState (step p Restart)) = []).
Proof.
  split; [|split; [|split; [|split]]].
  - apply viewer_run_keeps.
  - apply panel_run_keeps.
  - apply guide_run_keeps.
  - intros p props' Hr Hlive.
    apply reachable_page_inv in Hr as (_ & _ & [[Hd _]|(_ & Hsave & Hk)]);
      [done|].
    simpl. unfold initialState.
    rewrite bool_decide_eq_false_2 by done. by rewrite Hsave.
  - intros p Hr. unfold step. by rewrite Hr.
Qed.

(** C4 (as stated) fails: on a first visit with the default steps,
    completing step 1 puts id 1 in [completedSteps]; the restart button
    then empties the list. *)
Lemma restart_clears_completed :
  reachable (AIGuidePopup.run (mount defaultProps emptyStorage) [Complete])
  /\ completedSteps
       (guideState (AIGuidePopup.run (mount defaultProps emptyStorage) [Complete]))
     = [1%Z]
  /\ completedSteps
       (guideState
          (AIGuidePopup.run (mount defaultProps emptyStorage) [Complete; Restart]))
     = [].
Proof.
  split; [by exists defaultProps, [Complete]|].
  split; reflexivity.
Qed.

End CompletedMarks.

(* ===================================================================== *)
(** * More on the instruction processor                                   *)
(* ===================================================================== *)

Section SplitFacts.
Import JsString InstructionProcessor Fragments.

Lemma digits_dot_bound s n : digits_dot s = Some n -> 1 <= n <= length s.
Proof.
  revert n. induction s as [|c s IH]; intros n; simpl; [done|].
  destruct (c =? DOT)%N; [intros [= <-]; lia|].
  destruct (is_digit c); [|done].
  destruct (digits_dot s) as [m|]; simpl; [|done].
  intros [= <-]. specialize (IH m eq_refl). lia.
Qed.

Lemma separator_at_bound s n : separator_at s = Some n -> 1 <= n <= length s.
Proof.
  destruct s as [|c s]; simpl; [done|].
  destruct (c =? LF)%N; [intros [= <-]; lia|].
  destruct (c =? DOT)%N; [intros [= <-]; lia|].
  destruct (is_digit c); [|done].
  destruct (digits_dot s) as [m|] eqn:E; simpl; [|done].
  intros [= <-]. apply digits_dot_bound in E. lia.
Qed.

(** A code unit that is neither a period nor a digit ends every attempt to
    match [\d+\.] that reaches it. *)
Lemma digits_dot_stop a c b :
  c <> DOT -> is_digit c = false -> digits_dot (a ++ c :: b) = digits_dot a.
Proof.
  intros Hdot Hd. induction a as [|x a IH]; simpl.
  - apply N.eqb_neq in Hdot. by rewrite Hdot, Hd.
  - by rewrite IH.
Qed.

Lemma separator_at_stop x a c b :
  c <> DOT -> is_digit c = false ->
  separator_at (x :: a ++ c :: b) = separator_at (x :: a).
Proof. intros Hdot Hd. simpl. by rewrite digits_dot_stop. Qed.

Lemma split_loop_line k cur a b :
  k <= length a ->
  split_loop k cur (a ++ LF :: b) = split_loop k cur a ++ split b.
Proof.
  revert k cur. induction a as [|x a IH]; intros k cur Hk.
  - destruct k; [|simpl in Hk; lia]. reflexivity.
  - destruct k as [|k].
    + change ((x :: a) ++ LF :: b) with (x :: a ++ LF :: b).
      cbn [split_loop]. rewrite separator_at_stop by done.
      destruct (separator_at (x :: a)) as [[|j]|] eqn:E.
      * by apply IH; lia.
      * apply separator_at_bound in E. simpl in E.
        rewrite IH by lia. reflexivity.
      * by apply IH; lia.
    + simpl in Hk. simpl. apply IH. lia.
Qed.

Lemma split_loop_nonempty k cur s : split_loop k cur s <> [].
Proof.
  revert k cur. induction s as [|x s IH]; intros k cur; cbn [split_loop];
    [done|].
  destruct k; [|apply IH].
  destruct (separator_at (x :: s)) as [[|j]|]; try apply IH. done.
Qed.

Lemma split_loop_snoc k cur a c :
  plain c -> k <= length a ->
  split_loop k cur (a ++ [c]) = extend_last c (split_loop k cur a).
Proof.
  intros (Hlf & Hdot & Hd). revert k cur.
  induction a as [|x a IH]; intros k cur Hk.
  - destruct k; [|simpl in Hk; lia]. simpl.
    apply N.eqb_neq in Hlf, Hdot. rewrite Hlf, Hdot, Hd.
    simpl. by rewrite rev_app_distr || reflexivity.
  - destruct k as [|k].
    + change ((x :: a) ++ [c]) with (x :: a ++ [c]).
      cbn [split_loop]. rewrite separator_at_stop by done.
      destruct (separator_at (x :: a)) as [[|j]|] eqn:E.
      * by apply IH; lia.
      * apply separator_at_bound in E. simpl in E.
        rewrite IH by lia.
        destruct (split_loop j [] a) eqn:E2; [|done].
        by apply split_loop_nonempty in E2.
      * by apply IH; lia.
    + simpl in Hk. simpl. apply IH. lia.
Qed.

Lemma split_loop_cur k cur pre s :
  split_loop k (cur ++ pre) s = extend_first (rev pre) (split_loop k cur s).
Proof.
  revert k cur. induction s as [|x s IH]; intros k cur; cbn [split_loop].
  - simpl. by rewrite rev_app_distr.
  - destruct k; [|apply IH].
    destruct (separator_at (x :: s)) as [[|j]|].
    + apply (IH 0 (x :: cur)).
    + simpl. by rewrite rev_app_distr.
    + apply (IH 0 (x :: cur)).
Qed.

Lemma elem_of_rev {A} (x : A) (l : list A) : x ∈ rev l -> x ∈ l.
Proof. intros Hx. apply list_elem_of_In, in_rev. by apply list_elem_of_In. Qed.

(** No fragment contains a line feed or a period. *)
Lemma split_loop_clean k cur s :
  Forall (fun c => c <> LF /\ c <> DOT) cur ->
  Forall (Forall (fun c => c <> LF /\ c <> DOT)) (split_loop k cur s).
Proof.
  revert k cur. induction s as [|x s IH]; intros k cur Hcur; cbn [split_loop].
  - constructor; [|constructor]. apply Forall_forall. intros c Hc.
    rewrite Forall_forall in Hcur. by apply Hcur, elem_of_rev.
  - destruct k; [|by apply IH].
    destruct (separator_at (x :: s)) as [[|j]|] eqn:E.
    + apply separator_at_bound in E. lia.
    + constructor; [|by apply IH].
      apply Forall_forall. intros c Hc.
      rewrite Forall_forall in Hcur. by apply Hcur, elem_of_rev.
    + apply IH. constructor; [|done].
      simpl in E. split; intros ->; simpl in E; done.
Qed.

Lemma trim_sublist s c : c ∈ trim s -> c ∈ s.
Proof.
  unfold trim. intros Hc.
  destruct (trimStart_suffix s) as [p Hp].
  destruct (trimEnd_prefix (trimStart s)) as [q Hq].
  rewrite Hp, Hq. apply elem_of_app. right. apply elem_of_app. by left.
Qed.

(** The steps are determined by the trimmed fragments that pass the
    filter. *)
Lemma processInstructions_kept raw :
  processInstructions raw = take 8 (imap step_of (kept (split raw))).
Proof.
  unfold processInstructions, kept. f_equal.
  generalize (split raw). intros frags.
  assert (Hgen : forall n,
    imap (fun i => mkStep (n + i)) (List.filter keep frags)
    = imap (fun i => step_of (n + i))
        (List.filter (fun t => 10 <? length t) (map trim frags))).
  { induction frags as [|f frags IH]; intros n; simpl; [done|].
    unfold keep at 1. destruct (10 <? length (trim f)); simpl; [|apply IH].
    f_equal.
    etrans; [apply imap_ext; intros i x _; simpl;
             replace (n + S i) with (S n + i) by lia; reflexivity|].
    etrans; [apply IH|].
    apply imap_ext. intros i x _. simpl.
    by replace (n + S i) with (S (n + i)) by lia. }
  apply (Hgen 0).
Qed.

Lemma processInstructions_texts raw :
  map text (processInstructions raw) = take 8 (kept (split raw)).
Proof.
  rewrite processInstructions_kept.
  change (map text) with (fmap (M := list) text).
  rewrite fmap_take. f_equal.
  generalize (kept (split raw)). intros l.
  assert (Hgen : forall n, text <$> imap (fun i => step_of (n + i)) l = l).
  { induction l as [|t l IH]; intros n; simpl; [done|]. f_equal.
    etrans; [|apply (IH (S n))]. f_equal.
    apply imap_ext. intros i x _. simpl.
    by replace (n + S i) with (S (n + i)) by lia. }
  apply (Hgen 0).
Qed.

Lemma space_cases c : is_space c = true -> c = LF \/ plain c.
Proof.
  intros Hs. destruct (N.eq_dec c LF) as [->|Hlf]; [by left|]. right.
  split; [done|]. unfold is_space, is_digit, DOT in *.
  repeat rewrite orb_true_iff in Hs. rewrite andb_true_iff in Hs.
  repeat rewrite N.eqb_eq in Hs. repeat rewrite N.leb_le in Hs.
  split.
  - intros ->. lia.
  - apply andb_false_iff. rewrite !N.leb_gt. lia.
Qed.

Lemma kept_app l1 l2 : kept (l1 ++ l2) = kept l1 ++ kept l2.
Proof. unfold kept. by rewrite map_app, List.filter_app. Qed.

Lemma trim_cons_space c f : is_space c = true -> trim (c :: f) = trim f.
Proof. intros Hc. unfold trim. simpl. by rewrite Hc. Qed.

Lemma trimStart_snoc_space c f :
  is_space c = true ->
  trimStart (f ++ [c]) = match trimStart f with [] => [] | g => g ++ [c] end.
Proof.
  intros Hc. induction f as [|x f IH]; simpl; [by rewrite Hc|].
  destruct (is_space x); [exact IH | done].
Qed.

Lemma trim_snoc_space c f : is_space c = true -> trim (f ++ [c]) = trim f.
Proof.
  intros Hc. unfold trim. rewrite trimStart_snoc_space by done.
  destruct (trimStart f) as [|x g]; [done|].
  unfold trimEnd. rewrite rev_app_distr. simpl. by rewrite Hc.
Qed.

Lemma kept_extend_first c frags :
  is_space c = true -> kept (extend_first [c] frags) = kept frags.
Proof.
  intros Hc. destruct frags as [|f fs]; [done|].
  unfold kept. simpl. by rewrite trim_cons_space.
Qed.

Lemma kept_extend_last c frags :
  is_space c = true -> kept (extend_last c frags) = kept frags.
Proof.
  intros Hc. induction frags as [|f [|g fs] IH]; [done| |].
  - unfold kept. simpl. by rewrite trim_snoc_space.
  - change (extend_last c (f :: g :: fs)) with (f :: extend_last c (g :: fs)).
    change (f :: ?l) with ([f] ++ l). by rewrite !kept_app, IH.
Qed.

Lemma split_cons_space c s :
  is_space c = true -> kept (split (c :: s)) = kept (split s).
Proof.
  intros Hc. destruct (space_cases c Hc) as [->|(Hlf & Hdot & Hd)].
  - reflexivity.
  - unfold split. cbn [split_loop]. simpl.
    apply N.eqb_neq in Hlf, Hdot. rewrite Hlf, Hdot, Hd.
    change [c] with ([] ++ [c]).
    rewrite (split_loop_cur 0 [] [c] s). by apply kept_extend_first.
Qed.

Lemma split_snoc_space c s :
  is_space c = true -> kept (split (s ++ [c])) = kept (split s).
Proof.
  intros Hc. destruct (space_cases c Hc) as [->|Hp].
  - unfold split. rewrite split_loop_line by lia.
    by rewrite kept_app, app_nil_r.
  - unfold split. rewrite split_loop_snoc by (done || lia).
    by apply kept_extend_last.
Qed.

Lemma kept_trimStart s : kept (split (trimStart s)) = kept (split s).
Proof.
  induction s as [|c s IH]; simpl; [done|].
  destruct (is_space c) eqn:Hc; [|done].
  by rewrite split_cons_space.
Qed.

Lemma kept_trimEnd s : kept (split (trimEnd s)) = kept (split s).
Proof.
  unfold trimEnd. rewrite <- (rev_involutive s) at 2.
  induction (rev s) as [|c r IH]; simpl; [done|].
  destruct (is_space c) eqn:Hc; [|done].
  by rewrite split_snoc_space.
Qed.

Lemma digits_dot_none s :
  Forall (fun c => c <> LF /\ c <> DOT) s -> digits_dot s = None.
Proof.
  induction s as [|c s IH]; intros Hs; simpl; [done|].
  apply Forall_cons in Hs as [[_ Hdot] Hs].
  apply N.eqb_neq in Hdot. rewrite Hdot, IH by done.
  by destruct (is_digit c).
Qed.

Lemma split_loop_nosep cur s :
  Forall (fun c => c <> LF /\ c <> DOT) s ->
  split_loop 0 cur s = [rev cur ++ s].
Proof.
  revert cur. induction s as [|c s IH]; intros cur Hs; cbn [split_loop].
  - by rewrite app_nil_r.
  - pose proof Hs as Hall. apply Forall_cons in Hs as [[Hlf Hdot] Hs].
    simpl. apply N.eqb_neq in Hlf, Hdot.
    rewrite Hlf, Hdot, digits_dot_none by done.
    assert (Hstep : split_loop 0 (c :: cur) s = [rev cur ++ c :: s]).
    { rewrite IH by done. simpl. by rewrite <- app_assoc. }
    by destruct (is_digit c).
Qed.

Lemma take_take_app {A} n m (l1 l2 : list A) :
  n <= m -> take n (take n l1 ++ take m l2) = take n (l1 ++ l2).
Proof.
  revert n. induction l1 as [|x l1 IH]; intros n Hn.
  - rewrite take_nil. simpl. rewrite take_take. f_equal. lia.
  - destruct n; [done|]. simpl. f_equal. apply IH. lia.
Qed.

(** X1: no step text contains a line feed or a period: the splitter
    consumed them all. *)
Theorem processInstructions_texts_clean (raw : JsString.t) :
  Forall (fun i => (LF ∉ text i) /\ (DOT ∉ text i)) (processInstructions raw).
Proof.
  apply Forall_forall. intros i Hi.
  assert (Ht : text i ∈ take 8 (kept (split raw))).
  { rewrite <- processInstructions_texts. apply list_elem_of_In, in_map.
    by apply list_elem_of_In. }
  apply subseteq_take, list_elem_of_In, filter_In in Ht as [Ht _].
  apply in_map_iff in Ht as (f & Hf & Hin).
  pose proof (split_loop_clean 0 [] raw ltac:(constructor)) as Hclean.
  rewrite Forall_forall in Hclean.
  apply list_elem_of_In, Hclean in Hin. rewrite Forall_forall in Hin.
  rewrite <- Hf. split; intros Hc; apply trim_sublist, Hin in Hc; tauto.
Qed.

(** X2: parts of a text separated by a line feed are processed one after
    the other: the step texts of the whole are those of the first part
    followed by those of the second, cut at eight. *)
Theorem processInstructions_lines (a b : JsString.t) :
  map text (processInstructions (a ++ LF :: b))
  = take 8 (map text (processInstructions a)
            ++ map text (processInstructions b)).
Proof.
  rewrite !processInstructions_texts. unfold split.
  rewrite split_loop_line by lia.
  rewrite kept_app. symmetry. by apply take_take_app.
Qed.

Lemma kept_trim (raw : JsString.t) :
  Fragments.kept (split (trim raw)) = Fragments.kept (split raw).
Proof. unfold trim. by rewrite kept_trimEnd, kept_trimStart. Qed.

(** X3: white space around the whole text does not matter: the trimmed
    text yields the same steps. *)
Theorem processInstructions_trim (raw : JsString.t) :
  processInstructions (trim raw) = processInstructions raw.
Proof. rewrite !processInstructions_kept. by rewrite kept_trim. Qed.

(** X4: a text without line feed or period is taken as a whole: one step
    holding the trimmed text when that is longer than 10 code units, no
    step otherwise. *)
Theorem processInstructions_single (raw : JsString.t) :
  LF ∉ raw -> DOT ∉ raw ->
  processInstructions raw
  = if 10 <? length (trim raw) then [step_of 0 (trim raw)] else [].
Proof.
  intros Hlf Hdot. rewrite processInstructions_kept. unfold split.
  rewrite split_loop_nosep.
  - unfold kept. simpl. by destruct (10 <? length (trim raw)).
  - apply Forall_forall. intros c Hc. split; by intros ->.
Qed.

End SplitFacts.

Section SplitWitnesses.
Import JsString InstructionProcessor Fragments.

Lemma processInstructions_single_witness :
(LF ∉ js "Open the Chrome browser")
  /\ processInstructions (js "Open the Chrome browser")
     = [step_of 0 (js "Open the Chrome browser")].
Proof.
  assert (Hlf : LF ∉ js "Open the Chrome browser").
  { intros H. apply list_elem_of_In in H. vm_compute in H. intuition discriminate. }
  assert (Hdot : DOT ∉ js "Open the Chrome browser").
  { intros H. apply list_elem_of_In in H. vm_compute in H. intuition discriminate. }
  split; [exact Hlf|].
  exact (processInstructions_single _ Hlf Hdot).
Defined.

End SplitWitnesses.

(* ===================================================================== *)
(** * Text input and task store                                           *)
(* ===================================================================== *)

Section TextInputFacts.
Import JsString InstructionProcessor.

(** X5: what the text input submits is never empty and is already trimmed;
    the processor's effect accepts it, and the steps it produces are those
    of the text as typed. *)
Theorem handleSubmit_processed (st : TextInput.State) (raw : JsString.t) :
  TextInput.handleSubmit st = Some raw ->
  raw <> [] /\ trim raw = raw
  /\ TextInput.isProcessing st = false
  /\ TextInput.processOnce raw []
     = Some (processInstructions (TextInput.text st)).
Proof.
  unfold TextInput.handleSubmit.
  destruct (trim (TextInput.text st)) as [|c t] eqn:E; simpl; [done|].
  destruct (TextInput.isProcessing st); simpl; [done|].
  intros [= <-]. split; [done|]. rewrite <- E.
  split; [apply trim_idempotent|]. split; [done|].
  unfold TextInput.processOnce. rewrite E. simpl. rewrite <- E.
  by rewrite !processInstructions_kept, kept_trim.
Qed.

Lemma handleSubmit_processed_witness :
  TextInput.processOnce (js "Open the Chrome browser") []
  = Some (processInstructions ([32; 10]%N ++ js "Open the Chrome browser ")).
Proof.
  refine (proj2 (proj2 (proj2
    (handleSubmit_processed
       {| TextInput.text := [32; 10]%N ++ js "Open the Chrome browser ";
          TextInput.isProcessing := false |}
       (js "Open the Chrome browser") _)))).
  reflexivity.
Defined.

End TextInputFacts.

Section TaskContextFacts.
Import TaskContext.

Lemma take_9_take_10 {A} (l : list A) : take 9 (take 10 l) = take 9 l.
Proof. rewrite take_take. f_equal. Qed.

(** X6: whatever the consumers do, the history holds the tasks handed over
    since it was last cleared, the latest first, cut at ten; and the current
    task is the one of the latest [setCurrentTask] (clearing the history
    does not unset it). *)
Theorem taskHistory_latest_ten (ops : list op) :
  let st := run initial ops in
  taskHistory st = take 10 (recorded ops)
  /\ length (taskHistory st) <= 10
  /\ currentTask st = selected ops.
Proof.
  cbv zeta.
  assert (H : taskHistory (run initial ops) = take 10 (recorded ops)
              /\ currentTask (run initial ops) = selected ops).
  { induction ops as [|o ops [IH1 IH2]] using rev_ind; [done|].
    unfold run, recorded, selected in *. rewrite !foldl_app. simpl.
    destruct o as [task|task|]; simpl; rewrite ?IH1, ?IH2;
      by rewrite ?take_9_take_10. }
  destruct H as [H1 H2]. split; [done|]. split; [|done].
  rewrite H1, length_take. lia.
Qed.

End TaskContextFacts.

(* ===================================================================== *)
(** * Task viewer: indices and progress                                   *)
(* ===================================================================== *)

Section TaskViewerListFacts.
Import Js TaskViewer TaskViewerList.

Lemma act_length st a : length (steps (act st a)) = length (steps st).
Proof.
  destruct a as [[| | |k]|index]; simpl.
  - unfold handleNextStep. by destruct (before_last _ _).
  - unfold handlePreviousStep. by destruct (0 <? _).
  - unfold handleStepComplete.
    destruct (steps st !! currentStep st); [|done].
    simpl. by rewrite length_insert.
  - by destruct (timeouts st !! k).
  - by destruct (index <? _).
Qed.

Lemma before_last_lt i (l : list Step) :
  before_last i l = true -> i + 1 < length l.
Proof. unfold before_last. intros H%Z.ltb_lt. lia. Qed.

Lemma act_in_range st a : in_range st -> in_range (act st a).
Proof.
  intros [Hc Ht]. unfold in_range. rewrite act_length.
  destruct a as [[| | |k]|index]; simpl.
  - unfold handleNextStep. destruct (before_last _ _) eqn:E; [|done].
    apply before_last_lt in E. simpl. split; [lia | done].
  - unfold handlePreviousStep. destruct (0 <? _); [|done].
    simpl. split; [lia | done].
  - unfold handleStepComplete.
    destruct (steps st !! currentStep st); [|done]. simpl.
    split; [done|].
    destruct (before_last _ _) eqn:E; [|done].
    apply before_last_lt in E. apply Forall_app. split; [done|].
    by repeat constructor.
  - destruct (timeouts st !! k) as [target|] eqn:E; [|done]. simpl.
    split.
    + rewrite Forall_forall in Ht. by eapply Ht, list_elem_of_lookup_2.
    + by apply Forall_delete.
  - destruct (index <? length (steps st)) eqn:E; [|done].
    apply Nat.ltb_lt in E. by simpl.
Qed.

(** X7: opened on a task that has steps, the viewer never holds an index
    that designates no step, whatever is clicked and whichever timers fire
    in whatever order: the current step is always defined, marking it
    complete never throws, and the list keeps its length. *)
Theorem viewer_index_in_range (task_steps : list Step) (acts : list operation) :
  task_steps <> [] ->
  let st := run (open task_steps) acts in
  currentStep st < length (steps st)
  /\ length (steps st) = length task_steps
  /\ (exists s, steps st !! currentStep st = Some s)
  /\ (exists st', handleStepComplete st = Return st').
Proof.
  intros Hne. cbv zeta.
  assert (H : in_range (run (open task_steps) acts)
              /\ length (steps (run (open task_steps) acts))
                 = length task_steps).
  { induction acts as [|a acts [IH1 IH2]] using rev_ind.
    - split; [|done]. split; [|constructor]. simpl.
      destruct task_steps; [done | simpl; lia].
    - unfold run in *. rewrite foldl_app. simpl.
      split; [by apply act_in_range | by rewrite act_length]. }
  destruct H as [[Hc _] Hl]. split; [done|]. split; [done|].
  destruct (lookup_lt_is_Some_2 _ _ Hc) as [s Hs].
  split; [by exists s|].
  unfold handleStepComplete. rewrite Hs. by eexists.
Qed.

Lemma viewer_index_in_range_witness :
  let st := run (open [ {| id := 1; title := js "Step 1";
                           description := js "Open Chrome";
                           completed := false; type := action |} ])
                [Handler StepComplete; Handler NextStep; Select 3] in
  currentStep st < length (steps st).
Proof.
  cbv zeta.
  refine (proj1 (viewer_index_in_range _ _ _)). done.
Defined.

Lemma count_insert (l : list Step) i s s' :
  l !! i = Some s ->
  length (List.filter completed (<[i := s']> l)) + (if completed s then 1 else 0)
  = length (List.filter completed l) + (if completed s' then 1 else 0).
Proof.
  revert i. induction l as [|x l IH]; intros i Hi; [done|].
  destruct i as [|i]; simpl in *.
  - injection Hi as ->. destruct (completed s), (completed s'); simpl; lia.
  - specialize (IH i Hi). destruct (completed x); simpl; lia.
Qed.

Lemma completedSteps_complete st s :
  steps st !! currentStep st = Some s ->
  completedSteps (act st (Handler StepComplete))
  = if completed s then completedSteps st else S (completedSteps st).
Proof.
  intros Hs. unfold completedSteps. simpl.
  unfold handleStepComplete. rewrite Hs. simpl.
  pose proof (count_insert _ _ _ (mark_completed s) Hs) as Hc.
  simpl in Hc. destruct (completed s); lia.
Qed.

Lemma act_completed_mono st a :
  completedSteps st <= completedSteps (act st a).
Proof.
  destruct a as [[| | |k]|index]; unfold completedSteps; simpl.
  - unfold handleNextStep. by destruct (before_last _ _).
  - unfold handlePreviousStep. by destruct (0 <? _).
  - destruct (steps st !! currentStep st) as [s|] eqn:E.
    + pose proof (completedSteps_complete st s E) as Hsc.
      unfold completedSteps in Hsc. simpl in Hsc. rewrite Hsc.
      destruct (completed s); lia.
    + unfold handleStepComplete. by rewrite E.
  - by destruct (timeouts st !! k).
  - by destruct (index <? _).
Qed.

Lemma page_step_shown p c :
  shown p <= completedSteps (state p) ->
  shown p <= shown (page_step p c)
  /\ shown (page_step p c) <= completedSteps (state (page_step p c)).
Proof.
  intros Hp. destruct c as [a|]; simpl.
  - pose proof (act_completed_mono (state p) a).
    destruct (_ =? _); simpl; lia.
  - lia.
Qed.

Lemma page_step_length p c :
  length (steps (state (page_step p c))) = length (steps (state p)).
Proof.
  destruct c as [a|]; simpl; [|done].
  destruct (_ =? _); simpl; apply act_length.
Qed.

(** X8: the number of completed steps that the viewer shows is the one of
    its last render, and marking a step complete causes no render: the
    click leaves the number as it is, although the count of completed
    steps rises by one when the step was not completed yet.  The number is
    brought up to date by the next render, which a change of the current
    index causes (for any step but the last, the timer of the completion
    does so after a second).  Whatever is clicked and whichever timers
    fire, the number shown never decreases and never exceeds the count,
    which never exceeds the number of steps. *)
Theorem viewer_progress (task_steps : list Step) (cs : list cause) :
  let p := page_run (render (open task_steps)) cs in
  shown p <= completedSteps (state p)
  /\ completedSteps (state p) <= length task_steps
  /\ (forall c, shown p <= shown (page_step p c))
  /\ shown (page_step p (Act (Handler StepComplete))) = shown p
  /\ (forall s, steps (state p) !! currentStep (state p) = Some s ->
        completedSteps (state (page_step p (Act (Handler StepComplete))))
        = if completed s then completedSteps (state p)
          else S (completedSteps (state p)))
  /\ shown (page_step p Rerender) = completedSteps (state p)
  /\ (forall a, currentStep (act (state p) a) <> currentStep (state p) ->
        shown (page_step p (Act a)) = completedSteps (act (state p) a)).
Proof.
  cbv zeta.
  assert (H : shown (page_run (render (open task_steps)) cs)
              <= completedSteps (state (page_run (render (open task_steps)) cs))
              /\ length (steps (state (page_run (render (open task_steps)) cs)))
                 = length task_steps).
  { induction cs as [|c cs [IH1 IH2]] using rev_ind; [done|].
    unfold page_run in *. rewrite foldl_app. simpl.
    split; [by apply page_step_shown | by rewrite page_step_length]. }
  destruct H as [Hs Hl].
  set (p := page_run (render (open task_steps)) cs) in *.
  assert (Hsame : currentStep (act (state p) (Handler StepComplete))
                  = currentStep (state p)).
  { simpl. unfold handleStepComplete.
    by destruct (steps (state p) !! currentStep (state p)). }
  split; [done|]. split.
  { rewrite <- Hl. unfold completedSteps. apply List.filter_length_le. }
  split; [intros c; by apply page_step_shown|]. split.
  { cbn [page_step]. rewrite Hsame, Nat.eqb_refl. done. }
  split.
  { intros s Hcur. cbn [page_step]. rewrite Hsame, Nat.eqb_refl.
    by apply completedSteps_complete. }
  split; [done|].
  intros a Ha. cbn [page_step]. apply Nat.eqb_neq in Ha. by rewrite Ha.
Qed.

End TaskViewerListFacts.

(* ===================================================================== *)
(** * Orchestrator: the published task and the guided list                *)
(* ===================================================================== *)

Section OrchestratorFacts.
Import JsString InstructionProcessor TaskInputPanel Orchestrator.

(** X9: submitting a text and letting the processor report publishes a
    task whose steps mirror the processed instructions, at most eight: step
    [k] has id [k + 1], title "Step" followed by that number, the
    instruction's text as description, and is not completed.  The task
    becomes the current task and the head of the history, and the panel is
    in its guidance phase with the processed list. *)
Theorem published_task (now iso typed : JsString.t)
    (p : Panel) (store : TaskContext.State) :
  let '(p', store') := submit_and_process now iso typed p store in
  let steps := processInstructions typed in
  exists task,
    TaskContext.currentTask store' = Some task
    /\ head (TaskContext.taskHistory store') = Some task
    /\ TaskContext.mode task = activeMode p
    /\ length (TaskContext.steps task) = length steps
    /\ length (TaskContext.steps task) <= 8
    /\ (forall k inst, steps !! k = Some inst ->
          TaskContext.steps task !! k
          = Some {| TaskViewer.id := Z.of_nat (k + 1);
                    TaskViewer.title := js "Step " ++ decimal (k + 1);
                    TaskViewer.description := text inst;
                    TaskViewer.completed := false;
                    TaskViewer.type := TaskViewer.action |})
    /\ currentPhase p' = guidance
    /\ processedInstructions (guide p') = steps.
Proof.
  unfold submit_and_process. simpl.
  eexists. split; [reflexivity|]. split; [reflexivity|].
  split; [reflexivity|]. simpl. rewrite length_map.
  split; [done|].
  split; [unfold processInstructions; rewrite length_take; lia|].
  split; [|done].
  intros k inst Hk.
  change (map toStep) with (fmap (M := list) toStep).
  rewrite list_lookup_fmap, Hk. simpl.
  by apply processInstructions_lookup in Hk as (_ & step & _ & ->).
Qed.

Lemma before_last_lt_nat c n : before_last c n = true -> c + 1 < n.
Proof. unfold before_last. intros H%Z.ltb_lt. lia. Qed.

Lemma well_formed_complete c stepId st :
  well_formed st ->
  well_formed
    (handleStepComplete c (length (processedInstructions st)) stepId st).
Proof.
  intros (Hc & Hl & Ht). unfold well_formed. simpl.
  rewrite length_map. split; [done|]. split.
  - intros k inst.
    change (map ?f) with (fmap (M := list) f).
    rewrite list_lookup_fmap.
    destruct (processedInstructions st !! k) as [i0|] eqn:E; [|done].
    simpl. intros [= <-]. destruct (Hl k i0 E) as [Hid Hcur].
    by destruct (id i0 =? stepId).
  - destruct (before_last c _); [|done].
    apply Forall_app. split; [done|]. by repeat constructor.
Qed.

Lemma well_formed_next c st :
  well_formed st ->
  well_formed (handleNextStep c (length (processedInstructions st)) st).
Proof.
  intros (Hc & Hl & Ht). unfold handleNextStep.
  destruct (before_last c _) eqn:E; [|done].
  apply before_last_lt_nat in E. unfold well_formed. simpl.
  rewrite length_imap. split; [right; lia|]. split; [|done].
  intros k inst. rewrite list_lookup_imap.
  destruct (processedInstructions st !! k) as [i0|] eqn:E0; [|done].
  simpl. intros [= <-]. destruct (Hl k i0 E0) as [Hid _].
  split; [done|]. simpl. by intros ->%Nat.eqb_eq.
Qed.

Lemma well_formed_previous st :
  well_formed st -> well_formed (handlePreviousStep (currentStep st) st).
Proof.
  intros (Hc & Hl & Ht). unfold handlePreviousStep.
  destruct (0 <? currentStep st) eqn:E; [|done].
  apply Nat.ltb_lt in E. unfold well_formed. simpl.
  rewrite length_imap. split; [lia|]. split; [|done].
  intros k inst. rewrite list_lookup_imap.
  destruct (processedInstructions st !! k) as [i0|] eqn:E0; [|done].
  simpl. intros [= <-]. destruct (Hl k i0 E0) as [Hid _].
  split; [done|]. simpl. by intros ->%Nat.eqb_eq.
Qed.

Lemma well_formed_step st ev : well_formed st -> well_formed (step st ev).
Proof.
  intros Hw. destruct ev as [stepId| | |status|k]; simpl.
  - by apply well_formed_complete.
  - by apply well_formed_next.
  - by apply well_formed_previous.
  - destruct Hw as (Hc & Hl & Ht). unfold onAnalysis.
    destruct (_ && _); [|done]. unfold well_formed. simpl.
    split; [done|]. split; [done|].
    apply Forall_app. split; [done|]. by repeat constructor.
  - destruct (timeouts st !! k) as [t|] eqn:E; [|done].
    assert (Hw' : well_formed
              {| processedInstructions := processedInstructions st;
                 currentStep := currentStep st;
                 timeouts := delete k (timeouts st) |}).
    { destruct Hw as (Hc & Hl & Ht). unfold well_formed. simpl.
      split; [done|]. split; [done|]. by apply Forall_delete. }
    destruct Hw as (_ & _ & Ht). rewrite Forall_forall in Ht.
    pose proof (Ht t (list_elem_of_lookup_2 _ _ _ E)) as Hm.
    destruct t as [c m|[stepId|] c m]; simpl in *; subst m.
    + by apply (well_formed_next c _ Hw').
    + by apply (well_formed_complete c stepId _ Hw').
    + done.
Qed.

Lemma step_keeps_texts st ev :
  map text (processedInstructions (step st ev))
  = map text (processedInstructions st)
  /\ map id (processedInstructions (step st ev))
     = map id (processedInstructions st).
Proof.
  assert (Hmap : forall (l : list Instruction) stepId,
    map text (map (fun inst => if id inst =? stepId then complete inst
                               else inst) l) = map text l
    /\ map id (map (fun inst => if id inst =? stepId then complete inst
                                else inst) l) = map id l).
  { intros l stepId. rewrite !map_map. split; apply map_ext; intros inst;
      by destruct (id inst =? stepId). }
  assert (Himap : forall (l : list Instruction) (f : nat -> bool),
    map text (imap (fun index inst => set_current (f index) inst) l)
      = map text l
    /\ map id (imap (fun index inst => set_current (f index) inst) l)
       = map id l).
  { intros l. induction l as [|x l IH]; intros f; [done|]. simpl.
    destruct (IH (f ∘ S)) as [IH1 IH2]. split; f_equal; assumption. }
  destruct ev as [stepId| | |status|k]; simpl.
  - apply Hmap.
  - unfold handleNextStep. destruct (before_last _ _); [apply Himap | done].
  - unfold handlePreviousStep. destruct (0 <? _); [apply Himap | done].
  - unfold onAnalysis. by destruct (_ && _).
  - destruct (timeouts st !! k) as [[c m|[stepId|] c m]|];
      cbn [fire processedInstructions]; try done.
    + unfold handleNextStep. destruct (before_last _ _); [apply Himap | done].
    + apply Hmap.
Qed.

Lemma handleInstructionsProcessed_panel now iso instructions p store :
  (handleInstructionsProcessed now iso instructions p store).1
  = reported instructions p.
Proof. reflexivity. Qed.

Lemma processInstructions_nil : processInstructions [] = [].
Proof. reflexivity. Qed.

Lemma perform_guide_texts s ev :
  map text (list_of (perform s (Guide ev))) = map text (list_of s)
  /\ map id (list_of (perform s (Guide ev))) = map id (list_of s)
  /\ runs (perform s (Guide ev)) = runs s
  /\ currentPhase (panel (perform s (Guide ev))) = currentPhase (panel s).
Proof.
  unfold list_of. cbn [perform].
  destruct (from_button ev && negb (in_phase guidance (panel s))); [done|].
  cbn [panel guide with_guide runs currentPhase].
  destruct (step_keeps_texts (guide (panel s)) ev) as [Ht Hi]. done.
Qed.

Lemma submitted_snoc acts a :
  submitted (acts ++ [a])
  = submitted acts ++ match a with
                      | InstructionSubmit instructions => [instructions]
                      | _ => []
                      end.
Proof. unfold submitted. rewrite omap_app. by destruct a. Qed.

Lemma perform_inv acts s a :
  session_inv acts s -> session_inv (acts ++ [a]) (perform s a).
Proof.
  intros ((raw & Hraw & Ht & Hi) & Hruns). unfold session_inv.
  rewrite submitted_snoc.
  destruct a as [ev|instructions|k|].
  - rewrite app_nil_r.
    destruct (perform_guide_texts s ev) as (Ht' & Hi' & Hr' & _).
    rewrite Ht', Hi', Hr'. split; [by exists raw | done].
  - cbn [perform]. split.
    + exists raw. split; [|done].
      destruct Hraw as [->|Hin]; [by left|]. right.
      apply elem_of_app. by left.
    + intros r Hr. cbn [runs] in Hr. apply elem_of_app.
      destruct (starts_run _ _); [|left; by apply Hruns].
      apply elem_of_app in Hr as [Hr|Hr]; [left; by apply Hruns | by right].
  - rewrite app_nil_r. cbn [perform].
    destruct (runs s !! k) as [r|] eqn:E.
    + split.
      * exists r. split; [|done]. right.
        by eapply Hruns, list_elem_of_lookup_2.
      * intros r' Hr'. cbn [runs] in Hr'.
        by eapply Hruns, list_elem_of_delete_inv.
    + split; [by exists raw | done].
  - rewrite app_nil_r. cbn [perform].
    destruct (in_phase input (panel s)).
    + split; [by exists raw | done].
    + split; [|done]. exists []. split; [by left | done].
Qed.

Lemma session_invariant acts : session_inv acts (session acts).
Proof.
  induction acts as [|a acts IH] using rev_ind.
  - split; [|by intros r Hr; inversion Hr].
    exists []. split; [by left | done].
  - unfold session in *. rewrite foldl_app. by apply perform_inv.
Qed.

Lemma guided_session s evs :
  in_phase guidance (panel s) = true ->
  guide (panel (foldl perform s (map Guide evs)))
  = run (guide (panel s)) evs.
Proof.
  intros Hp. 
  assert (H : guide (panel (foldl perform s (map Guide evs)))
              = run (guide (panel s)) evs
              /\ in_phase guidance (panel (foldl perform s (map Guide evs)))
                 = true).
  { induction evs as [|ev evs [IH1 IH2]] using rev_ind; [done|].
    rewrite map_app, foldl_app. unfold run. rewrite foldl_app.
    cbn [map foldl perform]. rewrite IH2, andb_false_r.
    cbn [panel guide with_guide]. by rewrite IH1. }
  by destruct H.
Qed.

Lemma guides_keep_texts s evs :
  map text (list_of (foldl perform s (map Guide evs)))
  = map text (list_of s).
Proof.
  induction evs as [|ev evs IH] using rev_ind; [done|].
  rewrite map_app, foldl_app. cbn [map foldl].
  destruct (perform_guide_texts (foldl perform s (map Guide evs)) ev)
    as (Ht & _). by rewrite Ht.
Qed.

(** X10: over the whole life of the panel (submissions, late reports of
    the processor, returns to the input, timers left from earlier
    sessions) the list always is, up to the completed and current marks,
    what the processor made of one of the submitted texts, or empty: ids
    are the positions plus one, texts are the processor's, at most eight
    entries.  In the first session, from the first report on and as long
    as only the guide acts (buttons, reports of the vision service,
    timers), no entry other than the one at [currentStep] is marked
    current and [currentStep] designates an entry whenever there is one.
    That does not survive a return to the input: neither the timers nor
    [currentStep] are reset by the next report, and a timer of the first
    session leaves [currentStep] outside a new one-step list whose entry
    is marked current. *)
Theorem guided_list_stable :
  (forall acts,
     let s := session acts in
     (exists raw, (raw = [] \/ raw ∈ submitted acts)
        /\ map text (list_of s) = map text (processInstructions raw)
        /\ map id (list_of s) = map id (processInstructions raw))
     /\ (forall k inst, list_of s !! k = Some inst -> id inst = k + 1)
     /\ length (list_of s) <= 8)
  /\ (forall typed evs,
        let s := session (InstructionSubmit typed :: InstructionsProcessed 0
                          :: map Guide evs) in
        map text (list_of s) = map text (processInstructions typed)
        /\ (forall k inst, list_of s !! k = Some inst ->
              current inst = true -> k = index_of s)
        /\ (list_of s <> [] -> index_of s < length (list_of s)))
  /\ (let s := session stale_timer_run in
      length (list_of s) = 1 /\ index_of s = 1
      /\ exists inst, list_of s !! 0 = Some inst /\ current inst = true).
Proof.
  split; [|split].
  - intros acts. cbv zeta.
    destruct (session_invariant acts) as ((raw & Hraw & Ht & Hi) & _).
    split; [by exists raw|].
    assert (Hlen : length (list_of (session acts))
                   = length (processInstructions raw)).
    { apply (f_equal length) in Hi. by rewrite !length_map in Hi. }
    split.
    + intros k inst Hk.
      assert (Hid : map id (list_of (session acts)) !! k = Some (id inst)).
      { change (map id) with (fmap (M := list) id).
        by rewrite list_lookup_fmap, Hk. }
      rewrite Hi in Hid.
      change (map id) with (fmap (M := list) id) in Hid.
      rewrite list_lookup_fmap in Hid.
      destruct (processInstructions raw !! k) as [i0|] eqn:E; [|done].
      injection Hid as <-.
      by apply processInstructions_lookup in E as (_ & step & _ & ->).
    + rewrite Hlen. unfold processInstructions. rewrite length_take. lia.
  - intros typed evs. cbv zeta. unfold session. cbn [foldl].
    destruct typed as [|c t].
    + split; [by rewrite guides_keep_texts|].
      assert (Hnil : list_of (foldl perform
                (perform (perform start (InstructionSubmit []))
                   (InstructionsProcessed 0)) (map Guide evs)) = []).
      { pose proof (guides_keep_texts
          (perform (perform start (InstructionSubmit []))
             (InstructionsProcessed 0)) evs) as Hk.
        apply (f_equal length) in Hk. rewrite !length_map in Hk.
        by apply length_zero_iff_nil. }
      rewrite Hnil. split; [by intros k inst Hk|done].
    + set (s0 := perform (perform start (InstructionSubmit (c :: t)))
                   (InstructionsProcessed 0)).
      assert (Hg : guide (panel (foldl perform s0 (map Guide evs)))
                   = run {| processedInstructions :=
                              processInstructions (c :: t);
                            currentStep := 0; timeouts := [] |} evs)
        by by rewrite guided_session.
      assert (Hw : well_formed (guide (panel (foldl perform s0
                                                (map Guide evs))))).
      { rewrite Hg. clear Hg.
        induction evs as [|ev evs IH] using rev_ind.
        - unfold well_formed. simpl. split; [|split].
          + destruct (processInstructions (c :: t));
              [by left | right; simpl; lia].
          + intros k inst Hk.
            apply processInstructions_lookup in Hk as (_ & step & _ & ->).
            split; [done|]. simpl. by intros ->%Nat.eqb_eq.
          + constructor.
        - unfold run in *. rewrite foldl_app. simpl.
          by apply well_formed_step. }
      split; [by rewrite guides_keep_texts|].
      destruct Hw as (Hc & Hl & _). unfold list_of, index_of.
      split.
      * intros k inst Hk Hcur. by apply (Hl k inst Hk).
      * intros Hne. destruct Hc as [Hz|Hc]; [|done].
        by apply length_zero_iff_nil in Hz.
  - cbv zeta. split; [by vm_compute|]. split; [by vm_compute|].
    eexists. split; by vm_compute.
Qed.

Lemma take_app_cong {A} n (a r r' : list A) :
  take n r = take n r' -> take n (take n a ++ r) = take n (a ++ r').
Proof.
  revert n. induction a as [|x a IH]; intros n Hr.
  - by rewrite take_nil.
  - destruct n; [done|]. simpl. f_equal. apply IH.
    assert (Hc : forall l : list A, take n l = take n (take (S n) l)).
    { intros l. rewrite take_take. f_equal. lia. }
    by rewrite (Hc r), (Hc r'), Hr.
Qed.

Lemma kept_join_lines (parts : list JsString.t) :
  Fragments.kept (split (join_lines parts))
  = concat (map (fun s => Fragments.kept (split s)) parts).
Proof.
  induction parts as [|s [|s' rest] IH]; [done| |].
  - simpl. by rewrite app_nil_r.
  - change (join_lines (s :: s' :: rest))
      with (s ++ LF :: join_lines (s' :: rest)).
    unfold split at 1. rewrite split_loop_line by lia.
    rewrite kept_app, IH. reflexivity.
Qed.

(** X22: a task handed over by the image, voice or screen input is
    processed description by description: the panel stores the
    descriptions joined by line feeds and enters the processing phase, and
    the step texts that the processor makes of the stored text are those
    of each description in order, cut at eight. *)
Theorem task_descriptions_processed (task : TaskContext.Task) (p : Panel) :
  let p' := handleTaskSubmit task p in
  currentPhase p' = processing
  /\ map text (processInstructions (rawInstructions p'))
     = take 8 (concat (map (fun s => map text (processInstructions
                                                 (TaskViewer.description s)))
                         (TaskContext.steps task))).
Proof.
  cbv zeta. split; [done|].
  unfold handleTaskSubmit, handleInstructionSubmit. cbn [rawInstructions].
  rewrite processInstructions_texts, kept_join_lines.
  induction (TaskContext.steps task) as [|s rest IH]; [done|].
  cbn [map concat]. rewrite processInstructions_texts.
  symmetry. by apply take_app_cong.
Qed.

End OrchestratorFacts.

(* ===================================================================== *)
(** * Floating guide: dismissal, indices, reload                          *)
(* ===================================================================== *)

Section GuideRunFacts.
Import Js AIGuidePopup GuideRuns.

Lemma gone_step p ev : gone p -> gone (step p ev).
Proof.
  intros (Hd & Hv & Hk). destruct (dismissed_inert _ Hd Hv) as [Hr Ha].
  destruct ev as [props'| | |i| | | | | |data|]; unfold step;
    rewrite ?Hr, ?Ha; try done.
  unfold gone, mount, initialState, persist. rewrite Hk.
  rewrite bool_decide_eq_true_2 by done. simpl. by rewrite Hk.
Qed.

(** X11: the Done button dismisses the popup until the keys are removed
    from storage.  Nothing that the popup itself does afterwards, and no
    reload with whatever props, draws it again, and the dismissal mark
    stays in storage.  The demo page is the one other writer of the keys:
    when it removes them under the dismissed popup, the popup stays undrawn,
    but the next load of the page, with props that have steps, mounts it
    afresh: active, at the first step, with nothing completed, and drawn if
    [autoStart] says so. *)
Theorem dismissal_until_keys_removed (p : Page) (evs : list event)
    (portalContainer : bool) :
  renders (guideState p) true = true ->
  let p' := run (step p Done) evs in
  (renders (guideState p') portalContainer = false
   /\ status (guideState p') = dismissed
   /\ aiGuideStatus (storage p') = Some (js "done"))
  /\ renders (guideState (removeGuideKeys p')) portalContainer = false
  /\ (forall props', steps props' <> [] ->
        exists q,
          load props' (storage (removeGuideKeys p')) = Return q
          /\ status (guideState q) = active
          /\ isVisible (guideState q) = autoStart props'
          /\ currentStep (guideState q) = 0
          /\ completedSteps (guideState q) = []
          /\ draw props' (guideState q) true = Return (autoStart props')
          /\ aiGuideStatus (storage q) = None).
Proof.
  intros Hr. cbv zeta.
  assert (Hg : gone (run (step p Done) evs)).
  { induction evs as [|ev evs IH] using rev_ind.
    - unfold step. rewrite Hr. by unfold gone.
    - rewrite run_snoc_page. by apply gone_step. }
  destruct Hg as (Hd & Hv & Hk).
  assert (Hn : renders (guideState (run (step p Done) evs)) portalContainer
               = false) by (unfold renders; by rewrite Hv).
  split; [done|]. split; [done|].
  intros props' Hne. cbn [removeGuideKeys storage].
  assert (Hdraw : draw props' (initialState props' emptyStorage) true
                  = Return (autoStart props')).
  { unfold draw, renders, initialState. cbn.
    destruct (autoStart props'); [|done]. cbn.
    by destruct (steps props'). }
  unfold load, mount. cbn [guideState]. rewrite Hdraw.
  eexists. split; [reflexivity|]. cbn [guideState storage].
  by repeat split.
Qed.

Lemma dismissal_until_keys_removed_witness :
  renders
    (guideState
       (run (step (mount defaultProps emptyStorage) Done)
            [Reload defaultProps; Restart; PlayPause; AutoPlayTick]))
    true = false.
Proof.
  refine (proj1 (proj1 (dismissal_until_keys_removed
                          (mount defaultProps emptyStorage)
                          [Reload defaultProps; Restart; PlayPause;
                           AutoPlayTick]
                          true _))).
  reflexivity.
Defined.





(** X13: a reload brings back what was saved, provided the saved step
    exists in the props of the reloaded page or the popup was minimized.
    In every state that the popup reaches by its own events from a first
    visit and in which it is not dismissed, such a reload restores the
    current step, the minimized flag, the position, the completed list and
    the status; the popup is drawn, not playing, and that state is what is
    saved again.  When the props of the reloaded page have no step at the
    saved index and the popup was expanded, the first drawing throws a
    TypeError instead. *)
Theorem reload_restores (p : Page) (props' : Props) :
  reachable p ->
  status (guideState p) <> dismissed ->
  let g := restored (guideState p) in
  (currentStep g < length (steps props') \/ isMinimized g = true ->
     exists q,
       load props' (storage p) = Return q
       /\ guideState q = g /\ props q = props'
       /\ aiGuideState (storage q) = Some (Stringified g)
       /\ draw props' g true = Return true)
  /\ (length (steps props') <= currentStep g -> isMinimized g = false ->
        load props' (storage p) = Throw TypeError).
Proof.
  intros Hr Hlive. cbv zeta.
  apply reachable_page_inv in Hr as (_ & _ & [[Hd _]|(_ & Hsave & Hk)]);
    [done|].
  assert (Hm : mount props' (storage p)
               = {| storage := {| aiGuideState :=
                                    Some (Stringified
                                            (restored (guideState p)));
                                  aiGuideStatus := aiGuideStatus (storage p) |};
                    props := props';
                    guideState := restored (guideState p) |}).
  { unfold mount, initialState, persist.
    rewrite (bool_decide_eq_false_2
               (aiGuideStatus (storage p) = Some (js "done"))) by done.
    rewrite Hsave. simpl.
    by rewrite bool_decide_eq_false_2 by done. }
  assert (Hd : renders (restored (guideState p)) true = true).
  { unfold renders. simpl. by rewrite bool_decide_eq_false_2 by done. }
  unfold load. rewrite Hm. cbn [guideState]. unfold draw. rewrite Hd.
  split.
  - intros Hok. eexists.
    destruct (isMinimized (restored (guideState p))) eqn:E.
    + by repeat split.
    + destruct Hok as [Hlt|]; [|done].
      destruct (lookup_lt_is_Some_2 _ _ Hlt) as [s0 ->]. by repeat split.
  - intros Hge ->. by rewrite lookup_ge_None_2.
Qed.

Lemma reload_restores_witness :
  exists q,
    load defaultProps
      (storage (run (mount defaultProps emptyStorage)
                    [Next; Complete; PlayPause; Minimize]))
    = Return q
    /\ guideState q
       = restored
           (guideState (run (mount defaultProps emptyStorage)
                            [Next; Complete; PlayPause; Minimize])).
Proof.
  destruct (proj1 (reload_restores
                     (run (mount defaultProps emptyStorage)
                          [Next; Complete; PlayPause; Minimize])
                     defaultProps
                     ltac:(by exists defaultProps,
                                  [Next; Complete; PlayPause; Minimize])
                     ltac:(done))
                  ltac:(right; reflexivity))
    as (q & Hq & Hg & _).
  by exists q.
Defined.

Lemma completed_from_steps p ev :
  offered (props p) ev ->
  (forall x, x ∈ completedSteps (guideState p) ->
             exists s, s ∈ steps (props p) /\ id s = x) ->
  props (step p ev) = props p
  /\ (forall x, x ∈ completedSteps (guideState (step p ev)) ->
                exists s, s ∈ steps (props p) /\ id s = x).
Proof.
  intros Hev Hin. destruct ev as [props'| | |i| | | | | |data|];
    try done; unfold step.
  10: { destruct (autoPlaying (guideState p)); [|done]. simpl.
       split; [done|]. unfold autoAdvance.
       by destruct (before_last _ _). }
  all: destruct (renders (guideState p) true); [|done]; simpl.
  - split; [done|]. unfold handlePrevious. by destruct (0 <? _).
  - split; [done|]. unfold handleNext. by destruct (before_last _ _).
  - done.
  - unfold handleComplete.
    destruct (steps (props p) !! currentStep (guideState p)) as [s|] eqn:E;
      [|done].
    simpl. split; [done|].
    destruct (includes _ _); [done|].
    intros x [Hx| ->%list_elem_of_singleton]%elem_of_app; [by apply Hin|].
    exists s. split; [|done]. by eapply list_elem_of_lookup_2.
  - done.
  - done.
  - split; [done|]. simpl. intros x Hx. by apply elem_of_nil in Hx.
  - done.
  - done.
Qed.

(** X14: on a page that is not reloaded, starting from a first visit, the
    completed list only holds ids of steps of the guide, each once; so the
    count shown as completed never exceeds the number of steps. *)
Theorem completed_count_bounded (props0 : Props) (evs : list event) :
  Forall (offered props0) evs ->
  let g := guideState (run (mount props0 emptyStorage) evs) in
  length (completedSteps g) <= length (steps props0)
  /\ NoDup (completedSteps g)
  /\ (forall x, x ∈ completedSteps g ->
                exists s, s ∈ steps props0 /\ id s = x).
Proof.
  intros Hevs. cbv zeta.
  assert (H : props (run (mount props0 emptyStorage) evs) = props0
    /\ (forall x,
          x ∈ completedSteps (guideState (run (mount props0 emptyStorage) evs))
          -> exists s, s ∈ steps props0 /\ id s = x)).
  { induction evs as [|ev evs IH] using rev_ind.
    - split; [done|]. simpl. intros x Hx. by apply elem_of_nil in Hx.
    - apply Forall_app in Hevs as [Hevs Hev].
      apply Forall_cons in Hev as [Hev _].
      destruct (IH Hevs) as [IHp IHc]. rewrite run_snoc_page.
      assert (Hev' : offered (props (run (mount props0 emptyStorage) evs)) ev)
        by (by rewrite IHp).
      destruct (completed_from_steps _ ev Hev') as [Hp' Hc'].
      { intros x Hx. rewrite IHp. by apply IHc. }
      split; [by rewrite Hp'|].
      intros x Hx. rewrite <- IHp. by apply Hc'. }
  destruct H as [_ Hin].
  assert (Hnd : NoDup (completedSteps
                         (guideState (run (mount props0 emptyStorage) evs)))).
  { apply (reachable_page_inv (run (mount props0 emptyStorage) evs)).
    by exists props0, evs. }
  split; [|done].
  rewrite <- (length_map id (steps props0)).
  apply submseteq_length, NoDup_submseteq; [done|].
  intros x Hx. destruct (Hin x Hx) as (s & Hs & <-).
  apply list_elem_of_In, in_map. by apply list_elem_of_In.
Qed.

Lemma completed_count_bounded_witness :
  length
    (completedSteps
       (guideState
          (run (mount defaultProps emptyStorage)
               [Complete; Complete; Next; Complete; Previous; Complete])))
  <= length (steps defaultProps).
Proof.
  refine (proj1 (completed_count_bounded defaultProps
            [Complete; Complete; Next; Complete; Previous; Complete] _)).
  repeat constructor.
Defined.

End GuideRunFacts.

(* ===================================================================== *)
(** * Vision service: replies, simulation, polling                        *)
(* ===================================================================== *)

Section ReplyFacts.
Import Js AIVisionService VisionReplies.
Context `{Builtins}.

Lemma request_shape reply img ins idx analysis :
  request reply img ins idx = Return analysis ->
  truthy (status analysis) = true /\ truthy (message analysis) = true
  /\ isArray (suggestions analysis) = true
  /\ isArray (visualCues analysis) = true
  /\ currentStep analysis = idx.
Proof.
  unfold request. intros Hr.
  apply bind_Return in Hr as (choices & _ & Hr).
  apply bind_Return in Hr as (content & _ & Hr).
  destruct content as [[|c content]|]; try done.
  apply bind_Return in Hr as (result & _ & Hr).
  apply bind_Return in Hr as (st & _ & Hr).
  apply bind_Return in Hr as (msg & _ & Hr).
  destruct (truthy st) eqn:Est; [|done].
  destruct (truthy msg) eqn:Emsg; [|done]. simpl in Hr.
  apply bind_Return in Hr as (c0 & _ & Hr).
  apply bind_Return in Hr as (conf & _ & Hr).
  apply bind_Return in Hr as (sugg & _ & Hr).
  apply bind_Return in Hr as (v0 & _ & Hr).
  apply bind_Return in Hr as (cues & _ & Hr).
  injection Hr as <-. simpl. repeat split; try done.
  by destruct (isArray sugg) eqn:E.
Qed.

(** X15: an analysis that the remote parser returns always has a truthy
    status and message, arrays for its suggestions and cues, and the step
    index it was asked about. *)
Theorem analyzeWithOpenAI_shape reply img ins idx analysis :
  analyzeWithOpenAI reply img ins idx = Return analysis ->
  truthy (status analysis) = true /\ truthy (message analysis) = true
  /\ isArray (suggestions analysis) = true
  /\ isArray (visualCues analysis) = true
  /\ currentStep analysis = idx.
Proof. rewrite analyzeWithOpenAI_Return. apply request_shape. Qed.

Lemma numeric_clamp lo hi dflt v :
  (lo <= hi)%Q -> numeric v ->
  exists n, clamp lo hi dflt v = Return n /\ within lo hi n.
Proof.
  intros Hle Hv. apply clamp_number; [done| |].
  - by destruct v as [| |[]| | | |].
  - intros ->. by simpl in Hv.
Qed.

Lemma mkCue_numeric cue :
  numeric_cue cue -> exists cue', mkCue cue = Return cue' /\ cue_on_screen cue'.
Proof.
  destruct cue as [| | | | | |fields]; try done. intros [Hx Hy].
  destruct (numeric_clamp 0 1920 100 _ ltac:(by compute) Hx) as (x & Ex & Wx).
  destruct (numeric_clamp 0 1080 100 _ ltac:(by compute) Hy) as (y & Ey & Wy).
  unfold mkCue. cbn [get mbind completion_bind bind].
  rewrite Ex. cbn [bind]. rewrite Ey. cbn [bind].
  eexists. split; [reflexivity|]. by exists x, y.
Qed.

Lemma mapM_numeric cues :
  Forall numeric_cue cues ->
  exists cs, mapM mkCue cues = Return cs /\ Forall cue_on_screen cs
             /\ length cs = length cues.
Proof.
  induction 1 as [|cue cues Hcue _ (cs & Hcs & Hall & Hlen)]; simpl.
  - by exists [].
  - destruct (mkCue_numeric cue Hcue) as (cue' & -> & Hon). simpl.
    rewrite Hcs. simpl. exists (cue' :: cs).
    split; [done|]. split; [by constructor | simpl; lia].
Qed.

(** X16: when the reply is a JSON object with truthy status and message,
    a confidence that is a number or missing, and cues whose coordinates
    are numbers or missing, the parser returns an analysis with the
    confidence in [0, 1] and every cue inside the 1920 by 1080 rectangle,
    one cue per cue received; status and message are passed on as
    received. *)
Theorem numeric_reply_clamped (c : N) (content : JsString.t)
    (rest : list (option JsString.t)) (img : JsString.t)
    (ins : list JsString.t) (idx : Z) (fields : list (JsString.t * value)) :
  JSON_parse (c :: content) = Some (Obj fields) ->
  truthy (lookup_field (js "status") fields) = true ->
  truthy (lookup_field (js "message") fields) = true ->
  numeric (lookup_field (js "confidence") fields) ->
  (forall cues, lookup_field (js "visualCues") fields = Arr cues ->
                Forall numeric_cue cues) ->
  exists analysis n cs,
    analyzeWithOpenAI (Response (Some (c :: content) :: rest)) img ins idx
      = Return analysis
    /\ confidence analysis = Num n /\ within 0 1 n
    /\ visualCues analysis = Arr cs /\ Forall cue_on_screen cs
    /\ (forall cues, lookup_field (js "visualCues") fields = Arr cues ->
                     length cs = length cues)
    /\ status analysis = lookup_field (js "status") fields
    /\ message analysis = lookup_field (js "message") fields.
Proof.
  intros Hparse Hst Hmsg Hconf Hcues.
  destruct (numeric_clamp 0 1 (1 # 2) _ ltac:(by compute) Hconf)
    as (n & En & Wn).
  assert (Hcs : exists cs,
    match lookup_field (js "visualCues") fields with
    | Arr cues => mapM mkCue cues
    | _ => Return []
    end = Return cs /\ Forall cue_on_screen cs
    /\ (forall cues, lookup_field (js "visualCues") fields = Arr cues ->
                     length cs = length cues)).
  { destruct (lookup_field (js "visualCues") fields) eqn:E;
      try (exists []; split; [done|]; split; [constructor | done]).
    destruct (mapM_numeric items (Hcues _ eq_refl)) as (cs & Hm & Hall & Hl).
    exists cs. split; [done|]. split; [done|]. by intros cues [= <-]. }
  destruct Hcs as (cs & Ecs & Hall & Hlen).
  exists {| currentStep := idx; confidence := Num n;
            suggestions :=
              (if isArray (lookup_field (js "suggestions") fields)
               then lookup_field (js "suggestions") fields else Arr []);
            visualCues := Arr cs;
            status := lookup_field (js "status") fields;
            message := lookup_field (js "message") fields |}, n, cs.
  split; [|done].
  unfold analyzeWithOpenAI, request.
  cbn [mbind completion_bind bind try_catch].
  unfold parse. rewrite Hparse.
  cbn [get mbind completion_bind bind try_catch].
  rewrite Hst, Hmsg. cbn [negb orb].
  rewrite En. cbn [bind]. rewrite Ecs. reflexivity.
Qed.

Lemma request_unusable reply img ins idx :
  unusable reply -> exists e, request reply img ins idx = Throw e.
Proof.
  unfold unusable, request. destruct reply as [e|[|[[|c content]|] rest]];
    intros Hu; try (by eexists).
  cbn [mbind completion_bind bind]. unfold parse.
  destruct (JSON_parse (c :: content)) as [result|]; [|by eexists].
  destruct result as [| | | | | |fields]; try (by eexists).
  cbn [get mbind completion_bind bind].
  destruct Hu as [-> | Hm]; [by eexists|].
  rewrite Hm. rewrite orb_true_r. by eexists.
Qed.

(** X17: a reply that cannot be used (rejected request, no choice, empty
    content, content that is not JSON, missing status or message) never
    surfaces: [analyzeScreen] answers with the simulated analysis. *)
Theorem unusable_reply_simulated (env : Env) (img : JsString.t)
    (ins : list JsString.t) (idx : Z) :
  unusable (reply env) ->
  analyzeScreen_body env img ins idx
  = Return (simulateAIAnalysis (random env) img ins idx).
Proof.
  intros Hu. unfold analyzeScreen_body.
  destruct (no_valid_key (apiKey env)); [done|].
  unfold analyzeWithOpenAI.
  destruct (request_unusable _ img ins idx Hu) as [e ->]. simpl.
  by rewrite recover_out_of_scope.
Qed.

End ReplyFacts.

Section ReplyWitnesses.
Import Js AIVisionService VisionReplies.

Lemma analyzeWithOpenAI_shape_witness :
  exists analysis,
    analyzeWithOpenAI (H := parses_out_of_range)
      (Response [Some (js "reply")]) (js "data:") [js "Open Chrome"] 3
    = Return analysis
    /\ currentStep analysis = 3%Z.
Proof.
  eexists. split; [reflexivity|].
  refine (proj2 (proj2 (proj2 (proj2
    (analyzeWithOpenAI_shape (H := parses_out_of_range)
       (Response [Some (js "reply")]) (js "data:") [js "Open Chrome"] 3
       _ _))))).
  reflexivity.
Defined.

Lemma numeric_reply_clamped_witness :
  exists analysis n cs,
    analyzeWithOpenAI (H := parses_out_of_range)
      (Response [Some (js "reply")]) (js "data:") [js "Open Chrome"] 0
    = Return analysis
    /\ confidence analysis = Num n /\ within 0 1 n
    /\ visualCues analysis = Arr cs /\ Forall cue_on_screen cs.
Proof.
  destruct (numeric_reply_clamped (H := parses_out_of_range)
              114%N (js "eply") [] (js "data:") [js "Open Chrome"] 0
              [ (js "status", Str (js "completed"));
                (js "message", Str (js "done"));
                (js "confidence", Num (Finite (17 # 10)));
                (js "visualCues",
                 Arr [Obj [ (js "x", Num (Finite (-5)));
                            (js "y", Num PosInfinity) ]]) ])
    as (analysis & n & cs & H1 & H2 & H3 & H4 & H5 & _).
  - reflexivity.
  - reflexivity.
  - reflexivity.
  - simpl. done.
  - intros cues [= <-]. repeat constructor; simpl; done.
  - by exists analysis, n, cs.
Defined.

Lemma unusable_reply_simulated_witness :
  analyzeScreen_body (H := parses_nothing)
    {| apiKey := Some (js "sk-live"); reply := Rejected (Error "offline");
       random := fun _ => 1 # 2 |}
    (js "data:") [js "Open Chrome"] 0
  = Return (simulateAIAnalysis (fun _ => 1 # 2) (js "data:")
              [js "Open Chrome"] 0).
Proof.
  refine (unusable_reply_simulated (H := parses_nothing)
            {| apiKey := Some (js "sk-live");
               reply := Rejected (Error "offline");
               random := fun _ => 1 # 2 |}
            (js "data:") [js "Open Chrome"] 0 _).
  exact I.
Defined.

End ReplyWitnesses.

Section SimulatedBounds.
Import Js AIVisionService VisionReplies.

Lemma scaled_within (r : Q) (a b : Z) (lo hi : Q) :
  (0 <= r)%Q -> (r < 1)%Q -> (0 <= a)%Z -> (0 <= b)%Z ->
  (a + b < 2 ^ 53)%Z ->
  (lo <= inject_Z b)%Q -> (inject_Z (a + b) <= hi)%Q ->
  exists x, scaled r (inject_Z a) (inject_Z b) = Num x /\ within lo hi x.
Proof.
  intros H0 H1 Ha Hb Hab Hlo Hhi.
  destruct (scaled_bounds r a b H0 H1 Ha Hb Hab) as (x & Hx & Hx1 & Hx2).
  exists (Finite x). unfold scaled. rewrite Hx. split; [done|].
  simpl. split; lra.
Qed.

(** X18: with [Math.random] returning doubles of [0, 1), the simulated
    analysis respects the bounds that the remote path aims at, the
    rounding of every product and sum included: its confidence is a number
    of [0, 1], it carries exactly one cue, and that cue lies inside the
    1920 by 1080 rectangle (in fact between 100 and 900 across and between
    100 and 700 down). *)
Theorem simulateAIAnalysis_bounds (random : nat -> Q)
    (screenImageData : JsString.t) (instructions : list JsString.t)
    (currentStepIndex : Z) :
  (forall k, is_Number (random k)
             /\ (0 <= random k)%Q /\ (random k < 1)%Q) ->
  let analysis :=
    simulateAIAnalysis random screenImageData instructions currentStepIndex in
  (exists n, confidence analysis = Num n /\ within 0 1 n)
  /\ (exists cue x y,
        visualCues analysis = Arr [cue]
        /\ get cue (js "x") = Return (Num x)
        /\ get cue (js "y") = Return (Num y)
        /\ within 100 900 x /\ within 100 700 y
        /\ cue_on_screen cue).
Proof.
  intros Hr. cbv zeta. unfold simulateAIAnalysis.
  destruct (Hr 6) as (Hn & H0 & H1).
  change (inject_Z (Z.of_nat (length (scenarios random)))) with (inject_Z 3).
  assert (Hin : forall x y, within 100 900 x -> within 100 700 y ->
                  within 0 1920 x /\ within 0 1080 y).
  { intros [] []; simpl; try tauto. intros [? ?] [? ?]. repeat split; lra. }
  assert (Hcue : forall (r1 r2 : nat) (a1 b1 a2 b2 : Z) pre post,
    (0 <= a1)%Z -> (0 <= b1)%Z -> (0 <= a2)%Z -> (0 <= b2)%Z ->
    (100 <= inject_Z b1)%Q -> (inject_Z (a1 + b1) <= 900)%Q ->
    (100 <= inject_Z b2)%Q -> (inject_Z (a2 + b2) <= 700)%Q ->
    let cue := Obj ((js "type", pre)
                    :: (js "x", scaled (random r1) (inject_Z a1) (inject_Z b1))
                    :: (js "y", scaled (random r2) (inject_Z a2) (inject_Z b2))
                    :: post) in
    exists x y,
      get cue (js "x") = Return (Num x) /\ get cue (js "y") = Return (Num y)
      /\ within 100 900 x /\ within 100 700 y /\ cue_on_screen cue).
  { intros r1 r2 a1 b1 a2 b2 pre post A1 B1 A2 B2 L1 U1 L2 U2. cbv zeta.
    destruct (Hr r1) as (_ & P1 & Q1). destruct (Hr r2) as (_ & P2 & Q2).
    assert (S1 : (a1 + b1 < 2 ^ 53)%Z).
    { rewrite Zlt_Qlt. eapply Qle_lt_trans; [exact U1|]. by compute. }
    assert (S2 : (a2 + b2 < 2 ^ 53)%Z).
    { rewrite Zlt_Qlt. eapply Qle_lt_trans; [exact U2|]. by compute. }
    destruct (scaled_within _ a1 b1 100 900 P1 Q1 A1 B1 S1 L1 U1)
      as (x & Ex & Wx).
    destruct (scaled_within _ a2 b2 100 700 P2 Q2 A2 B2 S2 L2 U2)
      as (y & Ey & Wy).
    assert (Gx : get (Obj ((js "type", pre)
                    :: (js "x", scaled (random r1) (inject_Z a1) (inject_Z b1))
                    :: (js "y", scaled (random r2) (inject_Z a2) (inject_Z b2))
                    :: post)) (js "x") = Return (Num x)).
    { cbn [get lookup_field]. rewrite decide_False by done.
      rewrite decide_True by done. by rewrite Ex. }
    assert (Gy : get (Obj ((js "type", pre)
                    :: (js "x", scaled (random r1) (inject_Z a1) (inject_Z b1))
                    :: (js "y", scaled (random r2) (inject_Z a2) (inject_Z b2))
                    :: post)) (js "y") = Return (Num y)).
    { cbn [get lookup_field]. rewrite decide_False by done.
      rewrite decide_False by done. rewrite decide_True by done.
      by rewrite Ey. }
    destruct (Hin x y Wx Wy) as [Wx' Wy'].
    exists x, y. repeat split; try done. by exists x, y. }
  destruct (scenario_index _ Hn H0 H1) as (i & -> & [-> | [-> | ->]]);
    cbn [at_number]; simpl Qeq_bool; cbv iota;
    cbn [index Z.ltb Z.compare Z.to_nat scenarios lookup list_lookup
         Qfloor inject_Z Qnum Qden Z.div
         confidence visualCues s_confidence s_visualCues literal].
  all: split; [eexists; split; [reflexivity|]; by vm_compute|].
  - destruct (Hcue 0 1 800%Z 100%Z 600%Z 100%Z (Str (js "arrow"))
                [ (js "text", Str (js "Click here next"));
                  (js "color", Str (js "#10B981")) ])
      as (x & y & ?); try done.
    eexists _, x, y. split; [reflexivity|done].
  - destruct (Hcue 2 3 600%Z 200%Z 400%Z 150%Z (Str (js "highlight"))
                [ (js "width", num 200); (js "height", num 50);
                  (js "text", Str (js "Look for this area"));
                  (js "color", Str (js "#F59E0B")) ])
      as (x & y & ?); try done.
    eexists _, x, y. split; [reflexivity|done].
  - destruct (Hcue 4 5 700%Z 150%Z 500%Z 100%Z (Str (js "circle"))
                [ (js "text", Str (10003%N :: js " Completed"));
                  (js "color", Str (js "#10B981")) ])
      as (x & y & ?); try done.
    eexists _, x, y. split; [reflexivity|done].
Qed.

Lemma simulateAIAnalysis_bounds_witness :
  exists n,
    confidence (simulateAIAnalysis
                  (fun _ => 6004799503160661 # 18014398509481984)
                  (js "data:") [js "Open Chrome"] 0) = Num n
    /\ within 0 1 n.
Proof.
  apply (proj1 (simulateAIAnalysis_bounds
                  (fun _ => 6004799503160661 # 18014398509481984)
                  (js "data:") [js "Open Chrome"] 0
                  ltac:(intros k; split; [by vm_compute|split; by compute]))).
Defined.

End SimulatedBounds.

Section PollingFacts.
Import Js AIVisionService EventLoop.
Context `{Builtins} {Callbacks : Type}.
Implicit Types (w : World Callbacks) (a : Args).

Lemma stop_frame w :
  inflight (stopContinuousAnalysis w) = inflight w
  /\ isAnalyzing (service (stopContinuousAnalysis w)) = isAnalyzing (service w).
Proof.
  unfold stopContinuousAnalysis. by destruct (analysisInterval (service w)).
Qed.

Lemma stop_awaiting w : awaiting (stopContinuousAnalysis w) = awaiting w.
Proof.
  unfold stopContinuousAnalysis. by destruct (analysisInterval (service w)).
Qed.

(** The atomic tick is the firing followed at once by the answer. *)
Lemma tick_fire_answer w (h : positive) a :
  step (step w (Fire h)).1 (ScreenData (length (awaiting w)) a)
  = step w (Tick h a).
Proof.
  cbn [step fst]. unfold fire, registered.
  destruct (existsb _ (intervals w)) eqn:E; cbn [andb awaiting].
  - rewrite lookup_app_r by done. rewrite Nat.sub_diag. cbn [lookup list_lookup].
    assert (Hres : resume (length (awaiting w))
                     {| service := service w; inflight := inflight w;
                        intervals := intervals w;
                        next_handle := next_handle w;
                        awaiting := awaiting w ++ [h] |} = w).
    { unfold resume. cbn. 
      replace (delete (length (awaiting w)) (awaiting w ++ [h]))
        with (awaiting w); [by destruct w|].
      induction (awaiting w) as [|x l IH]; [done|]. cbn. by f_equal. }
    rewrite Hres. reflexivity.
  - rewrite lookup_ge_None_2 by done. reflexivity.
Qed.

(** X19: stopping the polling keeps any interval from firing again, but
    cancels nothing that is under way.  A call that is suspended is not
    touched: the guard stays as it is and the call settles with the same
    result.  A callback that fired before the stop and still waits for its
    screen data is not touched either: when the data arrives it goes on as
    it would have, and calls [analyzeScreen] if the guard is free. *)
Theorem stop_keeps_suspended_call w :
  reachable w ->
  let w' := stopContinuousAnalysis w in
  (forall h, step w' (Fire h) = (w', Nothing))
  /\ inflight w' = inflight w
  /\ isAnalysisRunning (service w') = isAnalysisRunning (service w)
  /\ (forall k env, snd <$> settle k env w' = snd <$> settle k env w)
  /\ awaiting w' = awaiting w
  /\ (forall k a, (step w' (ScreenData k a)).2 = (step w (ScreenData k a)).2)
  /\ (forall k h a, awaiting w !! k = Some h -> should_analyze a = true ->
        inflight w = [] ->
        (step w' (ScreenData k a)).2 = Pending
        /\ inflight (step w' (ScreenData k a)).1 = [a]).
Proof.
  intros Hr. cbv zeta. apply reachable_inv in Hr as [Hg Ht].
  destruct (stop_clears w Ht) as [Hi _].
  destruct (stop_frame w) as [Hf Hs].
  pose proof (stop_awaiting w) as Ha.
  split.
  { intros h. cbn [step]. unfold fire, registered. by rewrite Hi. }
  split; [done|]. split; [done|]. split.
  { intros k env. unfold settle. rewrite Hf.
    by destruct (inflight w !! k). }
  split; [done|]. split.
  - intros k a. cbn [step]. rewrite Ha.
    destruct (awaiting w !! k); [|done].
    destruct (should_analyze a); [|done].
    destruct (call_cases a (resume k (stopContinuousAnalysis w)))
      as [[Hb ->]|[Hb ->]];
      destruct (call_cases a (resume k w)) as [[Hb' ->]|[Hb' ->]];
      try done; simpl in Hb, Hb'; congruence.
  - intros k h a Hk Hsa Hl. cbn [step]. rewrite Ha, Hk, Hsa.
    destruct (call_cases a (resume k (stopContinuousAnalysis w)))
      as [[Hb ->]|[Hb ->]].
    + simpl in Hb. destruct Hg as [[_ [b Hb']]|[Hfl _]]; congruence.
    + split; [done|]. simpl. by rewrite Hf, Hl.
Qed.

(** X20: a polling tick never queues work: in every reachable state it
    either leaves everything as it is (unknown timer, no screen data, no
    instructions, or a call already suspended) or starts the one suspended
    call; never is more than one call suspended. *)
Theorem tick_never_queues w (h : positive) a :
  reachable w ->
  let w' := (step w (Tick h a)).1 in
  (w' = w \/ (inflight w = [] /\ inflight w' = [a]
             /\ should_analyze a = true))
  /\ length (inflight w') <= 1
  /\ (inflight w <> [] -> w' = w).
Proof.
  intros Hr. cbv zeta.
  assert (Hr' : reachable (step w (Tick h a)).1).
  { destruct Hr as [evs ->]. exists (evs ++ [Tick h a]).
    by rewrite run_snoc. }
  apply reachable_inv in Hr as [Hg _]. apply reachable_inv in Hr' as [Hg' _].
  split; [|split].
  - simpl. destruct (existsb _ _); simpl; [|by left].
    destruct (should_analyze a) eqn:Es; [|by left].
    destruct (call_cases a w) as [[_ ->]|[Hb ->]]; [by left|].
    right. simpl. destruct Hg as [[Ht _]|[_ ->]]; [congruence|done].
  - destruct Hg' as [[_ [b ->]]|[_ ->]]; simpl; lia.
  - intros Hne. simpl. destruct (existsb _ _ && should_analyze a); [|done].
    destruct (call_cases a w) as [[_ ->]|[Hb ->]]; [done|].
    destruct Hg as [[Ht _]|[_ Hl]]; [congruence|done].
Qed.

Lemma simulate_currentStep random img ins idx :
  currentStep (simulateAIAnalysis random img ins idx) = idx.
Proof. unfold simulateAIAnalysis. by destruct (at_number _ _). Qed.

(** X21: a call of [analyzeScreen] that nothing interleaves with never
    changes the service: refused when the flag is set, and otherwise
    answered with an analysis, never an error, that carries the step index
    it was asked about, the flag being cleared again. *)
Theorem analyzeScreen_alone (env : Env) (img : JsString.t)
    (ins : list JsString.t) (idx : Z) (s : Service) :
  exists analysis,
    currentStep analysis = idx
    /\ analyzeScreen env img ins idx s
       = (s, if isAnalyzing s
             then Throw (Error "Analysis already in progress")
             else Return analysis).
Proof.
  unfold analyzeScreen, analyzeScreen_enter, analyzeScreen_settle.
  destruct (analyzeScreen_body_cases env img ins idx)
    as [(_ & analysis & Ha & ->)|[_ ->]].
  - exists analysis. split.
    + apply analyzeWithOpenAI_Return in Ha.
      by destruct (request_shape _ _ _ _ _ Ha) as (_ & _ & _ & _ & ?).
    + destruct s as [[] t]; simpl; done.
  - eexists. split; [apply simulate_currentStep|].
    destruct s as [[] t]; simpl; done.
Qed.

End PollingFacts.

Section PollingWitnesses.
Import Js AIVisionService EventLoop.

Lemma fired_world_reachable : reachable (H := words_only) fired_world.
Proof. by exists [Start sample_poll; Fire 1%positive]. Defined.

Lemma stop_keeps_suspended_call_witness :
  reachable (H := words_only) fired_world
  /\ (step (H := words_only) (stopContinuousAnalysis fired_world)
        (ScreenData 0 sample_args)).2 = Pending.
Proof.
  split; [exact fired_world_reachable|].
  refine (proj1 (proj2 (proj2 (proj2 (proj2 (proj2 (proj2
    (stop_keeps_suspended_call (H := words_only) fired_world
       fired_world_reachable)))))) 0 1%positive sample_args _ _ _));
    reflexivity.
Defined.

Lemma tick_never_queues_witness :
  length (inflight (step (H := words_only) busy_world
                      (Tick 1%positive sample_args)).1) <= 1.
Proof.
  exact (proj1 (proj2 (tick_never_queues (H := words_only) busy_world
                         1%positive sample_args busy_world_reachable))).
Defined.

End PollingWitnesses.
